(** * XML section editor of [apps/server/src/lib/xml-extractor.ts]

    A shallow embedding of the regex-based editor of the
    [implemented_features] section of [app_spec.txt], with the properties
    of its escaping primitives, its parser, its writer and its CRUD
    wrappers.

    Strings.  A JavaScript string is a sequence of UTF-16 code units.  The
    embedding takes [list ascii] and reads an [ascii] as the code unit of
    the same number, so it covers the strings whose code units are below
    256 (the Latin-1 range).  The range is closed under every operation of
    the module: [toLowerCase] maps it to itself, and the replacement texts,
    tags and indentation are ASCII.

    Logging.  Every function takes an optional logger and only calls
    [debug] and [warn] on it; these calls do not influence the returned
    value and are left out.

    The status probe [getClaudeStatus], which comes with the source of
    the editor, is embedded in [CliStatus]. *)

From Stdlib Require Import Ascii String.
From Stdlib Require Import List Bool Arith Lia.
Import ListNotations.

Local Open Scope list_scope.

(* ================================================================== *)
(** * Strings as sequences of code units *)
(* ================================================================== *)

Module Str.

Definition str := list ascii.

(** A literal of the source, as a list of code units. *)
Definition lit (s : string) : str := list_ascii_of_string s.

Fixpoint eqb (a b : str) : bool :=
  match a, b with
  | [], [] => true
  | x :: a', y :: b' => Ascii.eqb x y && eqb a' b'
  | _, _ => false
  end.

(** ** Character classes of ECMAScript *)

Definition code (c : ascii) : nat := nat_of_ascii c.

(** [WhiteSpace] and [LineTerminator] code units below 256: TAB, LF, VT,
    FF, CR, SP and NBSP.  This is the set [String.prototype.trim] strips. *)
Definition is_space (c : ascii) : bool :=
  let n := code c in
  (9 <=? n) && (n <=? 13) || (n =? 32) || (n =? 160).

(** The regex atom [.] (no [s] flag): every code unit but a line
    terminator; LF and CR are the line terminators below 256. *)
Definition dot (c : ascii) : bool :=
  let n := code c in negb ((n =? 10) || (n =? 13)).

(** The regex class [[\s\S]]: every code unit. *)
Definition any (_ : ascii) : bool := true.

(** [toLowerCase] on one code unit: A-Z, and the Latin-1 capitals
    U+00C0..U+00DE without the multiplication sign U+00D7. *)
Definition lower_char (c : ascii) : ascii :=
  let n := code c in
  if ((65 <=? n) && (n <=? 90)) || ((192 <=? n) && (n <=? 222) && negb (n =? 215))
  then ascii_of_nat (n + 32) else c.

Definition toLowerCase (s : str) : str := map lower_char s.

(** [Canonicalize] of a regex with the [i] flag and without the [u] flag:
    the upper case of the code unit when that is one code unit, and never
    an ASCII result for a non-ASCII input.  Below 256 this maps a-z and
    U+00E0..U+00FE (without the division sign U+00F7) to their capitals.
    The capitals of U+00B5 and U+00FF lie above 255 and are the capital of
    no other code unit below 256, and the capital of U+00DF is two code
    units: the three are kept, which leaves the comparison
    of two canonical forms unchanged. *)
Definition canonicalize (c : ascii) : ascii :=
  let n := code c in
  if ((97 <=? n) && (n <=? 122)) || ((224 <=? n) && (n <=? 254) && negb (n =? 247))
  then ascii_of_nat (n - 32) else c.

(** Comparison of a pattern character with an input character. *)
Definition same (a b : ascii) : bool := Ascii.eqb a b.
Definition same_i (a b : ascii) : bool :=
  Ascii.eqb (canonicalize a) (canonicalize b).

(** ** [trim] *)

Fixpoint trimStart (s : str) : str :=
  match s with
  | c :: s' => if is_space c then trimStart s' else s
  | [] => []
  end.

Definition trimEnd (s : str) : str := rev (trimStart (rev s)).

Definition trim (s : str) : str := trimEnd (trimStart s).

(** ** Literals in a string: [indexOf] and the literal parts of a regex *)

(** Match the literal [p] at the head of [s], comparing a character of
    [p] with a character of [s] by [eqc]; the rest of [s] behind it. *)
Fixpoint strip (eqc : ascii -> ascii -> bool) (p s : str) : option str :=
  match p, s with
  | [], _ => Some s
  | a :: p', b :: s' => if eqc a b then strip eqc p' s' else None
  | _ :: _, [] => None
  end.

(** The least index at which [p] matches. *)
Fixpoint find (eqc : ascii -> ascii -> bool) (p s : str) : option nat :=
  match strip eqc p s with
  | Some _ => Some 0
  | None =>
      match s with
      | [] => None
      | _ :: s' => option_map S (find eqc p s')
      end
  end.

Definition starts_with (p s : str) : bool :=
  match strip same p s with Some _ => true | None => false end.

(** [s.indexOf(p)], [None] for -1. *)
Definition indexOf (p s : str) : option nat := find same p s.

(** ** Global replacement of a literal: [s.replace(/p/g, r)]

    [p] is a non-empty literal and [r] holds no [$].  The scan goes from
    left to right; after a match it resumes behind the match, which
    [skip] counts down. *)
Fixpoint replace_from (p r : str) (skip : nat) (s : str) : str :=
  match s with
  | [] => []
  | c :: s' =>
      match skip with
      | S k => replace_from p r k s'
      | O => if starts_with p s
             then r ++ replace_from p r (length p - 1) s'
             else c :: replace_from p r 0 s'
      end
  end.

Definition replaceAll (p r s : str) : str := replace_from p r 0 s.

End Str.
Import Str.

(* ================================================================== *)
(** * Escaping primitives *)
(* ================================================================== *)

Definition amp : ascii := "&"%char.
Definition lt_ : ascii := "<"%char.
Definition gt_ : ascii := ">"%char.
Definition quot : ascii := Eval cbv in ascii_of_nat 34.
Definition apos : ascii := "'"%char.

Definition e_amp : str := Eval cbv in lit "&amp;".
Definition e_lt : str := Eval cbv in lit "&lt;".
Definition e_gt : str := Eval cbv in lit "&gt;".
Definition e_quot : str := Eval cbv in lit "&quot;".
Definition e_apos : str := Eval cbv in lit "&apos;".

(** [escapeXml] on a string; the source maps [null] and [undefined] to the
    empty string first, see [escapeXml_opt]. *)
Definition escapeXml (s : str) : str :=
  replaceAll [apos] e_apos
    (replaceAll [quot] e_quot
      (replaceAll [gt_] e_gt
        (replaceAll [lt_] e_lt
          (replaceAll [amp] e_amp s)))).

Definition escapeXml_opt (s : option str) : str :=
  match s with
  | None => []
  | Some s => escapeXml s
  end.

Definition unescapeXml (s : str) : str :=
  replaceAll e_amp [amp]
    (replaceAll e_lt [lt_]
      (replaceAll e_gt [gt_]
        (replaceAll e_quot [quot]
          (replaceAll e_apos [apos] s)))).

(* ================================================================== *)
(** * The regular expressions of the module *)
(* ================================================================== *)

(** Every regular expression of the source has the shape
    [open(X*?)close]: two literals around a lazily repeated one-character
    class [X], which is [[\s\S]] or [.]; the flag [i] changes how a
    pattern character is compared with an input character.  [Regex]
    follows the backtracking matcher of ECMAScript on that shape. *)
Module Regex.
Section Pattern.

Variable cls : ascii -> bool.
Variable eqc : ascii -> ascii -> bool.
Variables open close : str.

(** [(X*?)close] at the head of [s]: the closing literal is tried first,
    and one more [X] is taken only when it fails.  The capture and the
    rest behind the closing literal. *)
Fixpoint lazy_until (s : str) : option (str * str) :=
  match strip eqc close s with
  | Some rest => Some ([], rest)
  | None =>
      match s with
      | [] => None
      | c :: s' =>
          if cls c
          then match lazy_until s' with
               | Some (cap, rest) => Some (c :: cap, rest)
               | None => None
               end
          else None
      end
  end.

(** The whole pattern at the head of [s]. *)
Definition match_here (s : str) : option (str * str) :=
  match strip eqc open s with
  | Some r => lazy_until r
  | None => None
  end.

(** [RegExp.prototype.exec] from index 0: the leftmost position at which
    the pattern matches.  The text before the match, the capture, and the
    text behind the match. *)
Fixpoint exec (s : str) : option (str * str * str) :=
  match match_here s with
  | Some (cap, rest) => Some ([], cap, rest)
  | None =>
      match s with
      | [] => None
      | c :: s' =>
          match exec s' with
          | Some (pre, cap, rest) => Some (c :: pre, cap, rest)
          | None => None
          end
      end
  end.

(** [s.matchAll(re)] with the flag [g]: the captures of the successive
    matches, each search starting behind the previous match.  A match
    holds both literals, so the rest gets shorter and [length s] rounds
    are enough ([match_all_fuel_enough]). *)
Fixpoint match_all_fuel (fuel : nat) (s : str) : list str :=
  match fuel with
  | O => []
  | S n =>
      match exec s with
      | Some (_, cap, rest) => cap :: match_all_fuel n rest
      | None => []
      end
  end.

Definition match_all (s : str) : list str := match_all_fuel (S (length s)) s.

End Pattern.
End Regex.

Definition tag_open (tagName : str) : str := [lt_] ++ tagName ++ [gt_].
Definition tag_close (tagName : str) : str := [lt_; "/"%char] ++ tagName ++ [gt_].

Definition t_implemented_features : str := Eval cbv in lit "implemented_features".
Definition t_feature : str := Eval cbv in lit "feature".
Definition t_name : str := Eval cbv in lit "name".
Definition t_description : str := Eval cbv in lit "description".
Definition t_file_locations : str := Eval cbv in lit "file_locations".
Definition t_location : str := Eval cbv in lit "location".

(** [new RegExp(`<${tagName}>([\\s\\S]*?)<\\/${tagName}>`, 'i')]; the
    tag names the module passes hold no regex metacharacter, so the
    interpolated name is a literal. *)
Definition extractXmlSection (xmlContent tagName : str) : option str :=
  match Regex.exec any same_i (tag_open tagName) (tag_close tagName) xmlContent with
  | Some (_, cap, _) => Some cap
  | None => None
  end.

(** [new RegExp(`<${tagName}>(.*?)<\\/${tagName}>`, 'g')] and [matchAll]. *)
Definition extractXmlElements (xmlContent tagName : str) : list str :=
  map (fun m => unescapeXml (trim m))
      (Regex.match_all dot same (tag_open tagName) (tag_close tagName) xmlContent).

(* ================================================================== *)
(** * Features *)
(* ================================================================== *)

(** [interface ImplementedFeature]; an absent [file_locations] key and one
    set to [undefined] are both [None]. *)
Record ImplementedFeature : Type := mkFeature {
  name : str;
  description : str;
  file_locations : option (list str)
}.

(** The body of the loop of [extractImplementedFeatures] on the capture of
    one [<feature>] block: [None] when the block is skipped.  A JavaScript
    string is falsy exactly when it is empty. *)
Definition parse_feature (featureContent : str) : option ImplementedFeature :=
  let name :=
    match Regex.exec dot same (tag_open t_name) (tag_close t_name) featureContent with
    | Some (_, m, _) => unescapeXml (trim m)
    | None => []
    end in
  let description :=
    match Regex.exec dot same (tag_open t_description) (tag_close t_description)
            featureContent with
    | Some (_, m, _) => unescapeXml (trim m)
    | None => []
    end in
  let locationsSection := extractXmlSection featureContent t_file_locations in
  let file_locations :=
    match locationsSection with
    | None | Some [] => None
    | Some sec => Some (extractXmlElements sec t_location)
    end in
  match name with
  | [] => None
  | _ :: _ =>
      Some (mkFeature name description
              match file_locations with
              | Some ((_ :: _) as l) => Some l
              | _ => None
              end)
  end.

Fixpoint filter_map {A B : Type} (f : A -> option B) (l : list A) : list B :=
  match l with
  | [] => []
  | x :: l' =>
      match f x with
      | Some y => y :: filter_map f l'
      | None => filter_map f l'
      end
  end.

Definition extractImplementedFeatures (specContent : str) : list ImplementedFeature :=
  match extractXmlSection specContent t_implemented_features with
  | None | Some [] => []
  | Some implementedSection =>
      filter_map parse_feature
        (Regex.match_all any same (tag_open t_feature) (tag_close t_feature)
           implementedSection)
  end.

Definition extractImplementedFeatureNames (specContent : str) : list str :=
  map name (extractImplementedFeatures specContent).

(** ** Generation *)

Definition nl : str := ["010"%char].

(** [Array.prototype.join]. *)
Fixpoint join (sep : str) (l : list str) : str :=
  match l with
  | [] => []
  | [x] => x
  | x :: l' => x ++ sep ++ join sep l'
  end.

Definition location_line (i4 loc : str) : str :=
  i4 ++ tag_open t_location ++ escapeXml loc ++ tag_close t_location.

Definition featureToXml (feature : ImplementedFeature) (indent : str) : str :=
  let i2 := indent ++ indent in
  let i3 := indent ++ indent ++ indent in
  let i4 := indent ++ indent ++ indent ++ indent in
  let xml :=
    i2 ++ tag_open t_feature ++ nl ++
    i3 ++ tag_open t_name ++ escapeXml (name feature) ++ tag_close t_name ++ nl ++
    i3 ++ tag_open t_description ++ escapeXml (description feature)
       ++ tag_close t_description in
  let xml :=
    match file_locations feature with
    | Some ((_ :: _) as locs) =>
        xml ++ nl ++
        i3 ++ tag_open t_file_locations ++ nl ++
        join nl (map (location_line i4) locs) ++ nl ++
        i3 ++ tag_close t_file_locations
    | _ => xml
    end in
  xml ++ nl ++ i2 ++ tag_close t_feature.

Definition featuresToXml (features : list ImplementedFeature) (indent : str) : str :=
  join nl (map (fun f => featureToXml f indent) features).

(** ** [String.prototype.replace] with a replacement string

    [GetSubstitution] for a pattern without capture groups: [$$] is a
    dollar, [$&] the matched text, [$`] the text before the match and
    [$'] the text behind it; a dollar before anything else, a digit
    included, stands for itself. *)
Definition dollar : ascii := "$"%char.

Fixpoint get_substitution (matched before after r : str) : str :=
  match r with
  | [] => []
  | c :: r1 =>
      if Ascii.eqb c dollar then
        match r1 with
        | [] => [c]
        | d :: r2 =>
            if Ascii.eqb d dollar then dollar :: get_substitution matched before after r2
            else if Ascii.eqb d amp then matched ++ get_substitution matched before after r2
            else if Ascii.eqb d "`"%char then before ++ get_substitution matched before after r2
            else if Ascii.eqb d apos then after ++ get_substitution matched before after r2
            else c :: get_substitution matched before after r1
        end
      else c :: get_substitution matched before after r1
  end.

(** ** The section writer *)

Definition indent2 : str := Eval cbv in lit "  ".
Definition sec_open : str := Eval cbv in tag_open t_implemented_features.
Definition sec_close : str := Eval cbv in tag_close t_implemented_features.
Definition coreCapabilitiesEnd : str := Eval cbv in lit "</core_capabilities>".
Definition projectSpecEnd : str := Eval cbv in lit "</project_specification>".

Definition newSection (newFeatures : list ImplementedFeature) : str :=
  sec_open ++ nl ++ featuresToXml newFeatures indent2 ++ nl ++ indent2 ++ sec_close.

(** [/<implemented_features>[\s\S]*?<\/implemented_features>/]: neither
    flag nor group.  The comparison is exact, so the matched text is the
    two literals around the lazily matched body. *)
Definition sectionRegex_exec (s : str) : option (str * str * str) :=
  Regex.exec any same sec_open sec_close s.

Definition sectionRegex_test (s : str) : bool :=
  match sectionRegex_exec s with Some _ => true | None => false end.

Definition updateImplementedFeaturesSection
    (specContent : str) (newFeatures : list ImplementedFeature) : str :=
  let newSection := newSection newFeatures in
  match sectionRegex_exec specContent with
  | Some (before, body, after) =>
      before
      ++ get_substitution (sec_open ++ body ++ sec_close) before after newSection
      ++ after
  | None =>
      match indexOf coreCapabilitiesEnd specContent with
      | Some insertIndex =>
          let insertPosition := insertIndex + length coreCapabilitiesEnd in
          firstn insertPosition specContent ++ nl ++ nl ++ indent2 ++ newSection
          ++ skipn insertPosition specContent
      | None =>
          match indexOf projectSpecEnd specContent with
          | Some fallbackIndex =>
              firstn fallbackIndex specContent ++ indent2 ++ newSection ++ nl
              ++ skipn fallbackIndex specContent
          | None => specContent
          end
      end
  end.

(** ** The CRUD wrappers *)

Definition same_name (a b : str) : bool := Str.eqb (toLowerCase a) (toLowerCase b).

Definition addImplementedFeature (specContent : str) (newFeature : ImplementedFeature) : str :=
  let existingFeatures := extractImplementedFeatures specContent in
  let isDuplicate :=
    existsb (fun f => same_name (name f) (name newFeature)) existingFeatures in
  if isDuplicate then specContent
  else updateImplementedFeaturesSection specContent (existingFeatures ++ [newFeature]).

Definition removeImplementedFeature (specContent featureName : str) : str :=
  let existingFeatures := extractImplementedFeatures specContent in
  let updatedFeatures :=
    filter (fun f => negb (same_name (name f) featureName)) existingFeatures in
  if length updatedFeatures =? length existingFeatures then specContent
  else updateImplementedFeaturesSection specContent updatedFeatures.

(** [Partial<ImplementedFeature>].  [None] is a key that is absent.  For
    [name] the source reads [updates.name ?? f.name], so an [undefined]
    name counts as absent; for [file_locations] a key that is present and
    [undefined] is [Some None], and the spread writes it over the old
    list.  A supplied [description] is a string. *)
Record FeatureUpdate : Type := mkUpdate {
  u_name : option str;
  u_description : option str;
  u_file_locations : option (option (list str))
}.

(** [{ ...f, ...updates, name: updates.name ?? f.name }] *)
Definition merge_update (f : ImplementedFeature) (updates : FeatureUpdate) : ImplementedFeature :=
  mkFeature
    (match u_name updates with Some n => n | None => name f end)
    (match u_description updates with Some d => d | None => description f end)
    (match u_file_locations updates with Some l => l | None => file_locations f end).

Definition update_one (featureName : str) (updates : FeatureUpdate)
    (f : ImplementedFeature) : ImplementedFeature :=
  if same_name (name f) featureName then merge_update f updates else f.

Definition updateImplementedFeature
    (specContent featureName : str) (updates : FeatureUpdate) : str :=
  let existingFeatures := extractImplementedFeatures specContent in
  let found := existsb (fun f => same_name (name f) featureName) existingFeatures in
  let updatedFeatures := map (update_one featureName updates) existingFeatures in
  if found then updateImplementedFeaturesSection specContent updatedFeatures
  else specContent.

Definition hasImplementedFeature (specContent featureName : str) : bool :=
  existsb (fun f => same_name (name f) featureName)
          (extractImplementedFeatures specContent).

(** ** Conversions to and from [SpecOutput] *)

(** Modelled from the spec: the element type of
    [SpecOutput['implemented_features']], declared in [@automaker/types].
    The spec calls it the structured feature record shared with the
    spec-output contract, with the same three fields, and both converters
    read exactly [name], [description] and [file_locations] from it. *)
Record SpecOutputFeature : Type := mkSpecFeature {
  so_name : str;
  so_description : str;
  so_file_locations : option (list str)
}.

Definition nonempty_only (l : option (list str)) : option (list str) :=
  match l with
  | Some ((_ :: _) as locs) => Some locs
  | _ => None
  end.

Definition toSpecOutputFeatures (features : list ImplementedFeature) : list SpecOutputFeature :=
  map (fun f => mkSpecFeature (name f) (description f) (nonempty_only (file_locations f)))
      features.

Definition fromSpecOutputFeatures (specFeatures : list SpecOutputFeature) : list ImplementedFeature :=
  map (fun f => mkFeature (so_name f) (so_description f) (nonempty_only (so_file_locations f)))
      specFeatures.

(* ================================================================== *)
(** * The status probe of the command-line client: [getClaudeStatus] *)
(* ================================================================== *)

(** [getClaudeStatus] is an [async] function that asks the operating
    system, the file system and the key store of the server, and returns
    a record.  The embedding takes what it asks for as an argument: a
    [World] gives the answer to every question the function can ask, as
    it is while the function runs.  A promise that is rejected and a call
    that throws are [None]; the result of the function is [None] when
    its promise is rejected.  Strings are sequences of code units below
    256, as in the rest of the file. *)
Module CliStatus.

(** What the function uses of JavaScript and of Node without it being
    part of the module: the values [JSON.parse] and [getApiKey] return,
    seen through the three operations the function applies to them, and
    [path.join]. *)
Record Runtime : Type := {
  value : Type;
  (** [ToBoolean]: the value counts as true in a condition. *)
  truthy : value -> bool;
  (** [v.key]; [None] when the access throws, as it does on [null]. *)
  prop : value -> str -> option value;
  (** [v > 0]. *)
  positive : value -> bool;
  (** [JSON.parse(text)]; [None] when it throws. *)
  JSON_parse : str -> option value;
  (** [path.join(...segments)]. *)
  path_join : list str -> str
}.

Record World (R : Runtime) : Type := {
  (** [process.platform] *)
  platform : str;
  (** [execAsync(command)]: the standard output when the command
      succeeds. *)
  execAsync : str -> option str;
  (** [os.homedir()] *)
  homedir : option str;
  (** [fs.access(path)] is fulfilled. *)
  access : str -> bool;
  (** [fs.readFile(path, "utf-8")] *)
  readFile : str -> option str;
  (** [fs.readdir(path)] *)
  readdir : str -> option (list str);
  (** [getApiKey(provider)], imported from [./common.js] and taken to
      return a value; the function only looks whether it is truthy. *)
  getApiKey : str -> value R;
  (** [process.env.ANTHROPIC_API_KEY]; [None] when it is not set. *)
  env_ANTHROPIC_API_KEY : option str
}.

Arguments platform {R} _.
Arguments execAsync {R} _ _.
Arguments homedir {R} _.
Arguments access {R} _ _.
Arguments readFile {R} _ _.
Arguments readdir {R} _ _.
Arguments getApiKey {R} _ _.
Arguments env_ANTHROPIC_API_KEY {R} _.

(** The [auth] object of the result; its field [method] is
    [auth_method] here, as the result has a [method] of its own. *)
Record Auth : Type := mkAuth {
  authenticated : bool;
  auth_method : str;
  hasCredentialsFile : bool;
  hasToken : bool;
  hasStoredOAuthToken : bool;
  hasStoredApiKey : bool;
  hasEnvApiKey : bool;
  oauthTokenValid : bool;
  apiKeyValid : bool;
  hasCliAuth : bool;
  hasRecentActivity : bool
}.

(** Assignments to one field of [auth]. *)
Definition set_authenticated (v : bool) (a : Auth) : Auth :=
  mkAuth v (auth_method a) (hasCredentialsFile a) (hasToken a) (hasStoredOAuthToken a)
    (hasStoredApiKey a) (hasEnvApiKey a) (oauthTokenValid a) (apiKeyValid a)
    (hasCliAuth a) (hasRecentActivity a).
Definition set_method (v : str) (a : Auth) : Auth :=
  mkAuth (authenticated a) v (hasCredentialsFile a) (hasToken a) (hasStoredOAuthToken a)
    (hasStoredApiKey a) (hasEnvApiKey a) (oauthTokenValid a) (apiKeyValid a)
    (hasCliAuth a) (hasRecentActivity a).
Definition set_hasCredentialsFile (v : bool) (a : Auth) : Auth :=
  mkAuth (authenticated a) (auth_method a) v (hasToken a) (hasStoredOAuthToken a)
    (hasStoredApiKey a) (hasEnvApiKey a) (oauthTokenValid a) (apiKeyValid a)
    (hasCliAuth a) (hasRecentActivity a).
Definition set_hasStoredOAuthToken (v : bool) (a : Auth) : Auth :=
  mkAuth (authenticated a) (auth_method a) (hasCredentialsFile a) (hasToken a) v
    (hasStoredApiKey a) (hasEnvApiKey a) (oauthTokenValid a) (apiKeyValid a)
    (hasCliAuth a) (hasRecentActivity a).
Definition set_oauthTokenValid (v : bool) (a : Auth) : Auth :=
  mkAuth (authenticated a) (auth_method a) (hasCredentialsFile a) (hasToken a)
    (hasStoredOAuthToken a) (hasStoredApiKey a) (hasEnvApiKey a) v (apiKeyValid a)
    (hasCliAuth a) (hasRecentActivity a).
Definition set_apiKeyValid (v : bool) (a : Auth) : Auth :=
  mkAuth (authenticated a) (auth_method a) (hasCredentialsFile a) (hasToken a)
    (hasStoredOAuthToken a) (hasStoredApiKey a) (hasEnvApiKey a) (oauthTokenValid a) v
    (hasCliAuth a) (hasRecentActivity a).
Definition set_hasCliAuth (v : bool) (a : Auth) : Auth :=
  mkAuth (authenticated a) (auth_method a) (hasCredentialsFile a) (hasToken a)
    (hasStoredOAuthToken a) (hasStoredApiKey a) (hasEnvApiKey a) (oauthTokenValid a)
    (apiKeyValid a) v (hasRecentActivity a).
Definition set_hasRecentActivity (v : bool) (a : Auth) : Auth :=
  mkAuth (authenticated a) (auth_method a) (hasCredentialsFile a) (hasToken a)
    (hasStoredOAuthToken a) (hasStoredApiKey a) (hasEnvApiKey a) (oauthTokenValid a)
    (apiKeyValid a) (hasCliAuth a) v.

(** The object the function returns; [path] holds [cliPath]. *)
Record ClaudeStatus : Type := mkStatus {
  status : str;
  installed : bool;
  method : str;
  version : str;
  path : str;
  auth : Auth
}.

(** The four variables of the first part: [installed], [version],
    [cliPath] and [method]. *)
Record Cli : Type := mkCli {
  cli_installed : bool;
  cli_version : str;
  cliPath : str;
  cli_method : str
}.

Definition LF : ascii := "010"%char.
Definition CR : ascii := "013"%char.

(** [s.split(/\r?\n/)[0]]: the text before the first line break, which
    is a line feed or a carriage return with a line feed behind it. *)
Fixpoint first_line (s : str) : str :=
  match s with
  | [] => []
  | c :: s' =>
      if Ascii.eqb c LF then []
      else if Ascii.eqb c CR
           then match s' with
                | d :: _ => if Ascii.eqb d LF then [] else c :: first_line s'
                | [] => [c]
                end
           else c :: first_line s'
  end.

(** A string in a condition: true when it is not empty. *)
Definition nonempty (s : str) : bool :=
  match s with [] => false | _ :: _ => true end.

Section Probe.

Context {R : Runtime}.
Variable w : World R.

Definition isWindows : bool := Str.eqb (platform w) (lit "win32").

(** [try { const { stdout: versionOut } = await execAsync(command);
    version = versionOut.trim(); } catch { }] on [version = ""]. *)
Definition version_from (command : str) : str :=
  match execAsync w command with
  | Some versionOut => trim versionOut
  | None => []
  end.

Definition findCommand : str :=
  if isWindows then lit "where claude" else lit "which claude".

Definition commonPaths (home : str) : list str :=
  if isWindows
  then [ path_join R [home; lit ".local"; lit "bin"; lit "claude.exe"];
         path_join R [home; lit "AppData"; lit "Roaming"; lit "npm"; lit "claude.cmd"];
         path_join R [home; lit "AppData"; lit "Roaming"; lit "npm"; lit "claude"];
         path_join R [home; lit ".npm-global"; lit "bin"; lit "claude.cmd"];
         path_join R [home; lit ".npm-global"; lit "bin"; lit "claude"] ]
  else [ path_join R [home; lit ".local"; lit "bin"; lit "claude"];
         path_join R [home; lit ".claude"; lit "local"; lit "claude"];
         lit "/usr/local/bin/claude";
         path_join R [home; lit ".npm-global"; lit "bin"; lit "claude"] ].

(** The loop over [commonPaths]: the first path that can be accessed is
    taken, and the loop is left. *)
Fixpoint probe_paths (paths : list str) : Cli :=
  match paths with
  | [] => mkCli false [] [] (lit "none")
  | p :: paths' =>
      if access w p
      then mkCli true (version_from ([quot] ++ p ++ [quot] ++ lit " --version")) p
                 (lit "local")
      else probe_paths paths'
  end.

(** The first [try] and its [catch]. *)
Definition find_cli (home : str) : Cli :=
  match execAsync w findCommand with
  | Some stdout =>
      mkCli true (version_from (lit "claude --version")) (first_line (trim stdout))
            (lit "path")
  | None => probe_paths (commonPaths home)
  end.

(** The initial [auth] object. *)
Definition hasEnv : bool :=
  match env_ANTHROPIC_API_KEY w with
  | Some key => nonempty key
  | None => false
  end.

Definition initial_auth : Auth :=
  mkAuth false (lit "none") false false
    (truthy R (getApiKey w (lit "anthropic_oauth_token")))
    (truthy R (getApiKey w (lit "anthropic")))
    hasEnv false false false false.

(** The assignments of the two places that find the client in use. *)
Definition cli_authenticated (a : Auth) : Auth :=
  set_method (lit "cli_authenticated") (set_authenticated true (set_hasCliAuth true a)).

(** [stats.dailyActivity && stats.dailyActivity.length > 0] on the
    content of [stats-cache.json]; [false] also when reading, parsing or
    an access throws, which the [catch] swallows before any assignment. *)
Definition has_activity (claudeDir : str) : bool :=
  match readFile w (path_join R [claudeDir; lit "stats-cache.json"]) with
  | None => false
  | Some statsContent =>
      match JSON_parse R statsContent with
      | None => false
      | Some stats =>
          match prop R stats (lit "dailyActivity") with
          | None => false
          | Some dailyActivity =>
              if truthy R dailyActivity
              then match prop R dailyActivity (lit "length") with
                   | Some n => positive R n
                   | None => false
                   end
              else false
          end
      end
  end.

Definition check_stats (claudeDir : str) (a : Auth) : Auth :=
  if has_activity claudeDir
  then cli_authenticated (set_hasRecentActivity true a)
  else a.

(** [settings.json] and, when the client is not known to be in use, the
    [projects] directory. *)
Definition check_settings (claudeDir : str) (a : Auth) : Auth :=
  if access w (path_join R [claudeDir; lit "settings.json"])
  then if negb (hasCliAuth a)
       then match readdir w (path_join R [claudeDir; lit "projects"]) with
            | Some sessions => if 0 <? length sessions then cli_authenticated a else a
            | None => a
            end
       else a
  else a.

Definition oauth_from_file (a : Auth) : Auth :=
  set_method (lit "oauth_token")
    (set_authenticated true (set_oauthTokenValid true (set_hasStoredOAuthToken true a))).

Definition api_key_from_file (a : Auth) : Auth :=
  set_method (lit "api_key") (set_authenticated true (set_apiKeyValid true a)).

(** The loop over [credentialsPaths].  A path is left for the next one
    when reading or parsing throws, and also when an access to the parsed
    value throws, which happens after [hasCredentialsFile] is set; the
    loop is left after the first file that is read, parsed and looked
    at. *)
Fixpoint check_credentials (credentialsPaths : list str) (a : Auth) : Auth :=
  match credentialsPaths with
  | [] => a
  | credentialsPath :: rest =>
      match readFile w credentialsPath with
      | None => check_credentials rest a
      | Some credentialsContent =>
          match JSON_parse R credentialsContent with
          | None => check_credentials rest a
          | Some credentials =>
              let a := set_hasCredentialsFile true a in
              match prop R credentials (lit "oauth_token") with
              | None => check_credentials rest a
              | Some oauth_token =>
                  if truthy R oauth_token then oauth_from_file a
                  else
                    match prop R credentials (lit "access_token") with
                    | None => check_credentials rest a
                    | Some access_token =>
                        if truthy R access_token then oauth_from_file a
                        else
                          match prop R credentials (lit "api_key") with
                          | None => check_credentials rest a
                          | Some api_key =>
                              if truthy R api_key then api_key_from_file a else a
                          end
                    end
              end
          end
      end
  end.

Definition credentialsPaths (claudeDir : str) : list str :=
  [ path_join R [claudeDir; lit ".credentials.json"];
    path_join R [claudeDir; lit "credentials.json"] ].

(** The three last conditions: the key of the environment, then the two
    keys of the store. *)
Definition check_env (a : Auth) : Auth :=
  if hasEnvApiKey a
  then set_method (lit "api_key_env") (set_apiKeyValid true (set_authenticated true a))
  else a.

Definition check_stored_oauth (a : Auth) : Auth :=
  if negb (authenticated a) && truthy R (getApiKey w (lit "anthropic_oauth_token"))
  then set_method (lit "oauth_token") (set_oauthTokenValid true (set_authenticated true a))
  else a.

Definition check_stored_api_key (a : Auth) : Auth :=
  if negb (authenticated a) && truthy R (getApiKey w (lit "anthropic"))
  then set_method (lit "api_key") (set_apiKeyValid true (set_authenticated true a))
  else a.

Definition find_auth (home : str) : Auth :=
  let claudeDir := path_join R [home; lit ".claude"] in
  check_stored_api_key
    (check_stored_oauth
      (check_env
        (check_credentials (credentialsPaths claudeDir)
          (check_settings claudeDir
            (check_stats claudeDir initial_auth))))).

(** [os.homedir()] is called in the [catch] of the first part, and
    after the first part for [claudeDir], outside every [try]: when it
    throws, the promise is rejected. *)
Definition getClaudeStatus : option ClaudeStatus :=
  match homedir w with
  | None => None
  | Some home =>
      let cli := find_cli home in
      Some (mkStatus
              (if cli_installed cli then lit "installed" else lit "not_installed")
              (cli_installed cli) (cli_method cli) (cli_version cli) (cliPath cli)
              (find_auth home))
  end.

End Probe.

(** The file at [p] can be read and its content parsed. *)
Definition parsable {R : Runtime} (w : World R) (p : str) : bool :=
  match readFile w p with
  | Some content =>
      match JSON_parse R content with Some _ => true | None => false end
  | None => false
  end.

(** What the sequence of checks keeps true of the [auth] object. *)
Definition auth_ok (a : Auth) : Prop :=
  authenticated a = oauthTokenValid a || apiKeyValid a || hasCliAuth a
  /\ (authenticated a = true <-> auth_method a <> lit "none")
  /\ (hasRecentActivity a = true -> hasCliAuth a = true)
  /\ hasToken a = false
  /\ In (auth_method a)
        [lit "none"; lit "cli_authenticated"; lit "oauth_token"; lit "api_key";
         lit "api_key_env"].

(** ** Sample data

    A runtime and two machines.  The values are
    the absent value, a text, and an object that holds a text under each
    of its keys. *)
Inductive sample_value : Type :=
| Undefined
| Text (s : str)
| Object (keys : list str).

Definition sample_runtime : Runtime :=
  Build_Runtime sample_value
    (fun v => match v with Undefined => false | Text s => nonempty s | Object _ => true end)
    (fun v key =>
       match v with
       | Undefined => None
       | Text _ => Some Undefined
       | Object keys => Some (if existsb (Str.eqb key) keys then Text (lit "x") else Undefined)
       end)
    (fun _ => false)
    (fun text => if Str.eqb text (lit "{}") then Some (Object []) else None)
    (join (lit "/")).

(** The client is on the search path; an API key is in the store. *)
Definition sample_machine : World sample_runtime :=
  Build_World sample_runtime
    (lit "linux")
    (fun command =>
       if Str.eqb command (lit "which claude")
       then Some (lit "/usr/bin/claude" ++ [LF])
       else if Str.eqb command (lit "claude --version")
            then Some (lit "1.0.0" ++ [LF])
            else None)
    (Some (lit "/home/u"))
    (fun _ => false)
    (fun _ => None)
    (fun _ => None)
    (fun provider =>
       if Str.eqb provider (lit "anthropic") then Text (lit "sk") else Undefined)
    None.

(** The client is in a common place only; the key is in the environment. *)
Definition sample_machine_local : World sample_runtime :=
  Build_World sample_runtime
    (lit "linux")
    (fun _ => None)
    (Some (lit "/home/u"))
    (fun p => Str.eqb p (lit "/usr/local/bin/claude"))
    (fun _ => None)
    (fun _ => None)
    (fun _ => Undefined)
    (Some (lit "sk-env")).

(** The client is missing; a credentials file holds an empty object. *)
Definition sample_machine_file : World sample_runtime :=
  Build_World sample_runtime
    (lit "linux")
    (fun _ => None)
    (Some (lit "/home/u"))
    (fun _ => false)
    (fun p => if Str.eqb p (lit "/home/u/.claude/.credentials.json")
              then Some (lit "{}") else None)
    (fun _ => None)
    (fun _ => Undefined)
    None.

End CliStatus.

(* ================================================================== *)
(** * Notions used in the statements and proofs *)
(* ================================================================== *)

(** ** Escaping, character by character *)

(** The image of one character after the first [n] replacements of
    [escapeXml], which are also what is left before the last [n]
    replacements of [unescapeXml]. *)
Definition img (n : nat) (c : ascii) : str :=
  if Ascii.eqb c amp then (if 1 <=? n then e_amp else [c])
  else if Ascii.eqb c lt_ then (if 2 <=? n then e_lt else [c])
  else if Ascii.eqb c gt_ then (if 3 <=? n then e_gt else [c])
  else if Ascii.eqb c quot then (if 4 <=? n then e_quot else [c])
  else if Ascii.eqb c apos then (if 5 <=? n then e_apos else [c])
  else [c].

Definition escape_others (s : str) : str :=
  replaceAll [apos] e_apos
    (replaceAll [quot] e_quot (replaceAll [gt_] e_gt (replaceAll [lt_] e_lt s))).

Definition unescape_others (s : str) : str :=
  replaceAll e_lt [lt_]
    (replaceAll e_gt [gt_] (replaceAll e_quot [quot] (replaceAll e_apos [apos] s))).

Definition reserved (c : ascii) : bool :=
  Ascii.eqb c amp || Ascii.eqb c lt_ || Ascii.eqb c gt_ || Ascii.eqb c quot
  || Ascii.eqb c apos.

(** ** Searching a text of which a prefix is known *)

(** Results of a search, moved behind a prefix that was skipped. *)
Definition shift (a : str) (r : option (str * str)) : option (str * str) :=
  match r with
  | Some (cap, rest) => Some (a ++ cap, rest)
  | None => None
  end.

Definition shift_pre (a : str) (r : option (str * str * str)) : option (str * str * str) :=
  match r with
  | Some (pre, cap, rest) => Some (a ++ pre, cap, rest)
  | None => None
  end.

(** [mismatch eqc p a]: the literal [p] fails at the head of [a] on a
    character of [a] itself, whatever follows [a]. *)
Fixpoint mismatch (eqc : ascii -> ascii -> bool) (p a : str) : bool :=
  match p, a with
  | x :: p', y :: a' => if eqc x y then mismatch eqc p' a' else true
  | _, _ => false
  end.

(** [free eqc p a]: no match of [p] starts inside [a], whatever follows. *)
Fixpoint free (eqc : ascii -> ascii -> bool) (p a : str) : bool :=
  match a with
  | [] => true
  | _ :: a' => mismatch eqc p a && free eqc p a'
  end.

(** ** Values that the writer and the parser carry unchanged *)

Definition no_dollar (s : str) : bool := forallb (fun c => negb (Ascii.eqb c dollar)) s.

(** A text that the writer and the parser carry unchanged: one line,
    nothing for [trim] to strip, and no dollar. *)
Definition clean (s : str) : bool :=
  forallb dot s && Str.eqb (trim s) s && no_dollar s.

Definition storable (f : ImplementedFeature) : bool :=
  match name f with [] => false | _ :: _ => true end
  && clean (name f) && clean (description f)
  && match file_locations f with
     | None => true
     | Some [] => false
     | Some locs => forallb clean locs
     end.

(** ** The generated text *)

Definition i2 : str := Eval cbv in indent2 ++ indent2.
Definition i3 : str := Eval cbv in indent2 ++ indent2 ++ indent2.
Definition i4 : str := Eval cbv in indent2 ++ indent2 ++ indent2 ++ indent2.
Definition f_open : str := Eval cbv in tag_open t_feature.
Definition f_close : str := Eval cbv in tag_close t_feature.
Definition n_open : str := Eval cbv in tag_open t_name.
Definition n_close : str := Eval cbv in tag_close t_name.
Definition d_open : str := Eval cbv in tag_open t_description.
Definition d_close : str := Eval cbv in tag_close t_description.
Definition fl_open : str := Eval cbv in tag_open t_file_locations.
Definition fl_close : str := Eval cbv in tag_close t_file_locations.
Definition l_open : str := Eval cbv in tag_open t_location.
Definition l_close : str := Eval cbv in tag_close t_location.

(** The generated text, cut at the places the parser looks at. *)
Definition loc_lines (locs : list str) : str :=
  concat (map (fun loc => nl ++ i4 ++ l_open ++ escapeXml loc ++ l_close) locs).

Definition locs_xml (l : option (list str)) : str :=
  match l with
  | Some ((_ :: _) as locs) => nl ++ i3 ++ fl_open ++ loc_lines locs ++ nl ++ i3 ++ fl_close
  | _ => []
  end.

Definition head_xml (f : ImplementedFeature) : str :=
  nl ++ i3 ++ n_open ++ escapeXml (name f) ++ n_close
  ++ nl ++ i3 ++ d_open ++ escapeXml (description f) ++ d_close.

Definition feature_content (f : ImplementedFeature) : str :=
  head_xml f ++ locs_xml (file_locations f) ++ nl ++ i2.

Definition feature_blocks (F : list ImplementedFeature) : str :=
  concat (map (fun f => nl ++ i2 ++ f_open ++ feature_content f ++ f_close) F).

(** ** What the parser returns *)

(** No field of the feature holds a dollar. *)
Definition dollar_free (f : ImplementedFeature) : bool :=
  no_dollar (name f) && no_dollar (description f)
  && match file_locations f with
     | Some locs => forallb no_dollar locs
     | None => true
     end.

(** The last character of a non-empty text is no white space. *)
Fixpoint ends_ok (s : str) : Prop :=
  match s with
  | [] => True
  | [c] => is_space c = false
  | _ :: s' => ends_ok s'
  end.

Definition starts_ok (s : str) : Prop :=
  match s with
  | [] => True
  | c :: _ => is_space c = false
  end.

Definition section_body (F : list ImplementedFeature) : str :=
  match F with
  | [] => nl
  | _ :: _ => feature_blocks F
  end ++ nl ++ indent2.

(** The literal pieces of a generated feature. *)
Definition frame_pieces : list str :=
  [nl; i2; i3; i4; n_open; n_close; d_open; d_close; fl_open; fl_close; l_open; l_close].

(** The two ways the module compares a pattern character. *)
Definition plain (eqc : ascii -> ascii -> bool) : Prop := eqc = same \/ eqc = same_i.

(** ** What the parser reads in what the writer wrote *)

(** A text comes back trimmed when it is on one line, and empty (the
    element is not found) when it is not. *)
Definition norm_text (s : str) : str := if forallb dot s then trim s else [].

(** The locations on one line come back, trimmed; the list is left out
    when none is left. *)
Definition norm_locs (l : option (list str)) : option (list str) :=
  match l with
  | Some locs =>
      match map trim (filter (forallb dot) locs) with
      | [] => None
      | (_ :: _) as locs' => Some locs'
      end
  | None => None
  end.

(** The record the parser reads in the block written for [f], and
    [None] when it drops the block for its empty name. *)
Definition read_record (f : ImplementedFeature) : ImplementedFeature :=
  mkFeature (norm_text (name f)) (norm_text (description f))
            (norm_locs (file_locations f)).

Definition read_back (f : ImplementedFeature) : option ImplementedFeature :=
  match norm_text (name f) with
  | [] => None
  | _ :: _ => Some (read_record f)
  end.

(** A name the parser reads as it is: not empty, on one line, with
    nothing for [trim] to strip. *)
Definition valid_name (n : str) : bool :=
  match n with [] => false | _ :: _ => true end
  && forallb dot n && Str.eqb (trim n) n.

(** ** Documents *)

(** The document holds a well-formed [implemented_features] section or
    none at all: the first opening tag the case-insensitive extractor can
    see, if there is one, is spelled in lower case and is closed by a
    lower-case closing tag, so that the writer's pattern matches there. *)
Definition well_formed_or_absent (d : str) : bool :=
  match find same_i sec_open d, find same sec_open d with
  | None, None => true
  | Some i, Some j => (i =? j) && sectionRegex_test d
  | _, _ => false
  end.

Definition is_some {A : Type} (o : option A) : bool :=
  match o with Some _ => true | None => false end.

(** One of the first three rules of the writer applies. *)
Definition has_place (d : str) : bool :=
  sectionRegex_test d || is_some (indexOf coreCapabilitiesEnd d)
  || is_some (indexOf projectSpecEnd d).

(** ** Lists of features and updates *)

(** No two features of the list have the same name up to letter case. *)
Fixpoint unique_names (F : list ImplementedFeature) : bool :=
  match F with
  | [] => true
  | f :: F' =>
      negb (existsb (fun g => same_name (name g) (name f)) F') && unique_names F'
  end.

(** A feature the parser finds under its name once it is written: the
    name is valid, and no field holds a dollar. *)
Definition writable (f : ImplementedFeature) : bool :=
  valid_name (name f) && dollar_free f.

(** The same for the values an update supplies: a supplied name is
    valid, and no supplied value holds a dollar. *)
Definition writable_update (u : FeatureUpdate) : bool :=
  match u_name u with Some n => valid_name n && no_dollar n | None => true end
  && match u_description u with Some d => no_dollar d | None => true end
  && match u_file_locations u with
     | Some (Some locs) => forallb no_dollar locs
     | _ => true
     end.

(** [f'] keeps the value [f] has for every field the update leaves out. *)
Definition preserved (u : FeatureUpdate) (f f' : ImplementedFeature) : Prop :=
  (u_name u = None -> name f' = name f)
  /\ (u_description u = None -> description f' = description f)
  /\ (u_file_locations u = None -> file_locations f' = file_locations f).

(** ** Occurrences of a literal, and the policy of the writer *)

(** The literal [p] occurs in [s] at index [k]. *)
Definition occurs_at (p s : str) (k : nat) : Prop := exists r, skipn k s = p ++ r.

Definition first_at (p s : str) (k : nat) : Prop :=
  occurs_at p s k /\ forall j, j < k -> ~ occurs_at p s j.

Definition absent (p s : str) : Prop := forall k, ~ occurs_at p s k.

Definition has_section (d : str) : Prop :=
  exists pre body post, d = pre ++ sec_open ++ body ++ sec_close ++ post.

(** The ordered policy of the writer, in the words of the specification:
    each rule applies only when the rules before it do not. *)
Inductive policy (d : str) (F : list ImplementedFeature) : str -> Prop :=
| rule_replace pre body post :
    d = pre ++ sec_open ++ body ++ sec_close ++ post ->
    first_at sec_open d (length pre) ->
    first_at sec_close (body ++ sec_close ++ post) (length body) ->
    policy d F
      (pre ++ get_substitution (sec_open ++ body ++ sec_close) pre post (newSection F)
           ++ post)
| rule_after_core i :
    ~ has_section d ->
    first_at coreCapabilitiesEnd d i ->
    policy d F
      (firstn (i + length coreCapabilitiesEnd) d ++ nl ++ nl ++ indent2 ++ newSection F
         ++ skipn (i + length coreCapabilitiesEnd) d)
| rule_before_project j :
    ~ has_section d -> absent coreCapabilitiesEnd d ->
    first_at projectSpecEnd d j ->
    policy d F (firstn j d ++ indent2 ++ newSection F ++ nl ++ skipn j d)
| rule_unchanged :
    ~ has_section d -> absent coreCapabilitiesEnd d -> absent projectSpecEnd d ->
    policy d F d.

(** ** Blocks and records *)

Definition absent_or_nonempty (l : option (list str)) : bool :=
  match l with Some [] => false | _ => true end.



(** ** Sections as the extractor sees them *)



(** ** Escaped text and tag names *)

(** The four characters that delimit markup and attribute values. *)
Definition markup (c : ascii) : bool :=
  Ascii.eqb c lt_ || Ascii.eqb c gt_ || Ascii.eqb c quot || Ascii.eqb c apos.

Definition entities : list str := [e_amp; e_lt; e_gt; e_quot; e_apos].

(** A tag name that [new RegExp] reads as a literal and that holds no
    markup of its own: ASCII letters, digits, [_], [-] and [:].  The
    extractors put the name into the pattern as it is, so a name with a
    regex metacharacter would be read as a pattern. *)
Definition tag_char (c : ascii) : bool :=
  let n := code c in
  ((65 <=? n) && (n <=? 90)) || ((97 <=? n) && (n <=? 122))
  || ((48 <=? n) && (n <=? 58)) || (n =? 95) || (n =? 45).

Definition tag_name_ok (tagName : str) : bool := forallb tag_char tagName.

(** The literal [p] matches in [s] at index [k], up to letter case. *)
Definition occurs_i (p s : str) (k : nat) : Prop := strip same_i p (skipn k s) <> None.

(** The elements a caller writes for [extractXmlElements] to read: each
    value escaped between the two tags, with [sep] before each element
    and at the end. *)
Definition elements_xml (sep tagName : str) (values : list str) : str :=
  concat (map (fun v => sep ++ tag_open tagName ++ escapeXml v ++ tag_close tagName) values)
  ++ sep.

(** A text the parser returns: on one line, with nothing for [trim] to
    strip. *)
Definition tidy (s : str) : Prop := forallb dot s = true /\ trim s = s.

(** ** Sample data *)

Definition sample_doc : str :=
  lit "<project_specification><core_capabilities>x</core_capabilities></project_specification>".

Definition sample_login : ImplementedFeature :=
  mkFeature (lit "Login") (lit "Email/password auth") None.

Definition sample_search : ImplementedFeature :=
  mkFeature (lit "A & B") (lit "x < y") (Some [lit "src/a.ts"; lit "src/b's.ts"]).

Definition sample_export : ImplementedFeature :=
  mkFeature (lit "Export") (lit "CSV <export>") None.

(** [sample_doc] with a section of two features. *)
Definition sample_doc2 : str :=
  Eval vm_compute in updateImplementedFeaturesSection sample_doc [sample_login; sample_search].

Definition sample_upper : str :=
  lit "<IMPLEMENTED_FEATURES><feature><name>a</name></feature></IMPLEMENTED_FEATURES><core_capabilities>x</core_capabilities>".

Definition sample_reserved : str := [amp; lt_; gt_; quot; apos; amp; amp; lt_; apos].

(** A list the writer does not carry unchanged: a name with white space
    around it, a description on two lines, and a feature with a blank name. *)
Definition sample_untidy : list ImplementedFeature :=
  [ mkFeature (lit " Login ") ("a"%char :: "010"%char :: [ "b"%char ])
      (Some [lit " src/a.ts"; "x"%char :: "010"%char :: [ "y"%char ]]);
    mkFeature (lit "   ") (lit "dropped") None;
    sample_export ].

(** A feature whose fields hold the replacement patterns of
    [String.prototype.replace]. *)
Definition sample_dollars : ImplementedFeature :=
  mkFeature (lit "Pay $& more") (lit "costs $$5, see $' and $`") (Some [lit "src/$1.ts"]).

(* ================================================================== *)
(** * Proofs *)
(* ================================================================== *)

(** * The round trip of the escaping primitives *)

Lemma replaceAll_single x r s :
  replaceAll [x] r s = flat_map (fun c => if Ascii.eqb x c then r else [c]) s.
Proof.
  unfold replaceAll. induction s as [|c s IH]; [reflexivity|].
  cbn [replace_from flat_map length Nat.sub]. unfold starts_with, same.
  cbn [strip]. destruct (Ascii.eqb x c); cbn; now rewrite IH.
Qed.

Lemma flat_map_flat_map (f g h : ascii -> str) s :
  (forall c, flat_map g (f c) = h c) ->
  flat_map g (flat_map f s) = flat_map h s.
Proof.
  intros H. induction s as [|c s IH]; [reflexivity|].
  cbn [flat_map]. now rewrite flat_map_app, H, IH.
Qed.

Lemma img0 s : flat_map (img 0) s = s.
Proof.
  induction s as [|c s IH]; [reflexivity|]. cbn [flat_map]. rewrite IH.
  unfold img; cbn. now repeat destruct (Ascii.eqb c _).
Qed.

(** Splitting on which of the five reserved characters [c] is. *)
Ltac split_char c :=
  unfold img;
  destruct (Ascii.eqb_spec c amp) as [->|?]; [reflexivity|];
  destruct (Ascii.eqb_spec c lt_) as [->|?]; [reflexivity|];
  destruct (Ascii.eqb_spec c gt_) as [->|?]; [reflexivity|];
  destruct (Ascii.eqb_spec c quot) as [->|?]; [reflexivity|];
  destruct (Ascii.eqb_spec c apos) as [->|?]; [reflexivity|].

Lemma neq_eqb (a b : ascii) : b <> a -> Ascii.eqb a b = false.
Proof. intros H. destruct (Ascii.eqb_spec a b); congruence. Qed.

Lemma escape_stage n x e :
  (forall c, flat_map (fun c => if Ascii.eqb x c then e else [c]) (img n c) = img (S n) c) ->
  forall s, replaceAll [x] e (flat_map (img n) s) = flat_map (img (S n)) s.
Proof. intros H s. rewrite replaceAll_single. now apply flat_map_flat_map. Qed.

Lemma escapeXml_img s : escapeXml s = flat_map (img 5) s.
Proof.
  unfold escapeXml. rewrite <- (img0 s) at 1.
  rewrite (@escape_stage 0 amp e_amp).
  2:{ intros c. split_char c. cbn [flat_map app]. now rewrite neq_eqb by assumption. }
  rewrite (@escape_stage 1 lt_ e_lt).
  2:{ intros c. split_char c. cbn [flat_map app]. now rewrite neq_eqb by assumption. }
  rewrite (@escape_stage 2 gt_ e_gt).
  2:{ intros c. split_char c. cbn [flat_map app]. now rewrite neq_eqb by assumption. }
  rewrite (@escape_stage 3 quot e_quot).
  2:{ intros c. split_char c. cbn [flat_map app]. now rewrite neq_eqb by assumption. }
  rewrite (@escape_stage 4 apos e_apos).
  2:{ intros c. split_char c. cbn [flat_map app]. now rewrite neq_eqb by assumption. }
  reflexivity.
Qed.

Lemma unescape_stage n p r :
  (forall c rest,
      replace_from p r 0 (img (S n) c ++ rest) = img n c ++ replace_from p r 0 rest) ->
  forall s, replaceAll p r (flat_map (img (S n)) s) = flat_map (img n) s.
Proof.
  intros H s. unfold replaceAll. induction s as [|c s IH]; [reflexivity|].
  cbn [flat_map]. now rewrite H, IH.
Qed.

Lemma starts_with_hd p a c s :
  hd_error p = Some a -> c <> a -> starts_with p (c :: s) = false.
Proof.
  destruct p as [|x p]; [discriminate|]. intros [= ->] H.
  unfold starts_with, same. cbn [strip]. now rewrite neq_eqb.
Qed.

Ltac stage_char c :=
  split_char c;
  cbn [app replace_from];
  rewrite (@starts_with_hd _ amp c) by (reflexivity || assumption); reflexivity.

Theorem unescapeXml_escapeXml s : unescapeXml (escapeXml s) = s.
Proof.
  rewrite escapeXml_img. unfold unescapeXml.
  rewrite (@unescape_stage 4 e_apos [apos]) by (intros c rest; stage_char c).
  rewrite (@unescape_stage 3 e_quot [quot]) by (intros c rest; stage_char c).
  rewrite (@unescape_stage 2 e_gt [gt_]) by (intros c rest; stage_char c).
  rewrite (@unescape_stage 1 e_lt [lt_]) by (intros c rest; stage_char c).
  rewrite (@unescape_stage 0 e_amp [amp]) by (intros c rest; stage_char c).
  apply img0.
Qed.

(** * Literals *)

Lemma strip_length eqc p s r :
  strip eqc p s = Some r -> length s = length p + length r.
Proof.
  revert s. induction p as [|a p IH]; intros s H; cbn in *.
  - now injection H as ->.
  - destruct s as [|b s]; [discriminate|]. destruct (eqc a b); [|discriminate].
    cbn. f_equal. now apply IH.
Qed.

Lemma same_refl c : same c c = true.
Proof. apply Ascii.eqb_refl. Qed.

Lemma same_i_refl c : same_i c c = true.
Proof. apply Ascii.eqb_refl. Qed.

Lemma strip_app_refl eqc p r :
  (forall c, eqc c c = true) -> strip eqc p (p ++ r) = Some r.
Proof. intros H. induction p as [|a p IH]; cbn; [reflexivity|]. now rewrite H. Qed.

Lemma strip_same p s r : strip same p s = Some r <-> s = p ++ r.
Proof.
  split.
  - revert s. induction p as [|a p IH]; intros s H; cbn in *.
    + now injection H as ->.
    + destruct s as [|b s]; [discriminate|]. unfold same in H at 1.
      destruct (Ascii.eqb_spec a b); [|discriminate]. subst. f_equal. now apply IH.
  - intros ->. apply strip_app_refl, same_refl.
Qed.

(** A literal is compared with the first [length p] characters only. *)
Lemma strip_long eqc p a x y :
  length p <= length a ->
  strip eqc p (a ++ x) = None -> strip eqc p (a ++ y) = None.
Proof.
  revert a. induction p as [|c p IH]; intros a Hl H; cbn in *; [discriminate|].
  destruct a as [|b a]; cbn in *; [lia|].
  destruct (eqc c b); [|reflexivity]. apply IH; [lia|assumption].
Qed.

(** Text put in the middle of a string creates no match in front of it
    when its first character is a character of the literal nowhere. *)
Lemma strip_insert eqc p a b w r :
  forallb (fun x => negb (eqc x w)) p = true ->
  strip eqc p (a ++ b) = None -> strip eqc p (a ++ w :: r) = None.
Proof.
  revert a. induction p as [|c p IH]; intros a Hp H; cbn in *; [discriminate|].
  apply andb_true_iff in Hp as [Hc Hp].
  destruct a as [|x a]; cbn in *.
  - apply negb_true_iff in Hc. now rewrite Hc.
  - destruct (eqc c x); [|reflexivity]. now apply IH.
Qed.

Lemma mismatch_strip eqc p a s : mismatch eqc p a = true -> strip eqc p (a ++ s) = None.
Proof.
  revert a. induction p as [|x p IH]; intros [|y a] H; cbn in *; try discriminate.
  destruct (eqc x y); [now apply IH|reflexivity].
Qed.

Lemma mismatch_app eqc p a b : mismatch eqc p a = true -> mismatch eqc p (a ++ b) = true.
Proof.
  revert a. induction p as [|x p IH]; intros [|y a] H; cbn in *; try discriminate.
  destruct (eqc x y); [now apply IH|reflexivity].
Qed.

Lemma free_app eqc p a b :
  free eqc p a = true -> free eqc p b = true -> free eqc p (a ++ b) = true.
Proof.
  intros Ha Hb. induction a as [|c a IH]; [assumption|].
  cbn [free] in Ha. apply andb_true_iff in Ha as [Hm Ha].
  change ((c :: a) ++ b) with (c :: (a ++ b)). cbn [free].
  rewrite (IH Ha), andb_true_r.
  change (c :: a ++ b) with ((c :: a) ++ b). now apply mismatch_app.
Qed.

(** Text without the first character of the literal is free of it. *)
Lemma free_head eqc p h x :
  hd_error p = Some h ->
  forallb (fun c => negb (eqc h c)) x = true -> free eqc p x = true.
Proof.
  destruct p as [|h' p]; [discriminate|]. intros [= ->] H.
  induction x as [|c x IH]; [reflexivity|]. cbn in *.
  apply andb_true_iff in H as [Hc Hx]. apply negb_true_iff in Hc.
  now rewrite Hc, IH.
Qed.

Lemma free_skipn eqc p a k s :
  free eqc p a = true -> k < length a -> strip eqc p (skipn k a ++ s) = None.
Proof.
  revert k. induction a as [|c a IH]; intros k H Hk; cbn in Hk; [lia|].
  cbn [free] in H. apply andb_true_iff in H as [Hm Ha].
  destruct k as [|k]; cbn [skipn].
  - now apply mismatch_strip.
  - apply IH; [assumption|lia].
Qed.

Lemma find_none eqc p s k :
  find eqc p s = None -> strip eqc p (skipn k s) = None.
Proof.
  revert k. induction s as [|c s IH]; intros k H; cbn [find] in H.
  - destruct (strip eqc p []) eqn:E; [discriminate|]. now destruct k.
  - destruct (strip eqc p (c :: s)) eqn:E; [discriminate|].
    destruct k as [|k]; [assumption|]. cbn [skipn]. apply IH.
    now destruct (find eqc p s).
Qed.

Lemma find_some eqc p s n :
  find eqc p s = Some n ->
  strip eqc p (skipn n s) <> None /\
  forall k, k < n -> strip eqc p (skipn k s) = None.
Proof.
  revert n. induction s as [|c s IH]; intros n H; cbn [find] in H.
  - destruct (strip eqc p []) eqn:E; [|discriminate]. injection H as <-.
    split; [cbn; congruence|lia].
  - destruct (strip eqc p (c :: s)) eqn:E.
    + injection H as <-. split; [cbn [skipn]; congruence|lia].
    + destruct (find eqc p s) as [m|] eqn:F; [|discriminate]. injection H as <-.
      destruct (IH m eq_refl) as [H1 H2]. split; [assumption|].
      intros [|k] Hk; [assumption|]. cbn [skipn]. apply H2. lia.
Qed.

Lemma find_first eqc p s n :
  strip eqc p (skipn n s) <> None ->
  (forall k, k < n -> strip eqc p (skipn k s) = None) ->
  find eqc p s = Some n.
Proof.
  revert n. induction s as [|c s IH]; intros n H1 H2.
  - cbn [find]. destruct n as [|n].
    + cbn [skipn] in H1. now destruct (strip eqc p []).
    + specialize (H2 0 ltac:(lia)). cbn [skipn] in *. congruence.
  - cbn [find]. destruct n as [|n].
    + cbn [skipn] in H1. now destruct (strip eqc p (c :: s)).
    + pose proof (H2 0 ltac:(lia)) as H0. cbn [skipn] in H0. rewrite H0.
      rewrite (IH n); [reflexivity|assumption|].
      intros k Hk. apply (H2 (S k)). lia.
Qed.

(** * The lazy body and the search *)

Section Pattern.

Variable cls : ascii -> bool.
Variable eqc : ascii -> ascii -> bool.
Variables open close : str.

Local Abbreviation lazy_until := (Regex.lazy_until cls eqc close).
Local Abbreviation match_here := (Regex.match_here cls eqc open close).
Local Abbreviation exec := (Regex.exec cls eqc open close).
Local Abbreviation match_all_fuel := (Regex.match_all_fuel cls eqc open close).
Local Abbreviation match_all := (Regex.match_all cls eqc open close).

Lemma lazy_here s rest : strip eqc close s = Some rest -> lazy_until s = Some ([], rest).
Proof. intros H. destruct s; cbn; now rewrite H. Qed.

Lemma lazy_step c s :
  strip eqc close (c :: s) = None -> cls c = true ->
  lazy_until (c :: s) = shift [c] (lazy_until s).
Proof.
  intros H Hc. cbn [Regex.lazy_until]. rewrite H, Hc.
  now destruct (Regex.lazy_until cls eqc close s) as [[? ?]|].
Qed.

Lemma shift_shift a b r : shift a (shift b r) = shift (a ++ b) r.
Proof. destruct r as [[? ?]|]; cbn; [now rewrite app_assoc|reflexivity]. Qed.

Lemma shift_pre_shift_pre a b r : shift_pre a (shift_pre b r) = shift_pre (a ++ b) r.
Proof. destruct r as [[[? ?] ?]|]; cbn; [now rewrite app_assoc|reflexivity]. Qed.

Lemma lazy_skip a s :
  free eqc close a = true -> forallb cls a = true ->
  lazy_until (a ++ s) = shift a (lazy_until s).
Proof.
  induction a as [|c a IH]; intros Hf Hc.
  - cbn [app]. now destruct (Regex.lazy_until cls eqc close s) as [[? ?]|].
  - cbn [free forallb] in *. apply andb_true_iff in Hf as [Hm Hf].
    apply andb_true_iff in Hc as [Hc Ha].
    change ((c :: a) ++ s) with (c :: (a ++ s)). rewrite lazy_step; trivial.
    + rewrite IH by assumption. now rewrite shift_shift.
    + change (c :: a ++ s) with ((c :: a) ++ s). now apply mismatch_strip.
Qed.

Lemma lazy_sound s cap rest :
  lazy_until s = Some (cap, rest) ->
  exists t, s = cap ++ t /\ strip eqc close t = Some rest /\ forallb cls cap = true
            /\ forall k, k < length cap -> strip eqc close (skipn k s) = None.
Proof.
  revert cap rest. induction s as [|c s IH]; intros cap rest H; cbn [Regex.lazy_until] in H.
  - destruct (strip eqc close []) eqn:E; [|discriminate]. injection H as <- <-.
    exists []. repeat split; trivial. cbn; lia.
  - destruct (strip eqc close (c :: s)) eqn:E.
    + injection H as <- <-. exists (c :: s). repeat split; trivial. cbn; lia.
    + destruct (cls c) eqn:Hc; [|discriminate].
      destruct (Regex.lazy_until cls eqc close s) as [[cap' rest']|] eqn:L; [|discriminate].
      injection H as <- <-. destruct (IH _ _ eq_refl) as (t & -> & Ht & Hcls & Hk).
      exists t. repeat split; trivial.
      * cbn. now rewrite Hc.
      * intros [|k] Hlt; [assumption|]. cbn [skipn]. apply Hk. cbn in Hlt. lia.
Qed.

Lemma exec_here s cap rest :
  match_here s = Some (cap, rest) -> exec s = Some ([], cap, rest).
Proof. intros H. destruct s; cbn [Regex.exec]; now rewrite H. Qed.

Lemma exec_step c s :
  match_here (c :: s) = None -> exec (c :: s) = shift_pre [c] (exec s).
Proof.
  intros H. cbn [Regex.exec]. rewrite H.
  now destruct (Regex.exec cls eqc open close s) as [[[? ?] ?]|].
Qed.

(** The search passes over a prefix at no position of which the pattern
    matches. *)
Lemma exec_skip_sem a s :
  (forall k, k < length a -> match_here (skipn k (a ++ s)) = None) ->
  exec (a ++ s) = shift_pre a (exec s).
Proof.
  induction a as [|c a IH]; intros H.
  - cbn [app]. now destruct (Regex.exec cls eqc open close s) as [[[? ?] ?]|].
  - change ((c :: a) ++ s) with (c :: (a ++ s)). rewrite exec_step.
    + rewrite IH; [now rewrite shift_pre_shift_pre|].
      intros k Hk. apply (H (S k)). cbn. lia.
    + apply (H 0). cbn. lia.
Qed.

Lemma match_here_no_open s : strip eqc open s = None -> match_here s = None.
Proof. unfold Regex.match_here. now intros ->. Qed.

Lemma exec_skip a s : free eqc open a = true -> exec (a ++ s) = shift_pre a (exec s).
Proof.
  intros H. apply exec_skip_sem. intros k Hk. apply match_here_no_open.
  rewrite skipn_app. replace (k - length a) with 0 by lia. cbn [skipn].
  now apply free_skipn.
Qed.

Lemma exec_sound s pre cap rest :
  exec s = Some (pre, cap, rest) ->
  exists t, s = pre ++ t /\ match_here t = Some (cap, rest)
            /\ forall k, k < length pre -> match_here (skipn k s) = None.
Proof.
  revert pre. induction s as [|c s IH]; intros pre H; cbn [Regex.exec] in H.
  - destruct (Regex.match_here cls eqc open close []) as [[? ?]|] eqn:E; [|discriminate].
    injection H as <- <- <-. exists []. repeat split; trivial. cbn; lia.
  - destruct (Regex.match_here cls eqc open close (c :: s)) as [[? ?]|] eqn:E.
    + injection H as <- <- <-. exists (c :: s). repeat split; trivial. cbn; lia.
    + destruct (Regex.exec cls eqc open close s) as [[[pre' ?] ?]|] eqn:X; [|discriminate].
      injection H as <- <- <-. destruct (IH _ eq_refl) as (t & -> & Ht & Hk).
      exists t. repeat split; trivial.
      intros [|k] Hlt; [assumption|]. cbn [skipn]. apply Hk. cbn in Hlt. lia.
Qed.

Lemma match_here_length s cap rest :
  match_here s = Some (cap, rest) ->
  length s = length open + length cap + length close + length rest.
Proof.
  unfold Regex.match_here. destruct (strip eqc open s) as [r|] eqn:E; [|discriminate].
  intros H. apply strip_length in E.
  destruct (lazy_sound _ _ _ H) as (t & -> & Ht & _). apply strip_length in Ht.
  rewrite E, length_app, Ht. lia.
Qed.

Lemma exec_length s pre cap rest :
  exec s = Some (pre, cap, rest) ->
  length s = length pre + length open + length cap + length close + length rest.
Proof.
  intros H. destruct (exec_sound _ _ _ _ H) as (t & -> & Ht & _).
  apply match_here_length in Ht. rewrite length_app, Ht. lia.
Qed.

(** ** The rounds of [matchAll] *)

Hypothesis open_nonempty : 0 < length open.

Lemma exec_nil : exec [] = None.
Proof.
  cbn [Regex.exec]. unfold Regex.match_here.
  destruct open; cbn in *; [lia|reflexivity].
Qed.

Lemma exec_none_free a : free eqc open a = true -> exec a = None.
Proof.
  intros H. rewrite <- (app_nil_r a), exec_skip by assumption.
  now rewrite exec_nil.
Qed.

Lemma match_all_fuel_irrelevant n m s :
  length s < n -> length s < m -> match_all_fuel n s = match_all_fuel m s.
Proof.
  revert m s. induction n as [|n IH]; intros m s Hn Hm; [lia|].
  destruct m as [|m]; [lia|]. cbn [Regex.match_all_fuel].
  destruct (Regex.exec cls eqc open close s) as [[[pre cap] rest]|] eqn:E; [|reflexivity].
  apply exec_length in E. f_equal. apply IH; lia.
Qed.

(** With enough rounds the result no longer depends on their number. *)
Lemma match_all_fuel_enough n s :
  length s < n -> match_all_fuel n s = match_all s.
Proof. intros H. apply match_all_fuel_irrelevant; [assumption|lia]. Qed.

Lemma match_all_unfold s :
  match_all s =
  match exec s with
  | Some (_, cap, rest) => cap :: match_all rest
  | None => []
  end.
Proof.
  unfold Regex.match_all at 1. cbn [Regex.match_all_fuel].
  destruct (Regex.exec cls eqc open close s) as [[[pre cap] rest]|] eqn:E; [|reflexivity].
  apply exec_length in E. f_equal. apply match_all_fuel_enough. lia.
Qed.

End Pattern.

(** * Facts on the classes of characters *)

Lemma all_chars (P : ascii -> Prop) :
  (forall b0 b1 b2 b3 b4 b5 b6 b7, P (Ascii b0 b1 b2 b3 b4 b5 b6 b7)) -> forall c, P c.
Proof. intros H [b0 b1 b2 b3 b4 b5 b6 b7]. apply H. Qed.

Ltac by_cases_on_char :=
  apply all_chars; intros [] [] [] [] [] [] [] []; vm_compute; trivial; try discriminate.

(** With or without the flag [i], only [<] matches [<]. *)
Lemma same_i_lt c : same_i lt_ c = same lt_ c.
Proof. revert c. by_cases_on_char. Qed.

Lemma str_eqb_eq a b : Str.eqb a b = true <-> a = b.
Proof.
  revert b. induction a as [|x a IH]; intros [|y b]; cbn; split; try easy.
  - intros [H1 H2]%andb_true_iff. apply Ascii.eqb_eq in H1. apply IH in H2. congruence.
  - intros [= -> ->]. rewrite Ascii.eqb_refl. now apply IH.
Qed.

Lemma str_eqb_refl a : Str.eqb a a = true.
Proof. now apply str_eqb_eq. Qed.

Lemma forallb_any s : forallb any s = true.
Proof. now induction s. Qed.

(** * Facts on escaped text *)

Lemma forallb_flat_map (P : ascii -> bool) f (s : str) :
  (forall c, In c s -> forallb P (f c) = true) -> forallb P (flat_map f s) = true.
Proof.
  induction s as [|c s IH]; intros H; [reflexivity|]. cbn [flat_map].
  rewrite forallb_app, H by (cbn; auto). rewrite IH; [reflexivity|].
  intros x Hx. apply H. cbn. auto.
Qed.

Ltac img_cases c :=
  unfold img;
  destruct (Ascii.eqb_spec c amp) as [->|?]; [reflexivity|];
  destruct (Ascii.eqb_spec c lt_) as [->|?]; [reflexivity|];
  destruct (Ascii.eqb_spec c gt_) as [->|?]; [reflexivity|];
  destruct (Ascii.eqb_spec c quot) as [->|?]; [reflexivity|];
  destruct (Ascii.eqb_spec c apos) as [->|?]; [reflexivity|].

Lemma escapeXml_no_lt eqc s :
  eqc = same \/ eqc = same_i ->
  forallb (fun c => negb (eqc lt_ c)) (escapeXml s) = true.
Proof.
  intros He. rewrite escapeXml_img. apply forallb_flat_map. intros c _.
  assert (E : forall x, eqc lt_ x = same lt_ x)
    by (intros x; destruct He as [->| ->]; [reflexivity|apply same_i_lt]).
  destruct He as [->| ->]; img_cases c; cbn [forallb]; rewrite ?same_i_lt;
    unfold same; rewrite neq_eqb by congruence; reflexivity.
Qed.

Lemma escapeXml_dot s : forallb dot s = true -> forallb dot (escapeXml s) = true.
Proof.
  intros H. rewrite escapeXml_img. apply forallb_flat_map. intros c Hc.
  rewrite forallb_forall in H. specialize (H c Hc).
  img_cases c. cbn. now rewrite H.
Qed.

Lemma escapeXml_no_dollar s : no_dollar s = true -> no_dollar (escapeXml s) = true.
Proof.
  unfold no_dollar. intros H. rewrite escapeXml_img. apply forallb_flat_map. intros c Hc.
  rewrite forallb_forall in H. specialize (H c Hc).
  img_cases c. cbn [forallb]. now rewrite H.
Qed.

(** ** [trim] on escaped text *)

Lemma trimStart_length s : length (trimStart s) <= length s.
Proof. induction s as [|c s IH]; cbn; [lia|]. destruct (is_space c); cbn; lia. Qed.

Lemma trimStart_fix s :
  trimStart s = s <-> match s with [] => True | c :: _ => is_space c = false end.
Proof.
  destruct s as [|c s]; cbn; [easy|]. destruct (is_space c) eqn:E; split; try easy.
  intros H. pose proof (trimStart_length s) as L. rewrite H in L. cbn in L. lia.
Qed.

Lemma trim_fix s : trim s = s -> trimStart s = s /\ trimStart (rev s) = rev s.
Proof.
  unfold trim, trimEnd. intros H.
  assert (L1 : length (trimStart s) = length s).
  { pose proof (trimStart_length s). pose proof (trimStart_length (rev (trimStart s))).
    apply (f_equal (@length _)) in H. rewrite !length_rev in *. lia. }
  assert (E : trimStart s = s).
  { destruct s as [|c s]; [reflexivity|]. cbn in *. destruct (is_space c); [|reflexivity].
    pose proof (trimStart_length s). lia. }
  split; [assumption|]. rewrite E in H. apply (f_equal (@rev _)) in H.
  now rewrite rev_involutive in H.
Qed.

Lemma trim_of_fix s : trimStart s = s -> trimStart (rev s) = rev s -> trim s = s.
Proof. unfold trim, trimEnd. intros -> ->. apply rev_involutive. Qed.

Ltac entity_end := do 2 eexists; split; [reflexivity|intros _; reflexivity].

Lemma img_head c :
  exists h t, img 5 c = h :: t /\ (is_space c = false -> is_space h = false).
Proof.
  unfold img.
  destruct (Ascii.eqb c amp); [entity_end|].
  destruct (Ascii.eqb c lt_); [entity_end|].
  destruct (Ascii.eqb c gt_); [entity_end|].
  destruct (Ascii.eqb c quot); [entity_end|].
  destruct (Ascii.eqb c apos); [entity_end|].
  exists c, []. split; [reflexivity|trivial].
Qed.

Lemma img_last c :
  exists h t, rev (img 5 c) = h :: t /\ (is_space c = false -> is_space h = false).
Proof.
  unfold img.
  destruct (Ascii.eqb c amp); [entity_end|].
  destruct (Ascii.eqb c lt_); [entity_end|].
  destruct (Ascii.eqb c gt_); [entity_end|].
  destruct (Ascii.eqb c quot); [entity_end|].
  destruct (Ascii.eqb c apos); [entity_end|].
  exists c, []. split; [reflexivity|trivial].
Qed.

Lemma rev_flat_map (f : ascii -> str) s :
  rev (flat_map f s) = flat_map (fun c => rev (f c)) (rev s).
Proof.
  induction s as [|c s IH]; [reflexivity|]. cbn [flat_map rev].
  rewrite rev_app_distr, IH, flat_map_app. cbn. now rewrite app_nil_r.
Qed.

(** * What the parser returns can be written again *)

Lemma forallb_trimStart P s : forallb P s = true -> forallb P (trimStart s) = true.
Proof.
  induction s as [|c s IH]; [reflexivity|]. cbn [trimStart].
  destruct (is_space c); [|trivial]. cbn. intros [_ H]%andb_true_iff. auto.
Qed.

Lemma forallb_rev (P : ascii -> bool) s : forallb P (rev s) = forallb P s.
Proof.
  induction s as [|c s IH]; [reflexivity|]. cbn. rewrite forallb_app, IH. cbn.
  now rewrite andb_true_r, andb_comm.
Qed.

Lemma forallb_trim P s : forallb P s = true -> forallb P (trim s) = true.
Proof.
  intros H. unfold trim, trimEnd. rewrite forallb_rev. apply forallb_trimStart.
  rewrite forallb_rev. now apply forallb_trimStart.
Qed.

Lemma forallb_replace_from P p r k s :
  forallb P r = true -> forallb P s = true -> forallb P (replace_from p r k s) = true.
Proof.
  intros Hr. revert k. induction s as [|c s IH]; intros k H; [reflexivity|].
  cbn [forallb] in H. apply andb_true_iff in H as [Hc H]. cbn [replace_from].
  destruct k; [|auto]. destruct (starts_with p (c :: s)).
  - rewrite forallb_app, Hr. cbn. auto.
  - cbn. rewrite Hc. cbn. auto.
Qed.

Lemma forallb_unescapeXml P s :
  forallb P [amp; lt_; gt_; quot; apos] = true ->
  forallb P s = true -> forallb P (unescapeXml s) = true.
Proof.
  cbn [forallb]. rewrite !andb_true_iff. intros (Ha & Hl & Hg & Hq & Hp & _) H.
  unfold unescapeXml, replaceAll.
  repeat (apply forallb_replace_from; [cbn; now rewrite ?Ha, ?Hl, ?Hg, ?Hq, ?Hp|]).
  assumption.
Qed.

(** ** The ends of a text *)

Lemma starts_ok_trimStart s : starts_ok (trimStart s).
Proof.
  induction s as [|c s IH]; [exact I|]. cbn [trimStart].
  destruct (is_space c) eqn:E; [assumption|exact E].
Qed.

Lemma trimStart_split s : exists w, s = w ++ trimStart s.
Proof.
  induction s as [|c s [w IH]]; [now exists []|]. cbn [trimStart].
  destruct (is_space c); [|now exists []]. exists (c :: w). cbn. now f_equal.
Qed.

Lemma ends_ok_rev s : ends_ok s <-> starts_ok (rev s).
Proof.
  induction s as [|c s IH]; [easy|]. destruct s as [|c' s]; [easy|].
  change (ends_ok (c :: c' :: s)) with (ends_ok (c' :: s)). rewrite IH.
  change (rev (c :: c' :: s)) with (rev (c' :: s) ++ [c]).
  destruct (rev (c' :: s)) eqn:E; [|easy].
  apply (f_equal (@length _)) in E. rewrite length_rev in E. discriminate.
Qed.

Lemma starts_ok_prefix a b : starts_ok (a ++ b) -> starts_ok a.
Proof. now destruct a. Qed.

Lemma starts_ok_trim s : starts_ok (trim s) /\ ends_ok (trim s).
Proof.
  unfold trim, trimEnd. split.
  - destruct (trimStart_split (rev (trimStart s))) as [w Hw].
    apply (f_equal (@rev _)) in Hw. rewrite rev_involutive, rev_app_distr in Hw.
    apply starts_ok_prefix with (b := rev w). rewrite <- Hw. apply starts_ok_trimStart.
  - apply ends_ok_rev. rewrite rev_involutive. apply starts_ok_trimStart.
Qed.

Lemma trim_of_ends s : starts_ok s -> ends_ok s -> trim s = s.
Proof.
  intros H1 H2. apply trim_of_fix; apply trimStart_fix; [assumption|].
  now apply ends_ok_rev.
Qed.

Lemma starts_ok_replace p r s :
  is_space r = false -> starts_ok s -> starts_ok (replaceAll p [r] s).
Proof.
  intros Hr H. destruct s as [|c s]; [exact I|]. unfold replaceAll. cbn [replace_from].
  now destruct (starts_with p (c :: s)).
Qed.

Lemma replace_from_nonempty p r c s :
  r <> [] -> replace_from p r 0 (c :: s) <> [].
Proof.
  intros Hr. cbn [replace_from]. destruct (starts_with p (c :: s)); [|discriminate].
  destruct r; [congruence|discriminate].
Qed.

Lemma ends_ok_replace_from p r k s :
  is_space r = false -> ends_ok s -> ends_ok (replace_from p [r] k s).
Proof.
  intros Hr. revert k. induction s as [|c s IH]; intros k H; [exact I|].
  assert (Hs : ends_ok s) by (destruct s; [exact I|exact H]).
  cbn [replace_from]. destruct k as [|k]; [|auto].
  destruct (starts_with p (c :: s)).
  - cbn [app]. specialize (IH (length p - 1) Hs).
    destruct (replace_from p [r] (length p - 1) s); [exact Hr|exact IH].
  - destruct s as [|c' s]; [exact H|]. specialize (IH 0 Hs).
    destruct (replace_from p [r] 0 (c' :: s)) eqn:E; [|exact IH].
    now apply replace_from_nonempty in E.
Qed.

Lemma ends_unescapeXml s :
  starts_ok s -> ends_ok s -> starts_ok (unescapeXml s) /\ ends_ok (unescapeXml s).
Proof.
  intros H1 H2. unfold unescapeXml. split.
  - repeat (apply starts_ok_replace; [reflexivity|]). assumption.
  - unfold replaceAll. repeat (apply ends_ok_replace_from; [reflexivity|]). assumption.
Qed.

(** A captured single-line text, trimmed and unescaped, is [clean] but
    for the dollars it may hold. *)
Lemma parsed_field m :
  forallb dot m = true ->
  forallb dot (unescapeXml (trim m)) = true
  /\ trim (unescapeXml (trim m)) = unescapeXml (trim m).
Proof.
  intros H. split.
  - apply forallb_unescapeXml; [reflexivity|now apply forallb_trim].
  - destruct (starts_ok_trim m) as [H1 H2].
    destruct (ends_unescapeXml _ H1 H2). now apply trim_of_ends.
Qed.

Lemma parsed_field_clean m :
  forallb dot m = true -> no_dollar (unescapeXml (trim m)) = true ->
  clean (unescapeXml (trim m)) = true.
Proof.
  intros H Hd. destruct (parsed_field m H) as [H1 H2]. unfold clean.
  now rewrite H1, H2, str_eqb_refl, Hd.
Qed.

Lemma exec_capture cls eqc open close s pre m rest :
  Regex.exec cls eqc open close s = Some (pre, m, rest) -> forallb cls m = true.
Proof.
  intros H. destruct (exec_sound _ _ _ _ _ _ _ _ H) as (t & _ & Ht & _).
  unfold Regex.match_here in Ht. destruct (strip eqc open t); [|discriminate].
  now destruct (lazy_sound _ _ _ _ _ _ Ht) as (_ & _ & _ & Hc & _).
Qed.

Lemma match_all_fuel_captures cls eqc open close n s m :
  In m (Regex.match_all_fuel cls eqc open close n s) -> forallb cls m = true.
Proof.
  revert s. induction n as [|n IH]; intros s H; [destruct H|].
  cbn [Regex.match_all_fuel] in H.
  destruct (Regex.exec cls eqc open close s) as [[[pre cap] rest]|] eqn:E; [|destruct H].
  destruct H as [<-|H]; [now apply exec_capture in E|eauto].
Qed.

Lemma extractXmlElements_clean sec tagName :
  forallb no_dollar (extractXmlElements sec tagName) = true ->
  forallb clean (extractXmlElements sec tagName) = true.
Proof.
  unfold extractXmlElements, Regex.match_all.
  set (ms := Regex.match_all_fuel _ _ _ _ _ _).
  assert (Hm : forall m, In m ms -> forallb dot m = true)
    by (intros m; apply match_all_fuel_captures).
  clearbody ms. induction ms as [|m ms IH]; [reflexivity|].
  cbn [map forallb]. intros [H1 H2]%andb_true_iff.
  rewrite parsed_field_clean, IH; trivial; intros; apply Hm; cbn; auto.
Qed.

Lemma parse_feature_storable b f :
  parse_feature b = Some f -> dollar_free f = true -> storable f = true.
Proof.
  unfold parse_feature, dollar_free, storable.
  destruct (Regex.exec dot same (tag_open t_name) (tag_close t_name) b)
    as [[[? m] ?]|] eqn:En; [|discriminate].
  assert (Hn : forallb dot m = true) by now apply exec_capture in En.
  destruct (unescapeXml (trim m)) as [|c n] eqn:Ename; [discriminate|].
  assert (Hd : forall x, x = match Regex.exec dot same (tag_open t_description)
                                     (tag_close t_description) b with
                             | Some (_, m0, _) => unescapeXml (trim m0)
                             | None => []
                             end ->
                         no_dollar x = true -> clean x = true).
  { intros x ->.
    destruct (Regex.exec dot same (tag_open t_description) (tag_close t_description) b)
      as [[[? m'] ?]|] eqn:Ed; [|reflexivity].
    apply parsed_field_clean. now apply exec_capture in Ed. }
  intros [= <-]. cbn [name description file_locations].
  rewrite !andb_true_iff. intros [[H1 H2] H3]. repeat split.
  - rewrite <- Ename. apply parsed_field_clean; [assumption|now rewrite Ename].
  - now apply Hd.
  - destruct (extractXmlSection b t_file_locations) as [[|x sec]|]; trivial.
    destruct (extractXmlElements (x :: sec) t_location) as [|l ls] eqn:El; trivial.
    rewrite <- El in *. now apply extractXmlElements_clean.
Qed.

Lemma filter_map_in {A B} (f : A -> option B) l y :
  In y (filter_map f l) -> exists x, In x l /\ f x = Some y.
Proof.
  induction l as [|x l IH]; [intros []|]. cbn [filter_map].
  destruct (f x) as [z|] eqn:E.
  - intros [<-|H]; [exists x; cbn; auto|].
    destruct (IH H) as (x' & ? & ?). exists x'. cbn. auto.
  - intros H. destruct (IH H) as (x' & ? & ?). exists x'. cbn. auto.
Qed.

(** Features the parser returns are [storable] as soon as they hold no
    dollar: the parser gives single-line, trimmed texts and non-empty
    names and lists on its own. *)
Lemma extract_storable d :
  forallb dollar_free (extractImplementedFeatures d) = true ->
  forallb storable (extractImplementedFeatures d) = true.
Proof.
  rewrite !forallb_forall. intros H f Hf. specialize (H f Hf).
  unfold extractImplementedFeatures in Hf.
  destruct (extractXmlSection d t_implemented_features) as [[|x sec]|];
    try (now destruct Hf).
  apply filter_map_in in Hf as (b & _ & Hb). now apply parse_feature_storable with (b := b).
Qed.

(** * One tagged element *)

Lemma exec_element cls eqc open close pre body rest :
  (forall c, eqc c c = true) ->
  free eqc open pre = true -> free eqc close body = true -> forallb cls body = true ->
  Regex.exec cls eqc open close (pre ++ open ++ body ++ close ++ rest)
  = Some (pre, body, rest).
Proof.
  intros Hr Hpre Hbody Hcls. rewrite exec_skip by assumption.
  rewrite (@exec_here cls eqc open close _ body rest); [cbn; now rewrite app_nil_r|].
  unfold Regex.match_here. rewrite strip_app_refl by assumption.
  rewrite lazy_skip by assumption.
  rewrite (@lazy_here cls eqc close _ rest) by now apply strip_app_refl.
  cbn. now rewrite app_nil_r.
Qed.

(** * The shape of the generated text *)

Lemma join_concat sep (l : list str) :
  l <> [] -> sep ++ join sep l = concat (map (app sep) l).
Proof.
  induction l as [|x l IH]; [congruence|]. intros _.
  destruct l as [|y l]; [cbn; now rewrite app_nil_r|].
  change (join sep (x :: y :: l)) with (x ++ sep ++ join sep (y :: l)).
  change (concat (map (app sep) (x :: y :: l)))
    with ((sep ++ x) ++ concat (map (app sep) (y :: l))).
  rewrite <- IH by congruence. now rewrite <- app_assoc.
Qed.

Lemma loc_lines_join locs :
  locs <> [] -> nl ++ join nl (map (location_line (indent2 ++ indent2 ++ indent2 ++ indent2)) locs)
                = loc_lines locs.
Proof.
  intros H. rewrite join_concat by (destruct locs; cbn; congruence).
  unfold loc_lines. rewrite map_map. reflexivity.
Qed.

Lemma featureToXml_eq f :
  featureToXml f indent2 = i2 ++ f_open ++ feature_content f ++ f_close.
Proof.
  unfold featureToXml, feature_content, head_xml, locs_xml.
  destruct (file_locations f) as [[|l locs]|].
  - rewrite <- !app_assoc. reflexivity.
  - rewrite <- (@loc_lines_join (l :: locs)) by congruence.
    rewrite <- !app_assoc. reflexivity.
  - rewrite <- !app_assoc. reflexivity.
Qed.

Lemma featuresToXml_eq F tail :
  nl ++ featuresToXml F indent2 ++ tail
  = match F with [] => nl | _ :: _ => feature_blocks F end ++ tail.
Proof.
  unfold featuresToXml. destruct F as [|f F]; [reflexivity|].
  rewrite app_assoc, join_concat by (cbn; congruence).
  unfold feature_blocks. rewrite map_map. f_equal. f_equal. apply map_ext.
  intros a. rewrite featureToXml_eq. reflexivity.
Qed.

Lemma newSection_eq F : newSection F = sec_open ++ section_body F ++ sec_close.
Proof.
  unfold newSection, section_body. rewrite featuresToXml_eq.
  rewrite <- !app_assoc. reflexivity.
Qed.

(** * No tag starts inside generated text but the tags put there *)

Lemma free_escaped eqc p x :
  plain eqc -> hd_error p = Some lt_ -> free eqc p (escapeXml x) = true.
Proof.
  intros He Hp. apply free_head with (h := lt_); [assumption|].
  now apply escapeXml_no_lt.
Qed.

Ltac free_tac :=
  repeat first
    [ assumption
    | apply free_app
    | apply free_escaped; [first [left; reflexivity | right; reflexivity | assumption]
                          | reflexivity]
    | progress (vm_compute; reflexivity) ].

Lemma free_loc_lines eqc p locs :
  plain eqc -> hd_error p = Some lt_ ->
  free eqc p nl = true -> free eqc p i4 = true ->
  free eqc p l_open = true -> free eqc p l_close = true ->
  free eqc p (loc_lines locs) = true.
Proof.
  intros He Hp H1 H2 H3 H4. unfold loc_lines.
  induction locs as [|l locs IH]; [reflexivity|]. cbn [map concat].
  free_tac. now apply free_escaped.
Qed.

Lemma free_feature_content eqc p f :
  plain eqc -> hd_error p = Some lt_ ->
  forallb (free eqc p) frame_pieces = true ->
  free eqc p (feature_content f) = true.
Proof.
  intros He Hp H. cbn [forallb frame_pieces] in H.
  repeat (apply andb_true_iff in H as [? H]).
  unfold feature_content, head_xml, locs_xml.
  destruct (file_locations f) as [[|l locs]|];
    repeat first [assumption | apply free_app | now apply free_escaped
                 | now apply free_loc_lines | reflexivity].
Qed.

Lemma free_feature_blocks eqc p F :
  plain eqc -> hd_error p = Some lt_ ->
  forallb (free eqc p) (f_open :: f_close :: frame_pieces) = true ->
  free eqc p (feature_blocks F) = true.
Proof.
  intros He Hp H. cbn [forallb] in H.
  apply andb_true_iff in H as [H1 H]. apply andb_true_iff in H as [H2 H].
  pose proof H as H'. cbn [forallb frame_pieces] in H'.
  apply andb_true_iff in H' as [Hn H']. apply andb_true_iff in H' as [Hi2 _].
  unfold feature_blocks. induction F as [|f F IH]; [reflexivity|]. cbn [map concat].
  repeat first [assumption | now apply free_feature_content | apply free_app].
Qed.

Lemma free_section_body F : free same_i sec_close (section_body F) = true.
Proof.
  unfold section_body. apply free_app; [|vm_compute; reflexivity].
  destruct F as [|f F]; [vm_compute; reflexivity|].
  apply free_feature_blocks; [now right|reflexivity|vm_compute; reflexivity].
Qed.

(** * The parser on any written feature *)

Lemma img_space c : is_space c = true -> img 5 c = [c].
Proof.
  intros H. unfold img.
  destruct (Ascii.eqb_spec c amp) as [->|?]; [discriminate|].
  destruct (Ascii.eqb_spec c lt_) as [->|?]; [discriminate|].
  destruct (Ascii.eqb_spec c gt_) as [->|?]; [discriminate|].
  destruct (Ascii.eqb_spec c quot) as [->|?]; [discriminate|].
  destruct (Ascii.eqb_spec c apos) as [->|?]; [discriminate|]. reflexivity.
Qed.

Lemma trimStart_flat_map (g : ascii -> str) s :
  (forall c, is_space c = true -> g c = [c]) ->
  (forall c, is_space c = false -> starts_ok (g c) /\ g c <> []) ->
  trimStart (flat_map g s) = flat_map g (trimStart s).
Proof.
  intros Hs Hn. induction s as [|c s IH]; [reflexivity|]. cbn [flat_map trimStart].
  destruct (is_space c) eqn:E.
  - rewrite (Hs c E). cbn [app trimStart]. now rewrite E.
  - destruct (Hn c E) as [H1 H2]. cbn [flat_map].
    destruct (g c) as [|h t]; [congruence|]. cbn in H1 |- *. now rewrite H1.
Qed.

Lemma trim_escapeXml_comm s : trim (escapeXml s) = escapeXml (trim s).
Proof.
  rewrite !escapeXml_img. unfold trim, trimEnd.
  rewrite trimStart_flat_map.
  - rewrite rev_flat_map, trimStart_flat_map.
    + rewrite <- (rev_involutive (trimStart (rev (trimStart s)))) at 1.
      rewrite <- rev_flat_map. apply rev_involutive.
    + intros c H. now rewrite img_space.
    + intros c H. destruct (img_last c) as (h & t & -> & Hh). split; [cbn; auto|discriminate].
  - apply img_space.
  - intros c H. destruct (img_head c) as (h & t & -> & Hh). split; [cbn; auto|discriminate].
Qed.

Lemma read_escaped s : unescapeXml (trim (escapeXml s)) = trim s.
Proof. now rewrite trim_escapeXml_comm, unescapeXml_escapeXml. Qed.

(** A line terminator inside escaped text stops [.*?] before the closing
    tag. *)
Lemma lazy_blocked close x rest :
  hd_error close = Some lt_ -> forallb dot x = false ->
  Regex.lazy_until dot same close (escapeXml x ++ rest) = None.
Proof.
  intros Hc. rewrite escapeXml_img. induction x as [|c x IH]; [discriminate|].
  cbn [forallb flat_map]. destruct (dot c) eqn:E; cbn [andb]; intros H.
  - rewrite <- app_assoc, lazy_skip.
    + now rewrite (IH H).
    + apply free_head with (h := lt_); [assumption|].
      pose proof (escapeXml_no_lt same [c] (or_introl eq_refl)) as N.
      rewrite escapeXml_img in N. cbn [flat_map] in N. now rewrite app_nil_r in N.
    + pose proof (escapeXml_dot [c]) as N. rewrite escapeXml_img in N.
      cbn [flat_map forallb] in N. rewrite app_nil_r, E in N. now apply N.
  - assert (Hi : img 5 c = [c]).
    { unfold img.
      destruct (Ascii.eqb_spec c amp) as [->|?]; [discriminate|].
      destruct (Ascii.eqb_spec c lt_) as [->|?]; [discriminate|].
      destruct (Ascii.eqb_spec c gt_) as [->|?]; [discriminate|].
      destruct (Ascii.eqb_spec c quot) as [->|?]; [discriminate|].
      destruct (Ascii.eqb_spec c apos) as [->|?]; [discriminate|]. reflexivity. }
    rewrite Hi. cbn [app Regex.lazy_until]. rewrite E.
    destruct close as [|h close]; [discriminate|]. injection Hc as ->.
    cbn [strip]. unfold same at 1.
    destruct (Ascii.eqb_spec lt_ c) as [<-|?]; [discriminate|reflexivity].
Qed.

(** One written element [pre open x close rest], read by
    [open(.*?)close]: the element is found when [x] is on one line, and
    no element is found otherwise, as no other [open] is around. *)
Lemma read_element open close pre x rest :
  hd_error open = Some lt_ -> hd_error close = Some lt_ ->
  free same open pre = true ->
  free same open (tl open ++ escapeXml x ++ close ++ rest) = true ->
  Regex.exec dot same open close (pre ++ open ++ escapeXml x ++ close ++ rest)
  = if forallb dot x then Some (pre, escapeXml x, rest) else None.
Proof.
  intros Ho Hc Hpre Hrest. destruct (forallb dot x) eqn:E.
  - apply exec_element; [apply same_refl|assumption| |now apply escapeXml_dot].
    now apply free_escaped; [left|].
  - rewrite exec_skip by assumption.
    destruct open as [|o open]; [discriminate|]. cbn [tl] in Hrest.
    change ((o :: open) ++ escapeXml x ++ close ++ rest)
      with (o :: (open ++ escapeXml x ++ close ++ rest)).
    rewrite exec_step.
    + rewrite exec_none_free; [reflexivity|cbn; lia|assumption].
    + unfold Regex.match_here.
      change (o :: open ++ escapeXml x ++ close ++ rest)
        with ((o :: open) ++ escapeXml x ++ close ++ rest).
      rewrite strip_app_refl by apply same_refl. now apply lazy_blocked.
Qed.

Lemma read_element_text open close pre x rest :
  hd_error open = Some lt_ -> hd_error close = Some lt_ ->
  free same open pre = true ->
  free same open (tl open ++ escapeXml x ++ close ++ rest) = true ->
  match Regex.exec dot same open close (pre ++ open ++ escapeXml x ++ close ++ rest) with
  | Some (_, m, _) => unescapeXml (trim m)
  | None => []
  end = norm_text x.
Proof.
  intros Ho Hc Hpre Hrest. rewrite read_element by assumption. unfold norm_text.
  destruct (forallb dot x); [apply read_escaped|reflexivity].
Qed.

(** The same element with more text behind it: when [x] is not on one
    line the search goes on behind the element. *)
Lemma read_element_or_skip open close pre x rest :
  hd_error open = Some lt_ -> hd_error close = Some lt_ ->
  free same open pre = true ->
  free same open (tl open ++ escapeXml x ++ close) = true ->
  Regex.exec dot same open close (pre ++ open ++ escapeXml x ++ close ++ rest)
  = if forallb dot x then Some (pre, escapeXml x, rest)
    else shift_pre (pre ++ open ++ escapeXml x ++ close)
           (Regex.exec dot same open close rest).
Proof.
  intros Ho Hc Hpre Hin. destruct (forallb dot x) eqn:E.
  - apply exec_element; [apply same_refl|assumption| |now apply escapeXml_dot].
    now apply free_escaped; [left|].
  - rewrite exec_skip by assumption.
    destruct open as [|o open]; [discriminate|]. cbn [tl] in Hin.
    change ((o :: open) ++ escapeXml x ++ close ++ rest)
      with (o :: (open ++ escapeXml x ++ close ++ rest)).
    rewrite exec_step.
    + replace (open ++ escapeXml x ++ close ++ rest)
        with ((open ++ escapeXml x ++ close) ++ rest)
        by (rewrite <- !app_assoc; reflexivity).
      rewrite exec_skip by assumption. rewrite !shift_pre_shift_pre.
      f_equal. cbn [app]. now rewrite <- !app_assoc.
    + unfold Regex.match_here.
      change (o :: open ++ escapeXml x ++ close ++ rest)
        with ((o :: open) ++ escapeXml x ++ close ++ rest).
      rewrite strip_app_refl by apply same_refl. now apply lazy_blocked.
Qed.

Lemma norm_text_clean s : forallb dot s = true -> trim s = s -> norm_text s = s.
Proof. unfold norm_text. now intros -> ->. Qed.

Lemma clean_parts s :
  clean s = true -> forallb dot s = true /\ trim s = s /\ no_dollar s = true.
Proof.
  unfold clean. intros [[H1 H2]%andb_true_iff H3]%andb_true_iff.
  apply str_eqb_eq in H2. auto.
Qed.

Lemma norm_locs_clean locs :
  forallb clean locs = true -> map trim (filter (forallb dot) locs) = locs.
Proof.
  induction locs as [|l locs IH]; [reflexivity|]. cbn [forallb filter].
  intros [Hl H]%andb_true_iff. destruct (clean_parts _ Hl) as (H1 & H2 & _).
  rewrite H1. cbn [map]. now rewrite H2, IH.
Qed.

(** A [storable] feature is read back as it is. *)
Lemma read_back_storable f : storable f = true -> read_back f = Some f.
Proof.
  destruct f as [n d fl]. unfold storable, read_back, read_record.
  cbn [name description file_locations].
  intros H. apply andb_true_iff in H as [H Hfl]. apply andb_true_iff in H as [H Hd].
  apply andb_true_iff in H as [Hne Hn].
  destruct (clean_parts _ Hn) as (N1 & N2 & _). destruct (clean_parts _ Hd) as (D1 & D2 & _).
  rewrite !norm_text_clean by assumption.
  destruct n as [|c n]; [discriminate|]. f_equal. f_equal.
  destruct fl as [[|l locs]|]; try discriminate; [|reflexivity].
  unfold norm_locs. now rewrite norm_locs_clean.
Qed.

Lemma storable_dollar_free f : storable f = true -> dollar_free f = true.
Proof.
  unfold storable, dollar_free.
  intros H. apply andb_true_iff in H as [H Hfl]. apply andb_true_iff in H as [H Hd].
  apply andb_true_iff in H as [Hne Hn].
  destruct (clean_parts _ Hn) as (_ & _ & ->). destruct (clean_parts _ Hd) as (_ & _ & ->).
  cbn [andb]. destruct (file_locations f) as [[|l locs]|]; try discriminate; trivial.
  clear -Hfl. induction (l :: locs) as [|x xs IH]; [reflexivity|]. cbn [forallb] in *.
  apply andb_true_iff in Hfl as [Hx Hxs]. destruct (clean_parts _ Hx) as (_ & _ & ->).
  now apply IH.
Qed.

Lemma valid_name_parts n :
  valid_name n = true -> n <> [] /\ forallb dot n = true /\ trim n = n.
Proof.
  unfold valid_name. intros [[H1 H2]%andb_true_iff H3]%andb_true_iff.
  apply str_eqb_eq in H3. repeat split; trivial. now destruct n.
Qed.

Lemma norm_text_valid n : valid_name n = true -> norm_text n = n.
Proof. intros (_ & H1 & H2)%valid_name_parts. now apply norm_text_clean. Qed.

Lemma read_back_valid f :
  valid_name (name f) = true -> read_back f = Some (read_record f).
Proof.
  intros H. unfold read_back. rewrite (norm_text_valid _ H).
  apply valid_name_parts in H as (Hn & _). now destruct (name f).
Qed.

Lemma storable_valid_name f : storable f = true -> valid_name (name f) = true.
Proof.
  unfold storable, valid_name.
  intros H. apply andb_true_iff in H as [H _]. apply andb_true_iff in H as [H _].
  apply andb_true_iff in H as [Hne Hn]. destruct (clean_parts _ Hn) as (H1 & H2 & _).
  now rewrite Hne, H1, H2, str_eqb_refl.
Qed.

Lemma read_record_storable f : storable f = true -> read_record f = f.
Proof.
  intros H. pose proof (read_back_storable f H) as E.
  rewrite read_back_valid in E by now apply storable_valid_name. now injection E.
Qed.

Lemma filter_map_app {A B} (g : A -> option B) l l' :
  filter_map g (l ++ l') = filter_map g l ++ filter_map g l'.
Proof.
  induction l as [|x l IH]; [reflexivity|]. cbn [app filter_map].
  destruct (g x); cbn; now rewrite IH.
Qed.

Lemma filter_map_read_back_valid F :
  forallb (fun f => valid_name (name f)) F = true ->
  filter_map read_back F = map read_record F.
Proof.
  induction F as [|f F IH]; [reflexivity|]. cbn [forallb filter_map map].
  intros [Hf HF]%andb_true_iff. now rewrite read_back_valid, IH.
Qed.

(** * Reading generated text back *)

Lemma match_locations locs rest :
  free same l_open rest = true ->
  Regex.match_all dot same l_open l_close (loc_lines locs ++ rest)
  = map escapeXml (filter (forallb dot) locs).
Proof.
  intros Hrest. induction locs as [|l locs IH].
  - cbn [loc_lines map concat app filter]. rewrite match_all_unfold by (cbn; lia).
    now rewrite exec_none_free by (assumption || cbn; lia).
  - rewrite match_all_unfold by (cbn; lia).
    change (loc_lines (l :: locs)) with
      ((nl ++ i4 ++ l_open ++ escapeXml l ++ l_close) ++ loc_lines locs).
    replace (((nl ++ i4 ++ l_open ++ escapeXml l ++ l_close) ++ loc_lines locs) ++ rest)
      with ((nl ++ i4) ++ l_open ++ escapeXml l ++ l_close ++ loc_lines locs ++ rest)
      by (rewrite <- !app_assoc; reflexivity).
    rewrite read_element_or_skip; [|reflexivity|reflexivity|reflexivity|free_tac].
    cbn [filter]. destruct (forallb dot l).
    + cbn [map]. now rewrite IH.
    + rewrite <- IH. rewrite (match_all_unfold dot same l_open l_close) by (cbn; lia).
      now destruct (Regex.exec dot same l_open l_close (loc_lines locs ++ rest))
        as [[[? ?] ?]|].
Qed.

Lemma extract_locations locs :
  extractXmlElements (loc_lines locs ++ nl ++ i3) t_location
  = map trim (filter (forallb dot) locs).
Proof.
  unfold extractXmlElements.
  change (tag_open t_location) with l_open. change (tag_close t_location) with l_close.
  rewrite match_locations by reflexivity. rewrite map_map.
  apply map_ext. intros l. apply read_escaped.
Qed.

Lemma loc_lines_nonempty l locs : exists c t, loc_lines (l :: locs) ++ nl ++ i3 = c :: t.
Proof. cbn. eauto. Qed.

Lemma free_locs_xml eqc p fl :
  plain eqc -> hd_error p = Some lt_ ->
  forallb (free eqc p) [nl; i3; i4; fl_open; fl_close; l_open; l_close] = true ->
  free eqc p (locs_xml fl) = true.
Proof.
  intros He Hp H. cbn [forallb] in H. repeat (apply andb_true_iff in H as [? H]).
  unfold locs_xml. destruct fl as [[|l locs]|]; try reflexivity.
  repeat first [assumption | now apply free_loc_lines | apply free_app].
Qed.

(** The file locations of a written block. *)
Lemma read_locations f :
  match extractXmlSection (feature_content f) t_file_locations with
  | None | Some [] => None
  | Some sec => Some (extractXmlElements sec t_location)
  end
  = match file_locations f with
    | Some ((_ :: _) as locs) => Some (map trim (filter (forallb dot) locs))
    | _ => None
    end.
Proof.
  unfold extractXmlSection.
  change (tag_open t_file_locations) with fl_open.
  change (tag_close t_file_locations) with fl_close.
  unfold feature_content.
  assert (Hh : free same_i fl_open (head_xml f) = true) by (unfold head_xml; free_tac).
  destruct (file_locations f) as [[|l locs]|]; cbn [locs_xml].
  - rewrite exec_none_free; [reflexivity|cbn; lia|]. cbn [app].
    apply free_app; [assumption|reflexivity].
  - replace (head_xml f
             ++ (nl ++ i3 ++ fl_open ++ loc_lines (l :: locs) ++ nl ++ i3 ++ fl_close)
             ++ nl ++ i2)
      with ((head_xml f ++ nl ++ i3)
            ++ fl_open ++ (loc_lines (l :: locs) ++ nl ++ i3) ++ fl_close ++ nl ++ i2)
      by (rewrite <- !app_assoc; reflexivity).
    rewrite exec_element.
    + destruct (loc_lines_nonempty l locs) as (x & t & E). rewrite E, <- E.
      now rewrite extract_locations.
    + apply same_i_refl.
    + apply free_app; [assumption|reflexivity].
    + apply free_app; [|reflexivity].
      apply free_loc_lines; (now right) || reflexivity.
    + apply forallb_any.
  - rewrite exec_none_free; [reflexivity|cbn; lia|]. cbn [app].
    apply free_app; [assumption|reflexivity].
Qed.

(** The parser on the block the writer makes of any feature. *)
Lemma parse_written f : parse_feature (feature_content f) = read_back f.
Proof.
  unfold parse_feature. rewrite read_locations.
  change (tag_open t_name) with n_open. change (tag_close t_name) with n_close.
  change (tag_open t_description) with d_open.
  change (tag_close t_description) with d_close.
  assert (Hl : forall p, In p [n_open; d_open] ->
                         free same p (locs_xml (file_locations f)) = true).
  { intros p [<-|[<-|[]]]; (apply free_locs_xml; [now left|reflexivity|reflexivity]). }
  assert (En : match Regex.exec dot same n_open n_close (feature_content f) with
               | Some (_, m, _) => unescapeXml (trim m)
               | None => []
               end = norm_text (name f)).
  { unfold feature_content, head_xml.
    replace ((nl ++ i3 ++ n_open ++ escapeXml (name f) ++ n_close ++
              nl ++ i3 ++ d_open ++ escapeXml (description f) ++ d_close)
             ++ locs_xml (file_locations f) ++ nl ++ i2)
      with ((nl ++ i3) ++ n_open ++ escapeXml (name f) ++ n_close ++
            (nl ++ i3 ++ d_open ++ escapeXml (description f) ++ d_close
             ++ locs_xml (file_locations f) ++ nl ++ i2))
      by (rewrite <- !app_assoc; reflexivity).
    apply read_element_text; [reflexivity|reflexivity|reflexivity|].
    specialize (Hl n_open (or_introl eq_refl)). free_tac. }
  assert (Ed : match Regex.exec dot same d_open d_close (feature_content f) with
               | Some (_, m, _) => unescapeXml (trim m)
               | None => []
               end = norm_text (description f)).
  { unfold feature_content, head_xml.
    replace ((nl ++ i3 ++ n_open ++ escapeXml (name f) ++ n_close ++
              nl ++ i3 ++ d_open ++ escapeXml (description f) ++ d_close)
             ++ locs_xml (file_locations f) ++ nl ++ i2)
      with ((nl ++ i3 ++ n_open ++ escapeXml (name f) ++ n_close ++ nl ++ i3)
            ++ d_open ++ escapeXml (description f) ++ d_close
            ++ (locs_xml (file_locations f) ++ nl ++ i2))
      by (rewrite <- !app_assoc; reflexivity).
    apply read_element_text; [reflexivity|reflexivity|free_tac|].
    specialize (Hl d_open (or_intror (or_introl eq_refl))). free_tac. }
  rewrite En, Ed. unfold read_back, read_record, norm_locs.
  destruct (norm_text (name f)) as [|c n]; [reflexivity|].
  destruct (file_locations f) as [[|l locs]|]; try reflexivity.
  now destruct (map trim (filter (forallb dot) (l :: locs))).
Qed.

Lemma match_blocks F rest :
  free same f_open rest = true ->
  Regex.match_all any same f_open f_close (feature_blocks F ++ rest)
  = map feature_content F.
Proof.
  intros Hrest. induction F as [|f F IH].
  - cbn [feature_blocks map concat app]. rewrite match_all_unfold by (cbn; lia).
    now rewrite exec_none_free by (assumption || cbn; lia).
  - rewrite match_all_unfold by (cbn; lia).
    change (feature_blocks (f :: F)) with
      ((nl ++ i2 ++ f_open ++ feature_content f ++ f_close) ++ feature_blocks F).
    replace (((nl ++ i2 ++ f_open ++ feature_content f ++ f_close) ++ feature_blocks F) ++ rest)
      with ((nl ++ i2) ++ f_open ++ feature_content f ++ f_close ++ feature_blocks F ++ rest)
      by (rewrite <- !app_assoc; reflexivity).
    rewrite exec_element.
    + cbn [map]. now rewrite IH.
    + apply same_refl.
    + reflexivity.
    + apply free_feature_content; [now left|reflexivity|vm_compute; reflexivity].
    + apply forallb_any.
Qed.

Lemma match_section_body F :
  Regex.match_all any same f_open f_close (section_body F) = map feature_content F.
Proof.
  unfold section_body. destruct F as [|f F]; [vm_compute; reflexivity|].
  now apply match_blocks.
Qed.

Lemma filter_map_parse F :
  filter_map parse_feature (map feature_content F) = filter_map read_back F.
Proof.
  induction F as [|f F IH]; [reflexivity|]. cbn [map filter_map].
  now rewrite parse_written, IH.
Qed.

Lemma filter_map_storable F :
  forallb storable F = true -> filter_map read_back F = F.
Proof.
  induction F as [|f F IH]; [reflexivity|]. cbn [forallb filter_map].
  intros [Hf HF]%andb_true_iff. now rewrite read_back_storable, IH.
Qed.

Lemma section_body_nonempty F : exists c t, section_body F = c :: t.
Proof. destruct F as [|f F]; cbn; eauto. Qed.

(** The parser on a document whose first section, for the parser, is a
    written one. *)
Lemma extract_written pre F post :
  (forall k, k < length pre ->
             strip same_i sec_open (skipn k (pre ++ newSection F ++ post)) = None) ->
  extractImplementedFeatures (pre ++ newSection F ++ post) = filter_map read_back F.
Proof.
  intros Hpre. unfold extractImplementedFeatures, extractXmlSection.
  change (tag_open t_implemented_features) with sec_open.
  change (tag_close t_implemented_features) with sec_close.
  rewrite exec_skip_sem by (intros k Hk; apply match_here_no_open; auto).
  rewrite newSection_eq, <- !app_assoc.
  pose proof (@exec_element any same_i sec_open sec_close [] (section_body F) post
                same_i_refl eq_refl (free_section_body F) (forallb_any _)) as X.
  cbn [app] in X. rewrite X. cbn [shift_pre]. destruct (section_body_nonempty F) as (c & t & E).
  rewrite E, <- E. change (tag_open t_feature) with f_open.
  change (tag_close t_feature) with f_close.
  rewrite match_section_body. apply filter_map_parse.
Qed.

(** * The replacement string *)

Lemma get_substitution_plain m b a r :
  no_dollar r = true -> get_substitution m b a r = r.
Proof.
  unfold no_dollar. induction r as [|c r IH]; [reflexivity|]. cbn [forallb get_substitution].
  intros [Hc Hr]%andb_true_iff. apply negb_true_iff in Hc. rewrite Hc.
  now rewrite IH.
Qed.

Lemma no_dollar_app a b : no_dollar (a ++ b) = no_dollar a && no_dollar b.
Proof. apply forallb_app. Qed.

Ltac nd_tac :=
  repeat first
    [ assumption
    | rewrite no_dollar_app; apply andb_true_iff; split
    | reflexivity ].

Lemma no_dollar_loc_lines locs :
  forallb no_dollar locs = true -> no_dollar (loc_lines locs) = true.
Proof.
  unfold loc_lines. induction locs as [|l locs IH]; [reflexivity|].
  cbn [forallb map concat]. intros [Hl H]%andb_true_iff.
  apply escapeXml_no_dollar in Hl. specialize (IH H). nd_tac.
Qed.

Lemma no_dollar_content f : dollar_free f = true -> no_dollar (feature_content f) = true.
Proof.
  unfold dollar_free. intros H. apply andb_true_iff in H as [H Hfl].
  apply andb_true_iff in H as [Hn Hd].
  apply escapeXml_no_dollar in Hn, Hd.
  unfold feature_content, head_xml, locs_xml.
  destruct (file_locations f) as [[|l locs]|].
  - nd_tac.
  - apply no_dollar_loc_lines in Hfl. nd_tac.
  - nd_tac.
Qed.

Lemma no_dollar_blocks F :
  forallb dollar_free F = true -> no_dollar (feature_blocks F) = true.
Proof.
  unfold feature_blocks. induction F as [|f F IH]; [reflexivity|].
  cbn [forallb map concat]. intros [Hf H]%andb_true_iff.
  apply no_dollar_content in Hf. specialize (IH H). nd_tac.
Qed.

Lemma no_dollar_newSection F :
  forallb dollar_free F = true -> no_dollar (newSection F) = true.
Proof.
  intros H. rewrite newSection_eq. unfold section_body.
  destruct F as [|f F]; [reflexivity|]. apply no_dollar_blocks in H. nd_tac.
Qed.

(** * What a match of the writer's pattern says about the document *)

Lemma lazy_any_total eqc close s j :
  strip eqc close (skipn j s) <> None -> Regex.lazy_until any eqc close s <> None.
Proof.
  revert s. induction j as [|j IH]; intros s H.
  - cbn [skipn] in H. destruct (strip eqc close s) as [r|] eqn:E; [|congruence].
    now rewrite (lazy_here any eqc close s _ E).
  - destruct s as [|c s]; [cbn [skipn] in H|].
    + destruct (strip eqc close []) as [r|] eqn:E; [|congruence].
      now rewrite (lazy_here any eqc close [] _ E).
    + cbn [skipn] in H. specialize (IH s H). cbn [Regex.lazy_until].
      destruct (strip eqc close (c :: s)); [congruence|]. cbn [any].
      destruct (Regex.lazy_until any eqc close s) as [[? ?]|]; congruence.
Qed.

Lemma skipn_app_le {A} k (a b : list A) : k <= length a -> skipn k (a ++ b) = skipn k a ++ b.
Proof.
  intros H. rewrite skipn_app. replace (k - length a) with 0 by lia. reflexivity.
Qed.

Lemma skipn_app_ge {A} k (a b : list A) :
  length a <= k -> skipn k (a ++ b) = skipn (k - length a) b.
Proof. intros H. rewrite skipn_app, skipn_all2 by assumption. reflexivity. Qed.

Lemma skipn_length_app {A} (a b : list A) : skipn (length a) (a ++ b) = b.
Proof. rewrite skipn_app_le, skipn_all by lia. reflexivity. Qed.

Lemma strip_skipn eqc p s r : strip eqc p s = Some r -> skipn (length p) s = r.
Proof.
  revert s. induction p as [|a p IH]; intros s H; cbn in *.
  - now injection H.
  - destruct s as [|b s]; [discriminate|]. destruct (eqc a b); [|discriminate].
    now apply IH.
Qed.

(** A match of [open([\s\S]*?)close], exact or with the flag [i], starts
    at the first place at which [open] matches. *)
Lemma exec_any_find eqc open close s pre cap rest :
  Regex.exec any eqc open close s = Some (pre, cap, rest) ->
  find eqc open s = Some (length pre).
Proof.
  intros H. destruct (exec_sound _ _ _ _ _ _ _ _ H) as (t & -> & Ht & Hk).
  unfold Regex.match_here in Ht.
  destruct (strip eqc open t) as [r|] eqn:Er; [|discriminate].
  apply find_first; [rewrite skipn_length_app; congruence|].
  intros k Hlt. specialize (Hk k Hlt). unfold Regex.match_here in Hk.
  destruct (strip eqc open (skipn k (pre ++ t))) as [r'|] eqn:E; [|reflexivity].
  exfalso. revert Hk.
  destruct (lazy_sound _ _ _ _ _ _ Ht) as (u & -> & Hu & _).
  apply strip_skipn in E, Er. pose proof (length_skipn k (pre ++ t)) as Lk.
  apply (lazy_any_total eqc close r' (length pre - k + length cap)).
  rewrite <- E, !skipn_skipn.
  replace (length pre - k + length cap + length open + k)
    with (length cap + length open + length pre) by lia.
  rewrite <- !skipn_skipn, skipn_length_app, Er, skipn_length_app. congruence.
Qed.

(** The parts of a document on which the writer's pattern matches. *)
Lemma sectionRegex_parts d pre body post :
  sectionRegex_exec d = Some (pre, body, post) ->
  d = pre ++ sec_open ++ body ++ sec_close ++ post
  /\ find same sec_open d = Some (length pre)
  /\ (forall k, k < length body ->
        strip same sec_close (skipn k (body ++ sec_close ++ post)) = None).
Proof.
  unfold sectionRegex_exec. intros H. pose proof (exec_any_find _ _ _ _ _ _ _ H) as Hf.
  destruct (exec_sound _ _ _ _ _ _ _ _ H) as (t & -> & Ht & _).
  unfold Regex.match_here in Ht.
  destruct (strip same sec_open t) as [r|] eqn:Er; [|discriminate].
  apply strip_same in Er. subst t.
  destruct (lazy_sound _ _ _ _ _ _ Ht) as (u & -> & Hu & _ & Hk).
  apply strip_same in Hu. subst u. auto.
Qed.

(** * Writing a section and reading it back *)

Lemma wf_replace d pre body post :
  well_formed_or_absent d = true ->
  sectionRegex_exec d = Some (pre, body, post) ->
  forall k, k < length pre -> strip same_i sec_open (skipn k d) = None.
Proof.
  intros Hwf H. destruct (sectionRegex_parts _ _ _ _ H) as (_ & Hf & _).
  unfold well_formed_or_absent in Hwf. rewrite Hf in Hwf.
  destruct (find same_i sec_open d) as [i|] eqn:Hi; [|discriminate].
  apply andb_true_iff in Hwf as [Hij _]. apply Nat.eqb_eq in Hij. subst i.
  now apply find_some in Hi.
Qed.

Lemma wf_absent d :
  well_formed_or_absent d = true -> sectionRegex_exec d = None ->
  find same_i sec_open d = None.
Proof.
  unfold well_formed_or_absent, sectionRegex_test. intros Hwf H. rewrite H in Hwf.
  destruct (find same_i sec_open d), (find same sec_open d); try discriminate; trivial.
  now rewrite andb_false_r in Hwf.
Qed.

Lemma no_open_after_insert d n w W Z :
  find same_i sec_open d = None ->
  forallb (fun x => negb (same_i x w)) sec_open = true ->
  free same_i sec_open (w :: W) = true ->
  forall k, k < length (firstn n d ++ w :: W) ->
            strip same_i sec_open (skipn k ((firstn n d ++ w :: W) ++ Z)) = None.
Proof.
  intros Hd Hw Hf k Hk. rewrite <- app_assoc.
  destruct (Nat.lt_ge_cases k (length (firstn n d))) as [Hlt|Hge].
  - rewrite skipn_app_le by lia. change ((w :: W) ++ Z) with (w :: (W ++ Z)).
    apply strip_insert with (b := skipn n d); [assumption|].
    rewrite <- skipn_app_le by lia. rewrite firstn_skipn. now apply find_none.
  - rewrite skipn_app_ge by assumption. rewrite length_app in Hk.
    rewrite skipn_app_le by lia. apply free_skipn; [assumption|lia].
Qed.

Lemma update_replace d F pre body post :
  sectionRegex_exec d = Some (pre, body, post) -> forallb dollar_free F = true ->
  updateImplementedFeaturesSection d F = pre ++ newSection F ++ post.
Proof.
  intros H HF. unfold updateImplementedFeaturesSection. rewrite H.
  now rewrite get_substitution_plain by now apply no_dollar_newSection.
Qed.

(** What the parser finds after the writer has written any list of
    features without dollars: the records [read_back] gives, in order. *)
Lemma extract_update_read_back d F :
  well_formed_or_absent d = true -> has_place d = true -> forallb dollar_free F = true ->
  extractImplementedFeatures (updateImplementedFeaturesSection d F)
  = filter_map read_back F.
Proof.
  intros Hwf Hp HF.
  destruct (sectionRegex_exec d) as [[[pre body] post]|] eqn:Hx.
  - rewrite (update_replace _ _ _ _ _ Hx HF). apply extract_written.
    intros k Hk. pose proof (wf_replace _ _ _ _ Hwf Hx _ Hk) as Hs.
    destruct (sectionRegex_parts _ _ _ _ Hx) as (Hd & _). rewrite Hd in Hs.
    rewrite newSection_eq. rewrite skipn_app_le in * by lia.
    rewrite <- ?app_assoc. rewrite (app_assoc (skipn k pre) sec_open) in *.
    apply strip_long with (x := body ++ sec_close ++ post); [|assumption].
    rewrite length_app. lia.
  - pose proof (wf_absent _ Hwf Hx) as Hno.
    unfold has_place, sectionRegex_test in Hp. rewrite Hx in Hp. cbn [orb] in Hp.
    unfold updateImplementedFeaturesSection. rewrite Hx.
    destruct (indexOf coreCapabilitiesEnd d) as [i|].
    + replace (firstn (i + length coreCapabilitiesEnd) d ++ nl ++ nl ++ indent2
               ++ newSection F ++ skipn (i + length coreCapabilitiesEnd) d)
        with ((firstn (i + length coreCapabilitiesEnd) d ++ nl ++ nl ++ indent2)
              ++ newSection F ++ skipn (i + length coreCapabilitiesEnd) d)
        by (rewrite <- !app_assoc; reflexivity).
      apply extract_written. intros k Hk. now apply no_open_after_insert.
    + destruct (indexOf projectSpecEnd d) as [j|]; [|discriminate].
      replace (firstn j d ++ indent2 ++ newSection F ++ nl ++ skipn j d)
        with ((firstn j d ++ indent2) ++ newSection F ++ nl ++ skipn j d)
        by (rewrite <- !app_assoc; reflexivity).
      apply extract_written. intros k Hk. now apply no_open_after_insert.
Qed.

Lemma forallb_storable_dollar_free F :
  forallb storable F = true -> forallb dollar_free F = true.
Proof.
  induction F as [|f F IH]; [reflexivity|]. cbn [forallb].
  intros [Hf HF]%andb_true_iff. now rewrite storable_dollar_free, IH.
Qed.

(** The round trip through the writer and the parser. *)
Lemma extract_update d F :
  well_formed_or_absent d = true -> has_place d = true -> forallb storable F = true ->
  extractImplementedFeatures (updateImplementedFeaturesSection d F) = F.
Proof.
  intros Hwf Hp HF. rewrite extract_update_read_back; trivial.
  - now apply filter_map_storable.
  - now apply forallb_storable_dollar_free.
Qed.

(** * The wrappers *)

Lemma same_name_refl a : same_name a a = true.
Proof. apply str_eqb_refl. Qed.

Lemma update_noop d F : has_place d = false -> updateImplementedFeaturesSection d F = d.
Proof.
  unfold has_place, sectionRegex_test, updateImplementedFeaturesSection.
  destruct (sectionRegex_exec d) as [[[? ?] ?]|]; [discriminate|].
  destruct (indexOf coreCapabilitiesEnd d); [discriminate|].
  destruct (indexOf projectSpecEnd d); [discriminate|reflexivity].
Qed.

(** Where the parser finds a feature, a well-formed document has a
    section for the writer to replace. *)
Lemma features_place d :
  well_formed_or_absent d = true -> extractImplementedFeatures d <> [] ->
  has_place d = true.
Proof.
  intros Hwf He. unfold has_place.
  destruct (sectionRegex_test d) eqn:Ht; [reflexivity|exfalso]. apply He.
  unfold sectionRegex_test in Ht.
  destruct (sectionRegex_exec d) as [[[? ?] ?]|] eqn:Hx; [discriminate|].
  pose proof (wf_absent _ Hwf Hx) as Hno.
  unfold extractImplementedFeatures, extractXmlSection.
  change (tag_open t_implemented_features) with sec_open.
  change (tag_close t_implemented_features) with sec_close.
  destruct (Regex.exec any same_i sec_open sec_close d) as [[[? ?] ?]|] eqn:Hi;
    [|reflexivity].
  apply exec_any_find in Hi. congruence.
Qed.

Lemma existsb_place d n :
  well_formed_or_absent d = true -> hasImplementedFeature d n = true ->
  has_place d = true.
Proof.
  intros Hwf Hh. apply features_place; [assumption|]. unfold hasImplementedFeature in Hh.
  now destruct (extractImplementedFeatures d).
Qed.

Lemma filter_length_all {A} (p : A -> bool) l :
  length (filter p l) = length l -> filter p l = l.
Proof.
  induction l as [|x l IH]; [reflexivity|]. cbn. destruct (p x); cbn; intros H.
  - f_equal. apply IH. lia.
  - pose proof (filter_length_le p l). lia.
Qed.

Lemma filter_all_existsb {A} (p : A -> bool) l :
  filter (fun x => negb (p x)) l = l -> existsb p l = false.
Proof.
  induction l as [|x l IH]; [reflexivity|]. cbn. destruct (p x) eqn:E; cbn; intros H.
  - pose proof (filter_length_le (fun x => negb (p x)) l) as L.
    apply (f_equal (@length _)) in H. cbn in H. lia.
  - apply IH. congruence.
Qed.

Lemma existsb_filter_neg {A} (p : A -> bool) l :
  existsb p (filter (fun x => negb (p x)) l) = false.
Proof.
  induction l as [|x l IH]; [reflexivity|]. cbn. destruct (p x) eqn:E; cbn; [assumption|].
  now rewrite E, IH.
Qed.

Lemma forallb_filter {A} (q p : A -> bool) l :
  forallb q l = true -> forallb q (filter p l) = true.
Proof.
  induction l as [|x l IH]; [reflexivity|]. cbn. intros [Hx Hl]%andb_true_iff.
  destruct (p x); cbn; [rewrite Hx|]; auto.
Qed.

Lemma remove_cases d n :
  removeImplementedFeature d n =
  if hasImplementedFeature d n
  then updateImplementedFeaturesSection d
         (filter (fun f => negb (same_name (name f) n)) (extractImplementedFeatures d))
  else d.
Proof.
  unfold removeImplementedFeature, hasImplementedFeature.
  set (E := extractImplementedFeatures d).
  set (q := fun f => negb (same_name (name f) n)).
  destruct (Nat.eqb_spec (length (filter q E)) (length E)) as [H|H].
  - apply filter_length_all in H.
    now rewrite (filter_all_existsb (fun f => same_name (name f) n) E H).
  - destruct (existsb (fun f => same_name (name f) n) E) eqn:Hex; [reflexivity|].
    exfalso. apply H. f_equal.
    clear H. induction E as [|x E IH]; [reflexivity|]. cbn in *.
    apply orb_false_iff in Hex as [Hx Hex]. unfold q at 1. rewrite Hx. cbn.
    f_equal. now apply IH.
Qed.

Lemma storable_writable f : storable f = true -> writable f = true.
Proof.
  intros H. unfold writable. now rewrite storable_valid_name, storable_dollar_free.
Qed.

Lemma writable_merge f u :
  writable f = true -> writable_update u = true -> writable (merge_update f u) = true.
Proof.
  unfold writable, writable_update, dollar_free, merge_update.
  cbn [name description file_locations].
  rewrite !andb_true_iff. intros [Hv [[Hn Hd] Hl]] [[Hun Hud] Hul].
  destruct (u_name u) as [n|]; [apply andb_true_iff in Hun as [? ?]|];
    destruct (u_description u); destruct (u_file_locations u) as [[?|]|];
    repeat split; trivial.
Qed.

Lemma writable_map_update n u E :
  forallb writable E = true -> writable_update u = true ->
  forallb writable (map (update_one n u) E) = true.
Proof.
  intros HE Hu. induction E as [|f E IH]; [reflexivity|]. cbn [forallb map] in *.
  apply andb_true_iff in HE as [Hf HE]. rewrite (IH HE), andb_true_r.
  unfold update_one. destruct (same_name (name f) n); [|assumption].
  now apply writable_merge.
Qed.

Lemma forallb_impl {A} (p q : A -> bool) l :
  (forall x, p x = true -> q x = true) -> forallb p l = true -> forallb q l = true.
Proof.
  intros H. induction l as [|x l IH]; [reflexivity|]. cbn.
  intros [Hx Hl]%andb_true_iff. now rewrite (H x Hx), IH.
Qed.

Lemma map_update_none n u E :
  existsb (fun f => same_name (name f) n) E = false -> map (update_one n u) E = E.
Proof.
  induction E as [|f E IH]; [reflexivity|]. cbn. intros [Hf HE]%orb_false_iff.
  unfold update_one at 1. rewrite Hf. f_equal. now apply IH.
Qed.

(** What is read back of a merged record keeps the fields the update
    leaves out. *)
Lemma preserved_read_record u f :
  storable f = true -> preserved u f (read_record (merge_update f u)).
Proof.
  intros H. pose proof (read_record_storable f H) as E.
  unfold preserved, read_record, merge_update. cbn [name description file_locations].
  repeat split; intros ->.
  - exact (f_equal name E).
  - exact (f_equal description E).
  - exact (f_equal file_locations E).
Qed.

Lemma add_cases d f :
  addImplementedFeature d f =
  if hasImplementedFeature d (name f) then d
  else updateImplementedFeaturesSection d (extractImplementedFeatures d ++ [f]).
Proof. reflexivity. Qed.

Lemma update_cases d n u :
  updateImplementedFeature d n u =
  if hasImplementedFeature d n
  then updateImplementedFeaturesSection d
         (map (update_one n u) (extractImplementedFeatures d))
  else d.
Proof. reflexivity. Qed.

(** * Occurrences *)

Lemma strip_occurs p s k : strip same p (skipn k s) <> None <-> occurs_at p s k.
Proof.
  unfold occurs_at. split.
  - destruct (strip same p (skipn k s)) as [r|] eqn:E; [|now intros []].
    intros _. exists r. now apply strip_same.
  - intros [r Hr]. apply (proj2 (strip_same _ _ _)) in Hr. congruence.
Qed.

Lemma strip_none_occurs p s k : strip same p (skipn k s) = None <-> ~ occurs_at p s k.
Proof.
  rewrite <- strip_occurs. destruct (strip same p (skipn k s)); split; intros H;
    try congruence; try discriminate. exfalso. apply H. congruence.
Qed.



Lemma first_at_unique p s i j : first_at p s i -> first_at p s j -> i = j.
Proof.
  intros [Hi Hi'] [Hj Hj']. destruct (Nat.lt_trichotomy i j) as [H|[H|H]]; trivial.
  - now apply Hj' in H. 
  - now apply Hi' in H.
Qed.

(** The search finds a match whenever the pattern matches somewhere. *)
Lemma exec_complete cls eqc open close s k :
  Regex.match_here cls eqc open close (skipn k s) <> None ->
  Regex.exec cls eqc open close s <> None.
Proof.
  revert s. induction k as [|k IH]; intros s H.
  - cbn [skipn] in H. destruct s; cbn [Regex.exec];
      destruct (Regex.match_here cls eqc open close _) as [[? ?]|]; congruence.
  - destruct s as [|c s]; [cbn [skipn] in H|].
    + cbn [Regex.exec].
      destruct (Regex.match_here cls eqc open close []) as [[? ?]|]; congruence.
    + cbn [skipn] in H. specialize (IH s H). cbn [Regex.exec].
      destruct (Regex.match_here cls eqc open close (c :: s)) as [[? ?]|]; [congruence|].
      destruct (Regex.exec cls eqc open close s) as [[[? ?] ?]|]; congruence.
Qed.


(** * The policy of the writer *)

Lemma policy_has_section d pre body post :
  d = pre ++ sec_open ++ body ++ sec_close ++ post -> has_section d.
Proof. intros ->. now exists pre, body, post. Qed.

Lemma app_same_length {A} (a a' b b' : list A) :
  a ++ b = a' ++ b' -> length a = length a' -> a = a' /\ b = b'.
Proof.
  revert a'. induction a as [|x a IH]; intros [|y a'] H L; cbn in *; try discriminate.
  - auto.
  - injection H as -> H. destruct (IH a' H) as [-> ->]; [lia|auto].
Qed.

(** The policy names one result: no two rules apply to one document. *)
Lemma policy_deterministic d F r1 r2 : policy d F r1 -> policy d F r2 -> r1 = r2.
Proof.
  intros H1 H2.
  destruct H1 as [pre body post Hd Ho Hc|i Hn Hi|j Hn Ha Hj|Hn Ha Hb];
    destruct H2 as [pre' body' post' Hd' Ho' Hc'|i' Hn' Hi'|j' Hn' Ha' Hj'|Hn' Ha' Hb'];
    try (exfalso;
         solve [ eapply Hn, policy_has_section; eassumption
               | eapply Hn', policy_has_section; eassumption
               | destruct Hi as [Hi _]; eapply Ha', Hi
               | destruct Hi' as [Hi' _]; eapply Ha, Hi'
               | destruct Hj as [Hj _]; eapply Hb', Hj
               | destruct Hj' as [Hj' _]; eapply Hb, Hj' ]).
  - pose proof (first_at_unique _ _ _ _ Ho Ho') as L.
    rewrite Hd' in Hd. destruct (app_same_length _ _ _ _ Hd (eq_sym L)) as [-> Hr].
    apply app_inv_head in Hr. rewrite Hr in Hc'.
    pose proof (first_at_unique _ _ _ _ Hc Hc') as L'.
    destruct (app_same_length _ _ _ _ Hr (eq_sym L')) as [-> Hr'].
    apply app_inv_head in Hr'. now subst.
  - now rewrite (first_at_unique _ _ _ _ Hi Hi').
  - now rewrite (first_at_unique _ _ _ _ Hj Hj').
  - reflexivity.
Qed.

(** * Blocks the parser drops *)




(** * Text inserted into a document *)






(** * The scenarios of the specification, and the dollar *)

(** Restoring the ampersand last keeps an escaped entity text apart from
    an entity. *)
Example unescape_escaped_entity : unescapeXml (lit "&amp;lt;") = lit "&lt;".
Proof. reflexivity. Qed.

Example extract_unescapes_name :
  extractImplementedFeatures
    (lit "<implemented_features><feature><name>A &amp; B</name></feature></implemented_features>")
  = [mkFeature (lit "A & B") [] None].
Proof. vm_compute. reflexivity. Qed.

Example add_behind_core_capabilities :
  addImplementedFeature sample_doc sample_login
  = lit "<project_specification><core_capabilities>x</core_capabilities>"
    ++ nl ++ nl ++ indent2 ++ newSection [sample_login]
    ++ lit "</project_specification>"
  /\ extractImplementedFeatures (addImplementedFeature sample_doc sample_login)
     = [sample_login].
Proof. split; vm_compute; reflexivity. Qed.

Example remove_unknown_feature :
  removeImplementedFeature sample_doc2 (lit "Logout") = sample_doc2.
Proof. vm_compute. reflexivity. Qed.

(** [String.prototype.replace] reads the new section as a replacement
    pattern: in the branch that replaces a section, the two dollars of a
    name are written as one, while the branches that insert the section
    keep them. *)
Example dollar_in_replaced_section :
  extractImplementedFeatures
    (updateImplementedFeaturesSection
       (lit "<implemented_features></implemented_features>")
       [mkFeature (lit "$$") [] None])
  = [mkFeature (lit "$") [] None]
  /\ extractImplementedFeatures
       (updateImplementedFeaturesSection sample_doc [mkFeature (lit "$$") [] None])
     = [mkFeature (lit "$$") [] None].
Proof. split; vm_compute; reflexivity. Qed.

(** A description on two lines is written as it is and not found by the
    parser, which reads the empty description. *)
Example two_line_description :
  extractImplementedFeatures
    (updateImplementedFeaturesSection sample_doc
       [mkFeature (lit "a") (lit "x" ++ nl ++ lit "y") None])
  = [mkFeature (lit "a") [] None].
Proof. vm_compute. reflexivity. Qed.

(* ================================================================== *)
(** * The claims *)
(* ================================================================== *)

(** ** C1 *)

(** C1, as stated, fails: the document holds a well-formed (empty)
    section and the one feature has a unique name, but the name starts
    with a space, which the parser trims, so the list read back differs. *)
Lemma C1_counterexample :
  ~ (forall d F,
        unique_names F = true -> well_formed_or_absent d = true ->
        extractImplementedFeatures (updateImplementedFeaturesSection d F) = F).
Proof.
  intros H.
  specialize (H (lit "<implemented_features></implemented_features>")
                [mkFeature (lit " a") [] None] eq_refl eq_refl).
  vm_compute in H. discriminate H.
Qed.

(** C1, amended.  For every feature list [F] with names unique up to
    letter case whose records are [storable] (a non-empty name; name,
    description and locations on one line, without surrounding white
    space and without a dollar; locations absent or a non-empty list),
    and every document [d] that holds a well-formed section or none and
    offers a place for the section, reading back what the writer wrote
    gives [F], in the same order. *)
Theorem C1_roundtrip d F :
  unique_names F = true ->
  well_formed_or_absent d = true -> has_place d = true ->
  forallb storable F = true ->
  extractImplementedFeatures (updateImplementedFeaturesSection d F) = F.
Proof. intros _. apply extract_update. Qed.

Lemma C1_roundtrip_witness :
  extractImplementedFeatures
    (updateImplementedFeaturesSection sample_doc2 [sample_search; sample_export])
  = [sample_search; sample_export].
Proof. apply C1_roundtrip; vm_compute; reflexivity. Defined.

(** ** C2 *)

(** C2.  For every string of reserved characters, unescaping the
    escaped string gives the string back; [escapeXml] replaces the
    ampersand first, and [unescapeXml] restores it last. *)
Theorem C2_escape_roundtrip s :
  forallb reserved s = true ->
  unescapeXml (escapeXml s) = s
  /\ escapeXml s = escape_others (replaceAll [amp] e_amp s)
  /\ unescapeXml (escapeXml s) = replaceAll e_amp [amp] (unescape_others (escapeXml s)).
Proof. intros _. split; [apply unescapeXml_escapeXml|split; reflexivity]. Qed.

Lemma C2_escape_roundtrip_witness :
  unescapeXml (escapeXml sample_reserved) = sample_reserved.
Proof. apply (C2_escape_roundtrip sample_reserved). reflexivity. Defined.

(** ** C3 *)

(** C3, as stated, fails: a name that starts with a space is read back
    without it, so the second call does not see the feature the first
    call wrote and appends it again. *)
Lemma C3_counterexample :
  ~ (forall d f,
        addImplementedFeature (addImplementedFeature d f) f = addImplementedFeature d f).
Proof.
  intros H.
  specialize (H (lit "<implemented_features></implemented_features>")
                (mkFeature (lit " a") [] None)).
  vm_compute in H. discriminate H.
Qed.

(** C3, amended.  For a document that holds a well-formed section or
    none and whose parsed features hold no dollar, and a feature [f]
    with a valid name (not empty, on one line, without surrounding
    white space) and no dollar in its fields, adding [f] twice gives the
    document that adding it once gives.  For every document, the call
    returns the document unchanged when a parsed feature has the name
    of [f] up to letter case, and otherwise writes the parsed list with
    [f] appended at its end; where the writer finds a place, the new
    document holds that list, with [f] as the parser reads it back. *)
Theorem C3_add_idempotent d f :
  well_formed_or_absent d = true ->
  forallb dollar_free (extractImplementedFeatures d) = true ->
  valid_name (name f) = true -> dollar_free f = true ->
  addImplementedFeature (addImplementedFeature d f) f = addImplementedFeature d f
  /\ addImplementedFeature d f =
     (if hasImplementedFeature d (name f) then d
      else updateImplementedFeaturesSection d (extractImplementedFeatures d ++ [f]))
  /\ (hasImplementedFeature d (name f) = false -> has_place d = true ->
      extractImplementedFeatures (addImplementedFeature d f)
      = extractImplementedFeatures d ++ [read_record f]).
Proof.
  intros Hwf HE Hv Hf.
  assert (HF : forallb dollar_free (extractImplementedFeatures d ++ [f]) = true)
    by (rewrite forallb_app, HE; cbn; now rewrite Hf).
  apply extract_storable in HE.
  assert (Hx : has_place d = true ->
               extractImplementedFeatures
                 (updateImplementedFeaturesSection d (extractImplementedFeatures d ++ [f]))
               = extractImplementedFeatures d ++ [read_record f]).
  { intros Hp. rewrite extract_update_read_back by assumption.
    rewrite filter_map_app, filter_map_storable by assumption.
    cbn [filter_map]. now rewrite read_back_valid. }
  split; [|split; [apply add_cases|]].
  - rewrite (add_cases d f). destruct (hasImplementedFeature d (name f)) eqn:Hd.
    + now rewrite add_cases, Hd.
    + destruct (has_place d) eqn:Hp.
      * rewrite add_cases. unfold hasImplementedFeature. rewrite (Hx eq_refl).
        rewrite existsb_app. cbn [existsb read_record name].
        now rewrite (norm_text_valid _ Hv), same_name_refl, orb_true_r.
      * rewrite update_noop by assumption. now rewrite add_cases, Hd, update_noop.
  - intros Hd Hp. rewrite add_cases, Hd. now apply Hx.
Qed.

Lemma C3_add_idempotent_witness :
  addImplementedFeature (addImplementedFeature sample_doc2 sample_export) sample_export
  = addImplementedFeature sample_doc2 sample_export.
Proof.
  apply (C3_add_idempotent sample_doc2 sample_export); vm_compute; reflexivity.
Defined.

(** ** C4 *)

(** C4, as stated, fails: the extractor finds the section written in
    capitals, the writer's pattern does not, the document has no place
    for a new section, and the removal returns it unchanged. *)
Lemma C4_counterexample :
  ~ (forall d n, hasImplementedFeature (removeImplementedFeature d n) n = false).
Proof.
  intros H.
  specialize (H (lit "<IMPLEMENTED_FEATURES><feature><name>a</name></feature></IMPLEMENTED_FEATURES>")
                (lit "a")).
  vm_compute in H. discriminate H.
Qed.

(** C4, amended.  For a document that holds a well-formed section or
    none and whose parsed features hold no dollar, the feature is absent
    after its removal.  For every document, the removal returns the
    document unchanged when no parsed feature has the name up to letter
    case, and otherwise writes the parsed list without every feature
    that has it. *)
Theorem C4_remove_then_has d n :
  well_formed_or_absent d = true ->
  forallb dollar_free (extractImplementedFeatures d) = true ->
  hasImplementedFeature (removeImplementedFeature d n) n = false
  /\ removeImplementedFeature d n =
     (if hasImplementedFeature d n
      then updateImplementedFeaturesSection d
             (filter (fun f => negb (same_name (name f) n)) (extractImplementedFeatures d))
      else d).
Proof.
  intros Hwf HE. apply extract_storable in HE. split; [|apply remove_cases].
  rewrite remove_cases. destruct (hasImplementedFeature d n) eqn:Hd; [|assumption].
  unfold hasImplementedFeature. rewrite extract_update.
  - apply (existsb_filter_neg (fun f => same_name (name f) n)).
  - assumption.
  - now apply existsb_place with (n := n).
  - now apply forallb_filter.
Qed.

Lemma C4_remove_then_has_witness :
  hasImplementedFeature (removeImplementedFeature sample_doc2 (lit "LOGIN")) (lit "LOGIN")
  = false.
Proof.
  apply (C4_remove_then_has sample_doc2 (lit "LOGIN")); vm_compute; reflexivity.
Defined.

(** ** C5 *)

(** C5, as stated, fails: the update supplies the empty name, the block
    is written with an empty [<name>], and the parser drops it, so the
    matched feature is not in the resulting document at all. *)
Lemma C5_counterexample :
  ~ (forall d n u i f,
        nth_error (extractImplementedFeatures d) i = Some f ->
        same_name (name f) n = true ->
        exists f',
          nth_error (extractImplementedFeatures (updateImplementedFeature d n u)) i = Some f'
          /\ preserved u f f').
Proof.
  intros H.
  destruct (H (lit "<implemented_features><feature><name>a</name><description>x</description></feature></implemented_features>")
              (lit "a") (mkUpdate (Some []) None None) 0
              (mkFeature (lit "a") (lit "x") None) eq_refl eq_refl) as (f' & Hf & _).
  vm_compute in Hf. discriminate Hf.
Qed.

(** C5, amended.  For a document that holds a well-formed section or
    none and whose parsed features hold no dollar, and an update whose
    supplied name, if any, is valid (not empty, on one line, without
    surrounding white space) and whose supplied values hold no dollar:
    the call returns the document unchanged when no parsed feature has
    the name up to letter case; otherwise the resulting document holds
    the parsed features with the update merged into every match, as the
    parser reads them back, and a matched feature has, at its place in
    the resulting document, the value it had for every field the update
    leaves out, its name included. *)
Theorem C5_update_preserves d n u :
  well_formed_or_absent d = true ->
  forallb dollar_free (extractImplementedFeatures d) = true ->
  writable_update u = true ->
  (hasImplementedFeature d n = false -> updateImplementedFeature d n u = d)
  /\ extractImplementedFeatures (updateImplementedFeature d n u)
     = map (fun f => read_record (update_one n u f)) (extractImplementedFeatures d)
  /\ forall i f,
       nth_error (extractImplementedFeatures d) i = Some f ->
       same_name (name f) n = true ->
       exists f',
         nth_error (extractImplementedFeatures (updateImplementedFeature d n u)) i = Some f'
         /\ preserved u f f'.
Proof.
  intros Hwf HE Hu. apply extract_storable in HE.
  assert (HW : forallb writable (map (update_one n u) (extractImplementedFeatures d)) = true).
  { apply writable_map_update; [|assumption].
    revert HE. apply forallb_impl. apply storable_writable. }
  assert (Hx : extractImplementedFeatures (updateImplementedFeature d n u)
               = map (fun f => read_record (update_one n u f))
                     (extractImplementedFeatures d)).
  { rewrite <- (map_map (update_one n u) read_record).
    rewrite <- filter_map_read_back_valid
      by (revert HW; apply forallb_impl; unfold writable;
          now intros x [? _]%andb_true_iff).
    rewrite update_cases. destruct (hasImplementedFeature d n) eqn:Hd.
    - apply extract_update_read_back; [assumption| |].
      + now apply existsb_place with (n := n).
      + revert HW. apply forallb_impl. unfold writable.
        now intros x [_ ?]%andb_true_iff.
    - rewrite map_update_none by assumption. symmetry. now apply filter_map_storable. }
  split; [|split; [assumption|]].
  - intros Hd. now rewrite update_cases, Hd.
  - intros i f Hi Hn. exists (read_record (merge_update f u)). split.
    + rewrite Hx, nth_error_map, Hi. cbn. unfold update_one. now rewrite Hn.
    + apply preserved_read_record. rewrite forallb_forall in HE. apply HE.
      now apply nth_error_In in Hi.
Qed.

Lemma C5_update_preserves_witness :
  extractImplementedFeatures
    (updateImplementedFeature sample_doc2 (lit "a & b")
       (mkUpdate None (Some (lit " conjunction ")) None))
  = map (fun f => read_record
                    (update_one (lit "a & b")
                       (mkUpdate None (Some (lit " conjunction ")) None) f))
        (extractImplementedFeatures sample_doc2).
Proof.
  apply (C5_update_preserves sample_doc2 (lit "a & b")
           (mkUpdate None (Some (lit " conjunction ")) None));
    vm_compute; reflexivity.
Defined.

(** ** C6 *)


(** ** C7 *)


(** ** C8 *)



(** ** C9 *)



(** ** C10 *)

(** C10.  The writer changes nothing outside the affected span: when
    its pattern matches, the text before the first match and the text
    behind that match stay as they are around the replacement; otherwise
    the result is the document with a text inserted at one place (the
    empty text when no rule applies). *)
Theorem C10_frame d F :
  match sectionRegex_exec d with
  | Some (pre, body, post) =>
      d = pre ++ (sec_open ++ body ++ sec_close) ++ post
      /\ first_at sec_open d (length pre)
      /\ exists x, updateImplementedFeaturesSection d F = pre ++ x ++ post
  | None =>
      exists a x b, d = a ++ b /\ updateImplementedFeaturesSection d F = a ++ x ++ b
  end.
Proof.
  unfold updateImplementedFeaturesSection.
  destruct (sectionRegex_exec d) as [[[pre body] post]|] eqn:Hx.
  - destruct (sectionRegex_parts _ _ _ _ Hx) as (Hd & Hf & _). repeat split.
    + now rewrite <- !app_assoc.
    + now apply strip_occurs, find_some.
    + intros j Hj. apply strip_none_occurs. now apply find_some with (n := length pre).
    + eauto.
  - destruct (indexOf coreCapabilitiesEnd d) as [i|].
    + exists (firstn (i + length coreCapabilitiesEnd) d),
             (nl ++ nl ++ indent2 ++ newSection F),
             (skipn (i + length coreCapabilitiesEnd) d).
      split; [now rewrite firstn_skipn|now rewrite <- !app_assoc].
    + destruct (indexOf projectSpecEnd d) as [j|].
      * exists (firstn j d), (indent2 ++ newSection F ++ nl), (skipn j d).
        split; [now rewrite firstn_skipn|now rewrite <- !app_assoc].
      * exists d, [], []. now rewrite !app_nil_r.
Qed.

(* ================================================================== *)
(** * Further properties of the section editor *)
(* ================================================================== *)

(** ** Escaped text *)

Lemma escapeXml_cons c s : escapeXml (c :: s) = img 5 c ++ escapeXml s.
Proof. now rewrite !escapeXml_img. Qed.

Lemma escapeXml_app a b : escapeXml (a ++ b) = escapeXml a ++ escapeXml b.
Proof. rewrite !escapeXml_img. apply flat_map_app. Qed.

Lemma img_reserved c :
  (reserved c = false /\ img 5 c = [c])
  \/ (reserved c = true /\ exists t, img 5 c = amp :: t /\ In (amp :: t) entities
                                     /\ forallb (fun x => negb (reserved x)) t = true).
Proof.
  unfold img, reserved.
  destruct (Ascii.eqb_spec c amp) as [->|?];
    [right; split; [reflexivity|eexists; split; [reflexivity|split; [cbn; tauto|reflexivity]]]|].
  destruct (Ascii.eqb_spec c lt_) as [->|?];
    [right; split; [reflexivity|eexists; split; [reflexivity|split; [cbn; tauto|reflexivity]]]|].
  destruct (Ascii.eqb_spec c gt_) as [->|?];
    [right; split; [reflexivity|eexists; split; [reflexivity|split; [cbn; tauto|reflexivity]]]|].
  destruct (Ascii.eqb_spec c quot) as [->|?];
    [right; split; [reflexivity|eexists; split; [reflexivity|split; [cbn; tauto|reflexivity]]]|].
  destruct (Ascii.eqb_spec c apos) as [->|?];
    [right; split; [reflexivity|eexists; split; [reflexivity|split; [cbn; tauto|reflexivity]]]|].
  left. split; reflexivity.
Qed.

Lemma reserved_markup c : markup c = true -> reserved c = true.
Proof.
  unfold markup, reserved. destruct (Ascii.eqb c amp), (Ascii.eqb c lt_), (Ascii.eqb c gt_),
    (Ascii.eqb c quot), (Ascii.eqb c apos); cbn; congruence.
Qed.

Lemma escapeXml_no_markup s : forallb (fun c => negb (markup c)) (escapeXml s) = true.
Proof.
  rewrite escapeXml_img. apply forallb_flat_map. intros c _.
  destruct (img_reserved c) as [[Hr ->]|[_ (t & -> & _ & Ht)]].
  - cbn. destruct (markup c) eqn:E; [apply reserved_markup in E; congruence|reflexivity].
  - cbn [forallb]. rewrite andb_true_iff. split; [reflexivity|].
    revert Ht. apply forallb_impl. intros x Hx.
    destruct (markup x) eqn:E; [apply reserved_markup in E; now rewrite E in Hx|reflexivity].
Qed.

Lemma escapeXml_entity s a b :
  escapeXml s = a ++ amp :: b -> exists e r, In e entities /\ amp :: b = e ++ r.
Proof.
  revert a. induction s as [|c s IH]; intros a H.
  - destruct a; discriminate.
  - rewrite escapeXml_cons in H.
    destruct (img_reserved c) as [[Hr E]|[_ (t & E & Hin & Ht)]]; rewrite E in H.
    + destruct a as [|x a]; cbn [app] in H.
      * injection H as -> _. discriminate.
      * injection H as _ H. eauto.
    + destruct a as [|x a]; cbn [app] in H.
      * injection H as <-. exists (amp :: t), (escapeXml s). auto.
      * injection H as <- H.
        assert (G : forall t a, forallb (fun x => negb (reserved x)) t = true ->
                      t ++ escapeXml s = a ++ amp :: b ->
                      exists a', escapeXml s = a' ++ amp :: b).
        { clear. induction t as [|y t IHt]; intros a Ht H; [eauto|].
          cbn [forallb] in Ht. apply andb_true_iff in Ht as [Hy Ht].
          destruct a as [|x a]; cbn [app] in H.
          - injection H as -> _. discriminate.
          - injection H as _ H. eauto. }
        destruct (G _ _ Ht H) as (a' & Ha'). eauto.
Qed.

Lemma escapeXml_fixed s :
  escapeXml s = s <-> forallb (fun c => negb (reserved c)) s = true.
Proof.
  split.
  - intros H. pose proof (f_equal (@length _) H) as L. clear H.
    assert (G : forall s, length s <= length (escapeXml s)
                          /\ (length (escapeXml s) = length s ->
                              forallb (fun c => negb (reserved c)) s = true)).
    { clear. induction s as [|c s [IH1 IH2]]; [split; trivial|].
      rewrite escapeXml_cons, length_app.
      destruct (img_reserved c) as [[Hr ->]|[Hr (t & -> & Hin & _)]].
      - cbn. rewrite Hr. cbn. split; [lia|]. intros E. apply IH2. lia.
      - assert (2 <= length (amp :: t)).
        { destruct Hin as [<-|[<-|[<-|[<-|[<-|[]]]]]]; cbn; lia. }
        split; [cbn [length] in *; lia|]. cbn [length] in *. lia. }
    now apply G.
  - intros H. induction s as [|c s IH]; [reflexivity|].
    cbn [forallb] in H. apply andb_true_iff in H as [Hc Hs].
    rewrite escapeXml_cons, (IH Hs).
    destruct (img_reserved c) as [[_ ->]|[Hr _]]; [reflexivity|].
    now rewrite Hr in Hc.
Qed.

(** ** A section found by [extractXmlSection] *)

Lemma strip_split eqc p s r :
  strip eqc p s = Some r ->
  exists o, s = o ++ r /\ strip eqc p o = Some [] /\ length o = length p.
Proof.
  revert s. induction p as [|a p IH]; intros s H; cbn [strip] in H.
  - injection H as ->. now exists [].
  - destruct s as [|b s]; [discriminate|]. destruct (eqc a b) eqn:E; [|discriminate].
    destruct (IH _ H) as (o & -> & Ho & Hl). exists (b :: o). cbn [strip app length].
    now rewrite E, Ho, Hl.
Qed.

(** Where the pattern fails although its opening literal matches, no
    closing literal follows. *)
Lemma match_here_none_close eqc open close s k j :
  Regex.match_here any eqc open close (skipn k s) = None ->
  strip eqc open (skipn k s) <> None ->
  k + length open <= j -> strip eqc close (skipn j s) = None.
Proof.
  unfold Regex.match_here. intros H Ho Hj.
  destruct (strip eqc open (skipn k s)) as [r|] eqn:E; [clear Ho|congruence].
  apply strip_skipn in E. rewrite skipn_skipn in E.
  destruct (strip eqc close (skipn j s)) as [x|] eqn:Ec; [exfalso|reflexivity].
  revert H. apply lazy_any_total with (j := j - (length open + k)).
  rewrite <- E, skipn_skipn.
  replace (j - (length open + k) + (length open + k)) with j by lia. congruence.
Qed.

Lemma section_found d tagName body :
  extractXmlSection d tagName = Some body ->
  exists pre o c post,
    d = pre ++ o ++ body ++ c ++ post
    /\ strip same_i (tag_open tagName) o = Some []
    /\ strip same_i (tag_close tagName) c = Some []
    /\ (forall k, k < length body ->
                  ~ occurs_i (tag_close tagName) (body ++ c ++ post) k)
    /\ (forall k j, k < length pre -> occurs_i (tag_open tagName) d k ->
                    k + length (tag_open tagName) <= j ->
                    ~ occurs_i (tag_close tagName) d j).
Proof.
  unfold extractXmlSection. intros H.
  destruct (Regex.exec any same_i (tag_open tagName) (tag_close tagName) d)
    as [[[pre cap] post]|] eqn:Hx; [|discriminate].
  injection H as ->.
  destruct (exec_sound _ _ _ _ _ _ _ _ Hx) as (t & Hd & Hm & Hpre).
  unfold Regex.match_here in Hm.
  destruct (strip same_i (tag_open tagName) t) as [r|] eqn:Eo; [|discriminate].
  destruct (strip_split _ _ _ _ Eo) as (o & -> & Ho & _).
  destruct (lazy_sound _ _ _ _ _ _ Hm) as (t' & -> & Hc & _ & Hfirst).
  destruct (strip_split _ _ _ _ Hc) as (c & -> & Hc' & _).
  exists pre, o, c, post. repeat split; trivial.
  - intros k Hk. unfold occurs_i. now rewrite Hfirst.
  - intros k j Hk Hok Hj. unfold occurs_i in *.
    rewrite (match_here_none_close same_i (tag_open tagName) (tag_close tagName) d k j);
      auto.
Qed.

Lemma section_not_found d tagName :
  extractXmlSection d tagName = None ->
  forall k j, occurs_i (tag_open tagName) d k -> k + length (tag_open tagName) <= j ->
              ~ occurs_i (tag_close tagName) d j.
Proof.
  unfold extractXmlSection. intros H k j Hk Hj.
  destruct (Regex.exec any same_i (tag_open tagName) (tag_close tagName) d)
    as [[[pre cap] post]|] eqn:Hx; [discriminate|].
  unfold occurs_i in *.
  rewrite (match_here_none_close same_i (tag_open tagName) (tag_close tagName) d k j);
    auto.
  destruct (Regex.match_here any same_i (tag_open tagName) (tag_close tagName) (skipn k d))
    as [[? ?]|] eqn:E; [exfalso|reflexivity].
  revert Hx. apply exec_complete with (k := k). congruence.
Qed.

(** ** Elements written for [extractXmlElements] *)

Lemma tag_char_plain c :
  tag_char c = true -> Ascii.eqb lt_ c = false /\ Ascii.eqb c "/"%char = false.
Proof.
  destruct c as [[] [] [] [] [] [] [] []]; vm_compute; intros H;
    (discriminate H || (split; reflexivity)).
Qed.

Lemma tag_no_lt tagName :
  tag_name_ok tagName = true ->
  forallb (fun c => negb (same lt_ c)) (tagName ++ [gt_]) = true.
Proof.
  intros H. rewrite forallb_app. rewrite andb_true_iff. split; [|reflexivity].
  revert H. apply forallb_impl. intros c Hc. unfold same.
  now destruct (tag_char_plain c Hc) as [-> _].
Qed.

Lemma free_tag_close tagName :
  tag_name_ok tagName = true ->
  free same (tag_open tagName) (tag_close tagName) = true.
Proof.
  intros H. unfold tag_open, tag_close. cbn [app free]. rewrite andb_true_iff. split.
  - cbn [mismatch]. unfold same at 1. cbn [Ascii.eqb Bool.eqb andb].
    destruct tagName as [|c t]; [reflexivity|]. cbn [app mismatch].
    cbn [tag_name_ok forallb] in H. apply andb_true_iff in H as [Hc _].
    unfold same. now destruct (tag_char_plain c Hc) as [_ ->].
  - rewrite andb_true_iff. split; [reflexivity|].
    apply free_head with (h := lt_); [reflexivity|]. now apply tag_no_lt.
Qed.

Lemma match_elements sep tagName values :
  tag_name_ok tagName = true -> forallb (fun c => negb (same lt_ c)) sep = true ->
  Regex.match_all dot same (tag_open tagName) (tag_close tagName)
    (elements_xml sep tagName values)
  = map escapeXml (filter (forallb dot) values).
Proof.
  intros Ht Hsep. unfold elements_xml.
  assert (Hfs : free same (tag_open tagName) sep = true)
    by (apply free_head with (h := lt_); [reflexivity|assumption]).
  assert (Hlen : 0 < length (tag_open tagName)) by (unfold tag_open; cbn; lia).
  induction values as [|v values IH].
  - cbn [map concat app filter]. rewrite match_all_unfold by assumption.
    now rewrite exec_none_free by assumption.
  - rewrite match_all_unfold by assumption. cbn [map concat].
    rewrite <- !app_assoc.
    rewrite read_element_or_skip; [|reflexivity|reflexivity|assumption|].
    + cbn [filter]. destruct (forallb dot v).
      * cbn [map]. now rewrite IH.
      * rewrite <- IH.
        rewrite (match_all_unfold dot same (tag_open tagName) (tag_close tagName))
          by assumption.
        now destruct (Regex.exec dot same (tag_open tagName) (tag_close tagName) _)
          as [[[? ?] ?]|].
    + unfold tag_open at 2. cbn [app tl]. apply free_app.
      * apply free_head with (h := lt_); [reflexivity|]. now apply tag_no_lt.
      * apply free_app; [now apply free_escaped; [left|]|now apply free_tag_close].
Qed.

Lemma extract_elements sep tagName values :
  tag_name_ok tagName = true -> forallb (fun c => negb (same lt_ c)) sep = true ->
  extractXmlElements (elements_xml sep tagName values) tagName
  = map trim (filter (forallb dot) values).
Proof.
  intros Ht Hsep. unfold extractXmlElements. rewrite match_elements by assumption.
  rewrite map_map. apply map_ext. intros v. apply read_escaped.
Qed.

(** ** What the parser returns *)

Lemma tidy_nil : tidy [].
Proof. split; reflexivity. Qed.

Lemma elements_tidy sec tagName : Forall tidy (extractXmlElements sec tagName).
Proof.
  unfold extractXmlElements, Regex.match_all.
  set (ms := Regex.match_all_fuel _ _ _ _ _ _).
  assert (Hm : forall m, In m ms -> forallb dot m = true)
    by (intros m; apply match_all_fuel_captures).
  clearbody ms. induction ms as [|m ms IH]; [constructor|].
  cbn [map]. constructor.
  - apply parsed_field, Hm. now left.
  - apply IH. intros x Hx. apply Hm. now right.
Qed.

Lemma parse_feature_tidy b f :
  parse_feature b = Some f ->
  name f <> [] /\ tidy (name f) /\ tidy (description f)
  /\ match file_locations f with
     | None => True
     | Some locs => locs <> [] /\ Forall tidy locs
     end.
Proof.
  unfold parse_feature.
  destruct (Regex.exec dot same (tag_open t_name) (tag_close t_name) b)
    as [[[? m] ?]|] eqn:En; [|discriminate].
  assert (Hn : forallb dot m = true) by now apply exec_capture in En.
  destruct (unescapeXml (trim m)) as [|c n] eqn:Ename; [discriminate|].
  intros [= <-]. cbn [name description file_locations]. repeat split.
  - discriminate.
  - rewrite <- Ename. now apply parsed_field.
  - rewrite <- Ename. now apply parsed_field.
  - destruct (Regex.exec dot same (tag_open t_description) (tag_close t_description) b)
      as [[[? m'] ?]|] eqn:Ed; [|reflexivity].
    apply parsed_field. now apply exec_capture in Ed.
  - destruct (Regex.exec dot same (tag_open t_description) (tag_close t_description) b)
      as [[[? m'] ?]|] eqn:Ed; [|reflexivity].
    apply parsed_field. now apply exec_capture in Ed.
  - destruct (extractXmlSection b t_file_locations) as [[|x sec]|]; trivial.
    destruct (extractXmlElements (x :: sec) t_location) as [|l ls] eqn:El; trivial.
    split; [discriminate|]. rewrite <- El. apply elements_tidy.
Qed.

(** ** The wrappers as operations on the list of features *)

Lemma same_name_eq a b : same_name a b = true <-> toLowerCase a = toLowerCase b.
Proof. apply str_eqb_eq. Qed.

Lemma same_name_sym a b : same_name a b = same_name b a.
Proof.
  destruct (same_name a b) eqn:E, (same_name b a) eqn:E'; trivial.
  - apply same_name_eq in E. symmetry in E. apply same_name_eq in E. congruence.
  - apply same_name_eq in E'. symmetry in E'. apply same_name_eq in E'. congruence.
Qed.

Lemma same_name_trans a b c :
  same_name a b = true -> same_name b c = true -> same_name a c = true.
Proof. rewrite !same_name_eq. congruence. Qed.

Lemma same_name_right a b c : same_name b c = true -> same_name a b = same_name a c.
Proof.
  intros H. destruct (same_name a b) eqn:E, (same_name a c) eqn:E'; trivial.
  - rewrite (same_name_trans _ _ _ E H) in E'. discriminate.
  - rewrite same_name_sym in H. rewrite (same_name_trans _ _ _ E' H) in E. discriminate.
Qed.

Lemma filter_none_existsb {A} (p : A -> bool) l :
  existsb p l = false -> filter (fun x => negb (p x)) l = l.
Proof.
  induction l as [|x l IH]; [reflexivity|]. cbn. intros [Hx Hl]%orb_false_iff.
  rewrite Hx. cbn. now rewrite IH.
Qed.

Lemma extract_remove d n :
  well_formed_or_absent d = true ->
  forallb dollar_free (extractImplementedFeatures d) = true ->
  extractImplementedFeatures (removeImplementedFeature d n)
  = filter (fun f => negb (same_name (name f) n)) (extractImplementedFeatures d).
Proof.
  intros Hwf HE. apply extract_storable in HE. rewrite remove_cases.
  destruct (hasImplementedFeature d n) eqn:Hd.
  - apply extract_update; [assumption| |now apply forallb_filter].
    now apply existsb_place with (n := n).
  - symmetry. now apply (filter_none_existsb (fun f => same_name (name f) n)).
Qed.

Lemma extract_add d f :
  well_formed_or_absent d = true ->
  forallb dollar_free (extractImplementedFeatures d) = true ->
  valid_name (name f) = true -> dollar_free f = true ->
  extractImplementedFeatures (addImplementedFeature d f)
  = if hasImplementedFeature d (name f) || negb (has_place d)
    then extractImplementedFeatures d
    else extractImplementedFeatures d ++ [read_record f].
Proof.
  intros Hwf HE Hv Hf. pose proof (extract_storable _ HE) as HS. rewrite add_cases.
  destruct (hasImplementedFeature d (name f)) eqn:Hd; [reflexivity|]. cbn [orb].
  destruct (has_place d) eqn:Hp; cbn [negb].
  - rewrite extract_update_read_back; trivial.
    + rewrite filter_map_app, filter_map_storable by assumption.
      cbn [filter_map]. now rewrite read_back_valid.
    + rewrite forallb_app. cbn [forallb]. now rewrite HE, Hf.
  - now rewrite update_noop.
Qed.

Lemma existsb_same_filter m n (E : list ImplementedFeature) :
  existsb (fun f => same_name (name f) m)
          (filter (fun f => negb (same_name (name f) n)) E)
  = existsb (fun f => same_name (name f) m) E && negb (same_name n m).
Proof.
  induction E as [|f E IH]; [reflexivity|]. cbn [filter existsb].
  destruct (same_name (name f) n) eqn:En; cbn [negb].
  - rewrite IH. destruct (same_name (name f) m) eqn:Em; [|reflexivity]. cbn [orb].
    rewrite same_name_sym in En. rewrite (same_name_trans _ _ _ En Em).
    cbn. now rewrite andb_false_r.
  - cbn [existsb]. rewrite IH. destruct (same_name (name f) m) eqn:Em; [|reflexivity].
    cbn [orb]. destruct (same_name n m) eqn:Enm; [|reflexivity].
    rewrite same_name_sym in Enm. rewrite (same_name_trans _ _ _ Em Enm) in En.
    discriminate.
Qed.

Lemma name_read_record f : valid_name (name f) = true -> name (read_record f) = name f.
Proof. intros H. unfold read_record. cbn [name]. now apply norm_text_valid. Qed.

(** ** Names stay unique *)

Lemma unique_names_filter p E :
  unique_names E = true -> unique_names (filter p E) = true.
Proof.
  induction E as [|f E IH]; [reflexivity|]. cbn [unique_names filter].
  intros [H1 H2]%andb_true_iff. destruct (p f); [|auto].
  cbn [unique_names]. rewrite (IH H2), andb_true_r.
  apply negb_true_iff in H1. apply negb_true_iff.
  clear -H1. induction E as [|g E IH]; [reflexivity|]. cbn [existsb filter] in *.
  apply orb_false_iff in H1 as [Hg HE]. destruct (p g); cbn [existsb]; [rewrite Hg|]; auto.
Qed.

Lemma unique_names_snoc E g :
  unique_names E = true ->
  existsb (fun f => same_name (name f) (name g)) E = false ->
  unique_names (E ++ [g]) = true.
Proof.
  induction E as [|f E IH]; [reflexivity|]. cbn [unique_names existsb app].
  intros [H1 H2]%andb_true_iff [Hf HE]%orb_false_iff.
  rewrite (IH H2 HE), andb_true_r. apply negb_true_iff in H1. apply negb_true_iff.
  rewrite existsb_app, H1. cbn [existsb orb]. rewrite orb_false_r.
  now rewrite same_name_sym.
Qed.

(** ** A second write *)

Lemma strip_same_i p s : strip same_i p s = None -> strip same p s = None.
Proof.
  revert s. induction p as [|a p IH]; intros [|b s] H; cbn [strip] in *; trivial.
  unfold same at 1. unfold same_i in H at 1.
  destruct (Ascii.eqb_spec a b) as [->|?]; [|reflexivity].
  rewrite Ascii.eqb_refl in H. auto.
Qed.

Lemma free_section_body_same F : free same sec_close (section_body F) = true.
Proof.
  unfold section_body. apply free_app; [|vm_compute; reflexivity].
  destruct F as [|f F]; [vm_compute; reflexivity|].
  apply free_feature_blocks; [now left|reflexivity|vm_compute; reflexivity].
Qed.

(** The writer's pattern on a document whose first section is a written
    one. *)
Lemma sectionRegex_written pre F post :
  (forall k, k < length pre ->
             strip same_i sec_open (skipn k (pre ++ newSection F ++ post)) = None) ->
  sectionRegex_exec (pre ++ newSection F ++ post) = Some (pre, section_body F, post).
Proof.
  intros Hpre. unfold sectionRegex_exec.
  rewrite exec_skip_sem
    by (intros k Hk; apply match_here_no_open; apply strip_same_i; auto).
  rewrite newSection_eq, <- !app_assoc.
  pose proof (@exec_element any same sec_open sec_close [] (section_body F) post
                same_refl eq_refl (free_section_body_same F) (forallb_any _)) as X.
  cbn [app] in X. rewrite X. cbn [shift_pre]. now rewrite app_nil_r.
Qed.

(** The shape of what the writer returns when one of its first three
    rules applies: the same text around the new section for every list,
    with no opening tag in front of the section. *)
Lemma update_shape d :
  well_formed_or_absent d = true -> has_place d = true ->
  exists P Q,
    (forall F, forallb dollar_free F = true ->
               updateImplementedFeaturesSection d F = P ++ newSection F ++ Q)
    /\ (forall F k, k < length P ->
                    strip same_i sec_open (skipn k (P ++ newSection F ++ Q)) = None).
Proof.
  intros Hwf Hp.
  destruct (sectionRegex_exec d) as [[[pre body] post]|] eqn:Hx.
  - exists pre, post. split.
    + intros F HF. now apply update_replace with (body := body).
    + intros F k Hk. pose proof (wf_replace _ _ _ _ Hwf Hx _ Hk) as Hs.
      destruct (sectionRegex_parts _ _ _ _ Hx) as (Hd & _). rewrite Hd in Hs.
      rewrite newSection_eq. rewrite skipn_app_le in * by lia.
      rewrite <- ?app_assoc. rewrite (app_assoc (skipn k pre) sec_open) in *.
      apply strip_long with (x := body ++ sec_close ++ post); [|assumption].
      rewrite length_app. lia.
  - pose proof (wf_absent _ Hwf Hx) as Hno.
    unfold has_place, sectionRegex_test in Hp. rewrite Hx in Hp. cbn [orb] in Hp.
    unfold updateImplementedFeaturesSection. rewrite Hx.
    destruct (indexOf coreCapabilitiesEnd d) as [i|].
    + exists (firstn (i + length coreCapabilitiesEnd) d ++ nl ++ nl ++ indent2),
             (skipn (i + length coreCapabilitiesEnd) d). split.
      * intros F _. now rewrite <- !app_assoc.
      * intros F k Hk. now apply no_open_after_insert.
    + destruct (indexOf projectSpecEnd d) as [j|]; [|discriminate].
      exists (firstn j d ++ indent2), (nl ++ skipn j d). split.
      * intros F _. now rewrite <- !app_assoc.
      * intros F k Hk. rewrite (app_assoc (newSection F)). now apply no_open_after_insert.
Qed.

Lemma update_update d F G :
  well_formed_or_absent d = true ->
  forallb dollar_free F = true -> forallb dollar_free G = true ->
  updateImplementedFeaturesSection (updateImplementedFeaturesSection d F) G
  = updateImplementedFeaturesSection d G.
Proof.
  intros Hwf HF HG. destruct (has_place d) eqn:Hp.
  - destruct (update_shape d Hwf Hp) as (P & Q & Hu & Hno).
    rewrite (Hu F HF), (Hu G HG).
    apply update_replace with (body := section_body F); [|assumption].
    apply sectionRegex_written. intros k Hk. now apply Hno.
  - now rewrite !update_noop by (trivial; now rewrite update_noop).
Qed.

(** ** The conversions on any list *)

Lemma nonempty_only_ok l : absent_or_nonempty (nonempty_only l) = true.
Proof. now destruct l as [[|? ?]|]. Qed.

Lemma nonempty_only_idem l : nonempty_only (nonempty_only l) = nonempty_only l.
Proof. now destruct l as [[|? ?]|]. Qed.

(** ** Names and lookups *)

Lemma lower_char_idem c : lower_char (lower_char c) = lower_char c.
Proof. revert c. by_cases_on_char. Qed.

Lemma toLowerCase_idem s : toLowerCase (toLowerCase s) = toLowerCase s.
Proof.
  unfold toLowerCase. rewrite map_map. apply map_ext. apply lower_char_idem.
Qed.

Lemma existsb_pointwise {A} (p q : A -> bool) l :
  (forall x, p x = q x) -> existsb p l = existsb q l.
Proof. intros H. induction l as [|x l IH]; [reflexivity|]. cbn. now rewrite H, IH. Qed.

(** ** Dollars in a document without a section *)

(** The two rules that insert a section do not go through
    [String.prototype.replace]. *)
Lemma extract_insert_read_back d F :
  well_formed_or_absent d = true -> sectionRegex_test d = false -> has_place d = true ->
  extractImplementedFeatures (updateImplementedFeaturesSection d F)
  = filter_map read_back F.
Proof.
  intros Hwf Ht Hp. unfold sectionRegex_test in Ht.
  destruct (sectionRegex_exec d) as [[[pre body] post]|] eqn:Hx; [discriminate|].
  pose proof (wf_absent _ Hwf Hx) as Hno.
  unfold has_place, sectionRegex_test in Hp. rewrite Hx in Hp. cbn [orb] in Hp.
  unfold updateImplementedFeaturesSection. rewrite Hx.
  destruct (indexOf coreCapabilitiesEnd d) as [i|].
  - replace (firstn (i + length coreCapabilitiesEnd) d ++ nl ++ nl ++ indent2
             ++ newSection F ++ skipn (i + length coreCapabilitiesEnd) d)
      with ((firstn (i + length coreCapabilitiesEnd) d ++ nl ++ nl ++ indent2)
            ++ newSection F ++ skipn (i + length coreCapabilitiesEnd) d)
      by (rewrite <- !app_assoc; reflexivity).
    apply extract_written. intros k Hk. now apply no_open_after_insert.
  - destruct (indexOf projectSpecEnd d) as [j|]; [|discriminate].
    replace (firstn j d ++ indent2 ++ newSection F ++ nl ++ skipn j d)
      with ((firstn j d ++ indent2) ++ newSection F ++ nl ++ skipn j d)
      by (rewrite <- !app_assoc; reflexivity).
    apply extract_written. intros k Hk. now apply no_open_after_insert.
Qed.

(** ** The names after an update *)

Lemma extract_updateFeature d n u :
  well_formed_or_absent d = true ->
  forallb dollar_free (extractImplementedFeatures d) = true ->
  writable_update u = true ->
  extractImplementedFeatures (updateImplementedFeature d n u)
  = map (fun f => read_record (update_one n u f)) (extractImplementedFeatures d).
Proof.
  intros Hwf HE Hu. apply extract_storable in HE.
  assert (HW : forallb writable (map (update_one n u) (extractImplementedFeatures d)) = true).
  { apply writable_map_update; [|assumption].
    revert HE. apply forallb_impl. apply storable_writable. }
  rewrite <- (map_map (update_one n u) read_record).
  rewrite <- filter_map_read_back_valid
    by (revert HW; apply forallb_impl; unfold writable;
        now intros x [? _]%andb_true_iff).
  rewrite update_cases. destruct (hasImplementedFeature d n) eqn:Hd.
  - apply extract_update_read_back; [assumption| |].
    + now apply existsb_place with (n := n).
    + revert HW. apply forallb_impl. unfold writable.
      now intros x [_ ?]%andb_true_iff.
  - rewrite map_update_none by assumption. symmetry. now apply filter_map_storable.
Qed.

Lemma name_after_update n u f :
  storable f = true -> writable_update u = true ->
  name (read_record (update_one n u f))
  = if same_name (name f) n
    then match u_name u with Some n' => n' | None => name f end
    else name f.
Proof.
  intros Hf Hu. pose proof (storable_writable f Hf) as Hw.
  unfold update_one. destruct (same_name (name f) n).
  - rewrite name_read_record.
    + unfold merge_update. cbn [name]. now destruct (u_name u).
    + apply (writable_merge f u Hw) in Hu. unfold writable in Hu.
      now apply andb_true_iff in Hu as [? _].
  - apply name_read_record. now apply storable_valid_name.
Qed.

(** X1.  For every string, unescaping the escaped string gives the
    string back: [escapeXml] loses nothing, whatever the string holds,
    entities included. *)
Theorem X1_unescape_escape s : unescapeXml (escapeXml s) = s.
Proof. apply unescapeXml_escapeXml. Qed.

(** X2.  Escaped text holds none of the characters [<], [>], the double
    quote and the apostrophe, and every ampersand in it starts one of the
    five entities. *)
Theorem X2_escaped_text s :
  forallb (fun c => negb (markup c)) (escapeXml s) = true
  /\ forall a b, escapeXml s = a ++ amp :: b ->
                 exists e r, In e entities /\ amp :: b = e ++ r.
Proof. split; [apply escapeXml_no_markup|apply escapeXml_entity]. Qed.

(** X3.  [escapeXml] works character by character: the escaped
    concatenation is the concatenation of the escaped parts, the result
    is never shorter than the input, and it is the input exactly when the
    input holds none of the five reserved characters.  The absent value
    is escaped to the empty string. *)
Theorem X3_escape_concat a b :
  escapeXml (a ++ b) = escapeXml a ++ escapeXml b
  /\ length a <= length (escapeXml a)
  /\ (escapeXml a = a <-> forallb (fun c => negb (reserved c)) a = true)
  /\ escapeXml_opt None = [] /\ escapeXml_opt (Some a) = escapeXml a.
Proof.
  split; [apply escapeXml_app|]. split; [|split; [apply escapeXml_fixed|split; reflexivity]].
  induction a as [|c a IH]; [trivial|]. rewrite escapeXml_cons, length_app.
  destruct (img_reserved c) as [[_ ->]|[_ (t & -> & _)]]; cbn [length]; lia.
Qed.

(** X4.  For a tag name of letters, digits, [_], [-] and [:],
    [extractXmlSection] returns the text between the leftmost opening tag
    that has a closing tag behind it and the first closing tag behind
    that opening tag, tags being compared up to letter case; it returns
    nothing exactly when no opening tag has a closing tag behind it. *)
Theorem X4_section_found d tagName :
  tag_name_ok tagName = true ->
  match extractXmlSection d tagName with
  | Some body =>
      exists pre o c post,
        d = pre ++ o ++ body ++ c ++ post
        /\ strip same_i (tag_open tagName) o = Some []
        /\ strip same_i (tag_close tagName) c = Some []
        /\ (forall k, k < length body ->
                      ~ occurs_i (tag_close tagName) (body ++ c ++ post) k)
        /\ (forall k j, k < length pre -> occurs_i (tag_open tagName) d k ->
                        k + length (tag_open tagName) <= j ->
                        ~ occurs_i (tag_close tagName) d j)
  | None =>
      forall k j, occurs_i (tag_open tagName) d k ->
                  k + length (tag_open tagName) <= j ->
                  ~ occurs_i (tag_close tagName) d j
  end.
Proof.
  intros _. destruct (extractXmlSection d tagName) as [body|] eqn:E.
  - now apply section_found.
  - now apply section_not_found.
Qed.

Lemma X4_section_found_witness :
  match extractXmlSection sample_upper t_implemented_features with
  | Some body =>
      exists pre o c post,
        sample_upper = pre ++ o ++ body ++ c ++ post
        /\ strip same_i (tag_open t_implemented_features) o = Some []
        /\ strip same_i (tag_close t_implemented_features) c = Some []
        /\ (forall k, k < length body ->
                      ~ occurs_i (tag_close t_implemented_features) (body ++ c ++ post) k)
        /\ (forall k j, k < length pre ->
                        occurs_i (tag_open t_implemented_features) sample_upper k ->
                        k + length (tag_open t_implemented_features) <= j ->
                        ~ occurs_i (tag_close t_implemented_features) sample_upper j)
  | None =>
      forall k j, occurs_i (tag_open t_implemented_features) sample_upper k ->
                  k + length (tag_open t_implemented_features) <= j ->
                  ~ occurs_i (tag_close t_implemented_features) sample_upper j
  end.
Proof. apply (X4_section_found sample_upper t_implemented_features). reflexivity. Defined.

(** X5.  For a tag name of letters, digits, [_], [-] and [:], and a
    separator without [<]: from the elements written for a list of
    values, each escaped between the two tags, [extractXmlElements]
    returns the values that are on one line, trimmed, in order; a value
    that holds a line break is left out. *)
Theorem X5_elements_roundtrip sep tagName values :
  tag_name_ok tagName = true ->
  forallb (fun c => negb (same lt_ c)) sep = true ->
  extractXmlElements (elements_xml sep tagName values) tagName
  = map trim (filter (forallb dot) values).
Proof. apply extract_elements. Qed.

Lemma X5_elements_roundtrip_witness :
  extractXmlElements
    (elements_xml nl (lit "item") [lit "a < b"; lit " c&d "; "x"%char :: "010"%char :: []])
    (lit "item")
  = [lit "a < b"; lit "c&d"].
Proof.
  apply (X5_elements_roundtrip nl (lit "item")
           [lit "a < b"; lit " c&d "; "x"%char :: "010"%char :: []]); reflexivity.
Defined.

(** X6.  Every feature the parser returns, for any document, has a name
    that is not empty, a name and a description that are on one line and
    have no white space around them, and either no list of locations or
    a list that is not empty and whose entries are on one line without
    white space around them. *)
Theorem X6_parsed_features d :
  Forall (fun f =>
            name f <> [] /\ tidy (name f) /\ tidy (description f)
            /\ match file_locations f with
               | None => True
               | Some locs => locs <> [] /\ Forall tidy locs
               end)
         (extractImplementedFeatures d).
Proof.
  apply Forall_forall. intros f Hf. unfold extractImplementedFeatures in Hf.
  destruct (extractXmlSection d t_implemented_features) as [[|x sec]|];
    try (now destruct Hf).
  apply filter_map_in in Hf as (b & _ & Hb). now apply parse_feature_tidy with (b := b).
Qed.

(** X7.  For a document that holds a well-formed section or none and
    offers a place for the section, and any list of features without a
    dollar: the parser reads in the written document the list with every
    name, description and location trimmed, a description that is not on
    one line emptied, a location that is not on one line left out, a list
    of locations with nothing left dropped, and a feature whose name is
    empty, blank or not on one line left out, in the order of the list. *)
Theorem X7_read_back d F :
  well_formed_or_absent d = true -> has_place d = true ->
  forallb dollar_free F = true ->
  extractImplementedFeatures (updateImplementedFeaturesSection d F)
  = filter_map read_back F.
Proof. apply extract_update_read_back. Qed.

Lemma X7_read_back_witness :
  extractImplementedFeatures (updateImplementedFeaturesSection sample_doc sample_untidy)
  = [mkFeature (lit "Login") [] (Some [lit "src/a.ts"]); sample_export].
Proof. apply (X7_read_back sample_doc sample_untidy); reflexivity. Defined.

(** X8.  For a document that holds a well-formed section or none and
    whose parsed features hold no dollar: after a removal the parser
    finds the features it found before, without those that have the name
    up to letter case, unchanged and in the same order. *)
Theorem X8_remove_filters d n :
  well_formed_or_absent d = true ->
  forallb dollar_free (extractImplementedFeatures d) = true ->
  extractImplementedFeatures (removeImplementedFeature d n)
  = filter (fun f => negb (same_name (name f) n)) (extractImplementedFeatures d).
Proof. apply extract_remove. Qed.

Lemma X8_remove_filters_witness :
  extractImplementedFeatures (removeImplementedFeature sample_doc2 (lit "LOGIN"))
  = [sample_search].
Proof. apply (X8_remove_filters sample_doc2 (lit "LOGIN")); reflexivity. Defined.

(** X9.  On such a document a removal done twice gives the document of
    the first removal. *)
Theorem X9_remove_idempotent d n :
  well_formed_or_absent d = true ->
  forallb dollar_free (extractImplementedFeatures d) = true ->
  removeImplementedFeature (removeImplementedFeature d n) n = removeImplementedFeature d n.
Proof.
  intros Hwf HE. rewrite (remove_cases (removeImplementedFeature d n) n).
  unfold hasImplementedFeature at 1. rewrite extract_remove by assumption.
  now rewrite (existsb_filter_neg (fun f => same_name (name f) n)).
Qed.

Lemma X9_remove_idempotent_witness :
  removeImplementedFeature (removeImplementedFeature sample_doc2 (lit "LOGIN")) (lit "LOGIN")
  = removeImplementedFeature sample_doc2 (lit "LOGIN").
Proof. apply (X9_remove_idempotent sample_doc2 (lit "LOGIN")); reflexivity. Defined.

(** X10.  For a document that holds a well-formed section or none,
    offers a place for the section and whose parsed features hold no
    dollar, and a feature with a valid name and no dollar: after the
    feature is added, a name is found exactly when it was found before
    or is the name of the feature up to letter case. *)
Theorem X10_has_after_add d f m :
  well_formed_or_absent d = true -> has_place d = true ->
  forallb dollar_free (extractImplementedFeatures d) = true ->
  valid_name (name f) = true -> dollar_free f = true ->
  hasImplementedFeature (addImplementedFeature d f) m
  = hasImplementedFeature d m || same_name (name f) m.
Proof.
  intros Hwf Hp HE Hv Hf. unfold hasImplementedFeature at 1.
  rewrite extract_add, Hp by assumption. cbn [negb]. rewrite orb_false_r.
  destruct (hasImplementedFeature d (name f)) eqn:Hd.
  - fold (hasImplementedFeature d m).
    destruct (same_name (name f) m) eqn:Em; [|now rewrite orb_false_r].
    rewrite orb_true_r. rewrite <- Hd. unfold hasImplementedFeature.
    apply existsb_pointwise. intros g. symmetry. now apply same_name_right.
  - rewrite existsb_app. cbn [existsb]. now rewrite orb_false_r, name_read_record.
Qed.

Lemma X10_has_after_add_witness :
  hasImplementedFeature (addImplementedFeature sample_doc2 sample_export) (lit "EXPORT")
  = hasImplementedFeature sample_doc2 (lit "EXPORT")
    || same_name (name sample_export) (lit "EXPORT").
Proof.
  apply (X10_has_after_add sample_doc2 sample_export (lit "EXPORT")); reflexivity.
Defined.

(** X11.  For a document that holds a well-formed section or none and
    whose parsed features hold no dollar: after the removal of a name,
    another name is found exactly when it was found before and is not
    the removed name up to letter case. *)
Theorem X11_has_after_remove d n m :
  well_formed_or_absent d = true ->
  forallb dollar_free (extractImplementedFeatures d) = true ->
  hasImplementedFeature (removeImplementedFeature d n) m
  = hasImplementedFeature d m && negb (same_name n m).
Proof.
  intros Hwf HE. unfold hasImplementedFeature.
  rewrite extract_remove by assumption. apply existsb_same_filter.
Qed.

Lemma X11_has_after_remove_witness :
  hasImplementedFeature (removeImplementedFeature sample_doc2 (lit "login")) (lit "a & b")
  = hasImplementedFeature sample_doc2 (lit "a & b")
    && negb (same_name (lit "login") (lit "a & b")).
Proof.
  apply (X11_has_after_remove sample_doc2 (lit "login") (lit "a & b")); reflexivity.
Defined.

(** X12.  For a document that holds a well-formed section or none and
    two lists of features without a dollar: writing the second list into
    the document the first write gave is writing the second list into
    the document itself.  The second write replaces the section of the
    first and adds no section; writing the same list twice changes
    nothing the second time. *)
Theorem X12_last_write_wins d F G :
  well_formed_or_absent d = true ->
  forallb dollar_free F = true -> forallb dollar_free G = true ->
  updateImplementedFeaturesSection (updateImplementedFeaturesSection d F) G
  = updateImplementedFeaturesSection d G
  /\ updateImplementedFeaturesSection (updateImplementedFeaturesSection d F) F
     = updateImplementedFeaturesSection d F.
Proof. intros Hwf HF HG. split; now apply update_update. Qed.

Lemma X12_last_write_wins_witness :
  updateImplementedFeaturesSection
    (updateImplementedFeaturesSection sample_doc [sample_login]) sample_untidy
  = updateImplementedFeaturesSection sample_doc sample_untidy.
Proof.
  apply (X12_last_write_wins sample_doc [sample_login] sample_untidy); reflexivity.
Defined.

(** X13.  For a document that holds a well-formed section or none and
    whose parsed features hold no dollar and have names that are unique
    up to letter case: the names are still unique after a feature with a
    valid name and no dollar is added, and after any name is removed. *)
Theorem X13_names_stay_unique d f n :
  well_formed_or_absent d = true ->
  forallb dollar_free (extractImplementedFeatures d) = true ->
  unique_names (extractImplementedFeatures d) = true ->
  valid_name (name f) = true -> dollar_free f = true ->
  unique_names (extractImplementedFeatures (addImplementedFeature d f)) = true
  /\ unique_names (extractImplementedFeatures (removeImplementedFeature d n)) = true.
Proof.
  intros Hwf HE Hu Hv Hf. split.
  - rewrite extract_add by assumption.
    destruct (hasImplementedFeature d (name f)) eqn:Hd; [assumption|].
    destruct (has_place d); [|assumption]. cbn [orb negb].
    apply unique_names_snoc; [assumption|]. now rewrite name_read_record.
  - rewrite extract_remove by assumption. now apply unique_names_filter.
Qed.

Lemma X13_names_stay_unique_witness :
  unique_names (extractImplementedFeatures (addImplementedFeature sample_doc2 sample_export))
  = true
  /\ unique_names (extractImplementedFeatures (removeImplementedFeature sample_doc2 (lit "login")))
     = true.
Proof.
  apply (X13_names_stay_unique sample_doc2 sample_export (lit "login")); reflexivity.
Defined.

(** X14.  For any list, each conversion keeps the number, the order,
    the names and the descriptions of the records, never returns a
    record with an empty list of locations (an empty list is left out),
    and changes nothing when it is applied to a list that the other
    conversion returned. *)
Theorem X14_conversions_normalise F S :
  map so_name (toSpecOutputFeatures F) = map name F
  /\ map so_description (toSpecOutputFeatures F) = map description F
  /\ map name (fromSpecOutputFeatures S) = map so_name S
  /\ map description (fromSpecOutputFeatures S) = map so_description S
  /\ forallb (fun f => absent_or_nonempty (so_file_locations f)) (toSpecOutputFeatures F)
     = true
  /\ forallb (fun f => absent_or_nonempty (file_locations f)) (fromSpecOutputFeatures S)
     = true
  /\ toSpecOutputFeatures (fromSpecOutputFeatures (toSpecOutputFeatures F))
     = toSpecOutputFeatures F
  /\ fromSpecOutputFeatures (toSpecOutputFeatures (fromSpecOutputFeatures S))
     = fromSpecOutputFeatures S.
Proof.
  unfold toSpecOutputFeatures, fromSpecOutputFeatures. rewrite !map_map.
  cbn [so_name so_description so_file_locations name description file_locations].
  repeat split; try reflexivity.
  - rewrite forallb_forall. intros x [f [<- _]]%in_map_iff. apply nonempty_only_ok.
  - rewrite forallb_forall. intros x [f [<- _]]%in_map_iff. apply nonempty_only_ok.
  - apply map_ext. intros f. now rewrite !nonempty_only_idem.
  - apply map_ext. intros f. now rewrite !nonempty_only_idem.
Qed.

(** X15.  The lookup ignores letter case and goes through the parsed
    names: a name is found exactly when one of the names
    [extractImplementedFeatureNames] returns has the same lower-case
    form, and the lookup of a name and of its lower-case form agree. *)
Theorem X15_lookup_ignores_case d n :
  (hasImplementedFeature d n = true <->
   exists m, In m (extractImplementedFeatureNames d) /\ toLowerCase m = toLowerCase n)
  /\ hasImplementedFeature d (toLowerCase n) = hasImplementedFeature d n.
Proof.
  unfold hasImplementedFeature, extractImplementedFeatureNames. split.
  - rewrite existsb_exists. split.
    + intros (f & Hf & Hn). exists (name f). split; [now apply in_map|].
      now apply same_name_eq.
    + intros (m & [f [<- Hf]]%in_map_iff & Hm). exists f. split; [assumption|].
      now apply same_name_eq.
  - apply existsb_pointwise. intros f. unfold same_name. now rewrite toLowerCase_idem.
Qed.

(** X16.  For a document that holds no section at all and offers a
    place for one, the features are written and read back as in X7 also
    when they hold dollars: the two rules that insert a section put the
    generated text into the document as it is, so a dollar in a name, a
    description or a location is carried unchanged. *)
Theorem X16_insert_keeps_dollars d F :
  well_formed_or_absent d = true -> sectionRegex_test d = false -> has_place d = true ->
  extractImplementedFeatures (updateImplementedFeaturesSection d F)
  = filter_map read_back F.
Proof. apply extract_insert_read_back. Qed.

Lemma X16_insert_keeps_dollars_witness :
  extractImplementedFeatures (updateImplementedFeaturesSection sample_doc [sample_dollars])
  = [sample_dollars].
Proof. apply (X16_insert_keeps_dollars sample_doc [sample_dollars]); reflexivity. Defined.

(** X17.  For a document that holds a well-formed section or none and
    whose parsed features hold no dollar, and an update whose supplied
    name, if any, is valid and whose supplied values hold no dollar:
    after the update the parser finds as many features as before, in the
    same order, and their names are the names found before, but for the
    features that have the given name up to letter case, which get the
    supplied name when the update supplies one. *)
Theorem X17_names_after_update d n u :
  well_formed_or_absent d = true ->
  forallb dollar_free (extractImplementedFeatures d) = true ->
  writable_update u = true ->
  extractImplementedFeatureNames (updateImplementedFeature d n u)
  = map (fun m => if same_name m n
                  then match u_name u with Some n' => n' | None => m end
                  else m)
        (extractImplementedFeatureNames d).
Proof.
  intros Hwf HE Hu. unfold extractImplementedFeatureNames.
  rewrite extract_updateFeature by assumption. rewrite !map_map.
  apply extract_storable in HE. rewrite forallb_forall in HE.
  apply map_ext_in. intros f Hf. now apply name_after_update; [apply HE|].
Qed.

Lemma X17_names_after_update_witness :
  extractImplementedFeatureNames
    (updateImplementedFeature sample_doc2 (lit "LOGIN")
       (mkUpdate (Some (lit "Sign in")) None None))
  = [lit "Sign in"; lit "A & B"].
Proof.
  apply (X17_names_after_update sample_doc2 (lit "LOGIN")
           (mkUpdate (Some (lit "Sign in")) None None)); reflexivity.
Defined.

(* ================================================================== *)
(** * Properties of the status probe *)
(* ================================================================== *)

Import CliStatus.

(** ** The first line of an output *)

Lemma first_line_no_LF s : ~ In LF (first_line s).
Proof.
  induction s as [|c s IH]; [intros []|]. cbn [first_line].
  destruct (Ascii.eqb_spec c LF) as [->|Hc]; [intros []|].
  destruct (Ascii.eqb c CR).
  - destruct s as [|d s]; [intros [H|[]]; congruence|].
    destruct (Ascii.eqb d LF); [intros []|]. intros [H|H]; [congruence|auto].
  - intros [H|H]; [congruence|auto].
Qed.

Lemma first_line_prefix s : exists rest, s = first_line s ++ rest.
Proof.
  induction s as [|c s [rest IH]]; [now exists []|]. cbn [first_line].
  destruct (Ascii.eqb c LF); [now exists (c :: s)|].
  destruct (Ascii.eqb c CR).
  - destruct s as [|d s]; [now exists []|].
    destruct (Ascii.eqb d LF); [now exists (c :: d :: s)|].
    exists rest. cbn [app]. now rewrite <- IH.
  - exists rest. cbn [app]. now rewrite <- IH.
Qed.

Lemma first_line_whole s : ~ In LF s -> first_line s = s.
Proof.
  induction s as [|c s IH]; [reflexivity|]. intros H. cbn [first_line].
  destruct (Ascii.eqb_spec c LF) as [->|Hc]; [exfalso; apply H; now left|].
  assert (Hs : ~ In LF s) by (intros X; apply H; now right).
  destruct (Ascii.eqb c CR).
  - destruct s as [|d s]; [reflexivity|].
    destruct (Ascii.eqb_spec d LF) as [->|?]; [exfalso; apply Hs; now left|].
    now rewrite IH.
  - now rewrite IH.
Qed.

Lemma probe_paths_cases {R} (w : World R) paths :
  (probe_paths w paths = mkCli false [] [] (lit "none")
   /\ forallb (fun p => negb (access w p)) paths = true)
  \/ exists before p after,
       paths = before ++ p :: after
       /\ forallb (fun p => negb (access w p)) before = true
       /\ access w p = true
       /\ probe_paths w paths
          = mkCli true (version_from w ([quot] ++ p ++ [quot] ++ lit " --version")) p
                  (lit "local").
Proof.
  induction paths as [|p paths IH]; [now left|]. cbn [probe_paths forallb].
  destruct (access w p) eqn:E.
  - right. exists [], p, paths. auto.
  - destruct IH as [[H1 H2]|(before & q & after & -> & Hb & Hq & Hp)]; [now left|].
    right. exists (p :: before), q, after. cbn [forallb app]. rewrite E. auto.
Qed.

Ltac auth_step :=
  unfold auth_ok; cbn; rewrite ?orb_true_r; cbn;
  intuition (try discriminate; try congruence; auto with bool).

Lemma auth_ok_initial {R} (w : World R) : auth_ok (initial_auth w).
Proof. auth_step. Qed.

Lemma auth_ok_cli a : auth_ok a -> auth_ok (cli_authenticated a).
Proof. destruct a. auth_step. Qed.

Lemma auth_ok_stats {R} (w : World R) dir a : auth_ok a -> auth_ok (check_stats w dir a).
Proof.
  unfold check_stats. destruct (has_activity w dir); [|trivial].
  destruct a. auth_step.
Qed.

Lemma auth_ok_settings {R} (w : World R) dir a :
  auth_ok a -> auth_ok (check_settings w dir a).
Proof.
  unfold check_settings. intros H.
  destruct (access w _); [|assumption]. destruct (negb (hasCliAuth a)); [|assumption].
  destruct (readdir w _) as [sessions|]; [|assumption].
  destruct (0 <? length sessions); [now apply auth_ok_cli|assumption].
Qed.

Lemma auth_ok_credentials {R} (w : World R) paths a :
  auth_ok a -> auth_ok (check_credentials w paths a).
Proof.
  revert a. induction paths as [|p paths IH]; intros a H; [assumption|].
  assert (H' : auth_ok (set_hasCredentialsFile true a)) by (destruct a; exact H).
  assert (Ho : auth_ok (oauth_from_file (set_hasCredentialsFile true a)))
    by (clear -H; destruct a; revert H; auth_step).
  assert (Hk : auth_ok (api_key_from_file (set_hasCredentialsFile true a)))
    by (clear -H; destruct a; revert H; auth_step).
  cbn [check_credentials].
  destruct (readFile w p) as [content|]; [|auto].
  destruct (JSON_parse R content) as [credentials|]; [|auto].
  destruct (prop R credentials (lit "oauth_token")) as [t|]; [|auto].
  destruct (truthy R t); [assumption|].
  destruct (prop R credentials (lit "access_token")) as [t'|]; [|auto].
  destruct (truthy R t'); [assumption|].
  destruct (prop R credentials (lit "api_key")) as [k|]; [|auto].
  destruct (truthy R k); assumption.
Qed.

Lemma auth_ok_env a : auth_ok a -> auth_ok (check_env a).
Proof. unfold check_env. destruct (hasEnvApiKey a) eqn:E; [|trivial]. destruct a. auth_step. Qed.

Lemma auth_ok_stored_oauth {R} (w : World R) a : auth_ok a -> auth_ok (check_stored_oauth w a).
Proof.
  unfold check_stored_oauth. destruct (negb (authenticated a) && _); [|trivial].
  destruct a. auth_step.
Qed.

Lemma auth_ok_stored_api_key {R} (w : World R) a :
  auth_ok a -> auth_ok (check_stored_api_key w a).
Proof.
  unfold check_stored_api_key. destruct (negb (authenticated a) && _); [|trivial].
  destruct a. auth_step.
Qed.

Lemma auth_ok_find {R} (w : World R) home : auth_ok (find_auth w home).
Proof.
  unfold find_auth.
  apply auth_ok_stored_api_key, auth_ok_stored_oauth, auth_ok_env, auth_ok_credentials,
    auth_ok_settings, auth_ok_stats, auth_ok_initial.
Qed.

Lemma find_cli_cases {R} (w : World R) home :
  let cli := find_cli w home in
  (cli_installed cli = false ->
   cli_method cli = lit "none" /\ cliPath cli = [] /\ cli_version cli = [])
  /\ (cli_installed cli = true -> cli_method cli = lit "path" \/ cli_method cli = lit "local")
  /\ (cli_method cli = lit "path" <-> execAsync w (findCommand w) <> None).
Proof.
  unfold find_cli. destruct (execAsync w (findCommand w)) as [out|].
  - cbn. repeat split; try discriminate; auto.
  - destruct (probe_paths_cases w (commonPaths w home))
      as [[-> _]|(before & p & after & _ & _ & _ & ->)]; cbn;
      repeat split; try discriminate; auto; intros H; congruence.
Qed.

(** X18.  The probe returns a result whenever the home directory is
    known, and its promise is rejected only when [os.homedir] throws.  In
    the result, [status] says [installed] exactly when [installed] is
    set; a client that is not installed has the method [none], an empty
    path and an empty version; an installed client has the method [path]
    or [local], and [path] exactly when the lookup command succeeded. *)
Theorem X18_probe_result {R} (w : World R) :
  match getClaudeStatus w with
  | None => homedir w = None
  | Some st =>
      homedir w <> None
      /\ status st = (if installed st then lit "installed" else lit "not_installed")
      /\ (installed st = false ->
          method st = lit "none" /\ path st = [] /\ version st = [])
      /\ (installed st = true -> method st = lit "path" \/ method st = lit "local")
      /\ (method st = lit "path" <-> execAsync w (findCommand w) <> None)
  end.
Proof.
  unfold getClaudeStatus. destruct (homedir w) as [home|]; [|reflexivity].
  cbn [status installed method version path].
  split; [discriminate|]. split; [reflexivity|]. apply find_cli_cases.
Qed.

(** X19.  When the lookup command succeeds, the client counts as
    installed with the method [path], whatever the file system holds; the
    path is the first line of the trimmed output of the command, so it
    holds no line feed, and it is the whole trimmed output when that is
    one line; the version is the trimmed output of [claude --version],
    and empty when that command fails. *)
Theorem X19_found_on_path {R} (w : World R) home out :
  homedir w = Some home -> execAsync w (findCommand w) = Some out ->
  exists st,
    getClaudeStatus w = Some st
    /\ installed st = true /\ method st = lit "path"
    /\ path st = first_line (trim out)
    /\ ~ In LF (path st)
    /\ (exists rest, trim out = path st ++ rest)
    /\ (~ In LF out -> path st = trim out)
    /\ version st = match execAsync w (lit "claude --version") with
                    | Some versionOut => trim versionOut
                    | None => []
                    end.
Proof.
  intros Hh Hx. unfold getClaudeStatus, find_cli. rewrite Hh, Hx.
  eexists. split; [reflexivity|]. cbn [installed method path version cli_installed
                                       cli_method cliPath cli_version].
  repeat split.
  - apply first_line_no_LF.
  - apply first_line_prefix.
  - intros H. apply first_line_whole. intros X. apply H.
    assert (G : forall (P : ascii -> bool) s, forallb P s = true -> forallb P (trim s) = true)
      by (intros; now apply forallb_trim).
    destruct (forallb (fun c => negb (Ascii.eqb c LF)) out) eqn:E.
    + apply G in E. rewrite forallb_forall in E. specialize (E _ X).
      now rewrite Ascii.eqb_refl in E.
    + exfalso. apply not_true_iff_false in E. apply E. apply forallb_forall.
      intros c Hc. destruct (Ascii.eqb_spec c LF) as [->|?]; [now apply H in Hc|reflexivity].
Qed.

Lemma X19_found_on_path_witness :
  exists st,
    getClaudeStatus sample_machine = Some st
    /\ installed st = true /\ method st = lit "path"
    /\ path st = first_line (trim (lit "/usr/bin/claude" ++ [LF]))
    /\ ~ In LF (path st)
    /\ (exists rest, trim (lit "/usr/bin/claude" ++ [LF]) = path st ++ rest)
    /\ (~ In LF (lit "/usr/bin/claude" ++ [LF]) ->
        path st = trim (lit "/usr/bin/claude" ++ [LF]))
    /\ version st = match execAsync sample_machine (lit "claude --version") with
                    | Some versionOut => trim versionOut
                    | None => []
                    end.
Proof.
  apply (X19_found_on_path sample_machine (lit "/home/u") (lit "/usr/bin/claude" ++ [LF]));
    reflexivity.
Defined.

(** X20.  When the lookup command fails, the client counts as installed
    exactly when one of the common places can be accessed; the path is
    then the first place of the list that can be accessed, the method is
    [local], and the version is the trimmed output of that path, in
    double quotes, with [--version], and empty when the command fails. *)
Theorem X20_found_in_common_place {R} (w : World R) home :
  homedir w = Some home -> execAsync w (findCommand w) = None ->
  exists st,
    getClaudeStatus w = Some st
    /\ installed st = existsb (access w) (commonPaths w home)
    /\ (installed st = true ->
        method st = lit "local"
        /\ access w (path st) = true
        /\ (exists before after,
              commonPaths w home = before ++ path st :: after
              /\ forallb (fun p => negb (access w p)) before = true)
        /\ version st
           = match execAsync w ([quot] ++ path st ++ [quot] ++ lit " --version") with
             | Some versionOut => trim versionOut
             | None => []
             end).
Proof.
  intros Hh Hx. unfold getClaudeStatus, find_cli. rewrite Hh, Hx.
  eexists. split; [reflexivity|]. cbn [installed method path version].
  destruct (probe_paths_cases w (commonPaths w home))
    as [[-> Hn]|(before & p & after & E & Hb & Hp & ->)];
    cbn [cli_installed cli_method cliPath cli_version].
  - split; [|discriminate]. symmetry. apply not_true_iff_false.
    intros (p & Hin & Hp)%existsb_exists. rewrite forallb_forall in Hn.
    specialize (Hn p Hin). now rewrite Hp in Hn.
  - split.
    + symmetry. apply existsb_exists. exists p. split; [|assumption].
      rewrite E. apply in_or_app. right. now left.
    + intros _. repeat split; trivial. now exists before, after.
Qed.

Lemma X20_found_in_common_place_witness :
  exists st,
    getClaudeStatus sample_machine_local = Some st
    /\ installed st
       = existsb (access sample_machine_local)
           (commonPaths sample_machine_local (lit "/home/u"))
    /\ (installed st = true ->
        method st = lit "local"
        /\ access sample_machine_local (path st) = true
        /\ (exists before after,
              commonPaths sample_machine_local (lit "/home/u") = before ++ path st :: after
              /\ forallb (fun p => negb (access sample_machine_local p)) before = true)
        /\ version st
           = match execAsync sample_machine_local
                     ([quot] ++ path st ++ [quot] ++ lit " --version") with
             | Some versionOut => trim versionOut
             | None => []
             end).
Proof.
  apply (X20_found_in_common_place sample_machine_local (lit "/home/u")); reflexivity.
Defined.

(** X21.  In every result the [auth] object is consistent:
    [authenticated] is set exactly when one of [oauthTokenValid],
    [apiKeyValid] and [hasCliAuth] is, and exactly when the method is
    not [none]; recent activity implies [hasCliAuth]; [hasToken] is never
    set; and the method is one of [none], [cli_authenticated],
    [oauth_token], [api_key] and [api_key_env]. *)
Theorem X21_auth_consistent {R} (w : World R) :
  match getClaudeStatus w with
  | None => True
  | Some st =>
      let a := auth st in
      authenticated a = oauthTokenValid a || apiKeyValid a || hasCliAuth a
      /\ (authenticated a = true <-> auth_method a <> lit "none")
      /\ (hasRecentActivity a = true -> hasCliAuth a = true)
      /\ hasToken a = false
      /\ In (auth_method a)
            [lit "none"; lit "cli_authenticated"; lit "oauth_token"; lit "api_key";
             lit "api_key_env"]
  end.
Proof.
  unfold getClaudeStatus. destruct (homedir w) as [home|]; [|exact I].
  cbn [auth]. apply auth_ok_find.
Qed.

Lemma hasEnvApiKey_cli a : hasEnvApiKey (cli_authenticated a) = hasEnvApiKey a.
Proof. reflexivity. Qed.

Lemma hasEnvApiKey_credentials {R} (w : World R) paths a :
  hasEnvApiKey (check_credentials w paths a) = hasEnvApiKey a.
Proof.
  revert a. induction paths as [|p paths IH]; intros a; [reflexivity|].
  cbn [check_credentials].
  destruct (readFile w p) as [content|]; [|auto].
  destruct (JSON_parse R content) as [credentials|]; [|auto].
  destruct (prop R credentials (lit "oauth_token")) as [t|]; [|now rewrite IH].
  destruct (truthy R t); [reflexivity|].
  destruct (prop R credentials (lit "access_token")) as [t'|]; [|now rewrite IH].
  destruct (truthy R t'); [reflexivity|].
  destruct (prop R credentials (lit "api_key")) as [k|]; [|now rewrite IH].
  now destruct (truthy R k).
Qed.

Lemma hasEnvApiKey_before_env {R} (w : World R) dir paths :
  hasEnvApiKey (check_credentials w paths (check_settings w dir (check_stats w dir (initial_auth w))))
  = hasEnv w.
Proof.
  rewrite hasEnvApiKey_credentials. unfold check_settings, check_stats.
  destruct (access w _); destruct (has_activity w dir); cbn [negb hasCliAuth cli_authenticated
    set_method set_authenticated set_hasCliAuth set_hasRecentActivity initial_auth];
    try reflexivity;
    destruct (readdir w _) as [s|]; try reflexivity; now destruct (0 <? length s).
Qed.

Lemma method_before_env {R} (w : World R) dir paths :
  auth_method (check_credentials w paths
                 (check_settings w dir (check_stats w dir (initial_auth w))))
  <> lit "api_key_env".
Proof.
  set (ok := fun a : Auth => auth_method a <> lit "api_key_env").
  assert (H0 : ok (check_settings w dir (check_stats w dir (initial_auth w)))).
  { unfold check_settings, check_stats.
    destruct (access w _); destruct (has_activity w dir);
      cbn [negb hasCliAuth cli_authenticated set_method set_authenticated set_hasCliAuth
           set_hasRecentActivity initial_auth]; try discriminate;
      destruct (readdir w _) as [s|]; try discriminate;
      destruct (0 <? length s); discriminate. }
  revert H0. generalize (check_settings w dir (check_stats w dir (initial_auth w))).
  induction paths as [|p paths IH]; intros a H; [assumption|].
  assert (H' : ok (set_hasCredentialsFile true a)) by exact H.
  cbn [check_credentials].
  destruct (readFile w p) as [content|]; [|auto].
  destruct (JSON_parse R content) as [credentials|]; [|auto].
  destruct (prop R credentials (lit "oauth_token")) as [t|]; [|auto].
  destruct (truthy R t); [discriminate|].
  destruct (prop R credentials (lit "access_token")) as [t'|]; [|auto].
  destruct (truthy R t'); [discriminate|].
  destruct (prop R credentials (lit "api_key")) as [k|]; [|auto].
  destruct (truthy R k); [discriminate|assumption].
Qed.

(** X22.  The key of the environment has the highest priority: when
    [ANTHROPIC_API_KEY] is set and not empty, the result is
    authenticated with the method [api_key_env] and a valid API key,
    whatever the files and the key store hold; and the method is
    [api_key_env] only then. *)
Theorem X22_env_key_wins {R} (w : World R) st :
  getClaudeStatus w = Some st ->
  (hasEnv w = true ->
   authenticated (auth st) = true /\ auth_method (auth st) = lit "api_key_env"
   /\ apiKeyValid (auth st) = true /\ hasEnvApiKey (auth st) = true)
  /\ (auth_method (auth st) = lit "api_key_env" -> hasEnv w = true).
Proof.
  unfold getClaudeStatus. destruct (homedir w) as [home|]; [|discriminate].
  intros [= <-]. cbn [auth]. unfold find_auth.
  set (dir := path_join R [home; lit ".claude"]).
  set (a := check_credentials w (credentialsPaths (R:=R) dir)
              (check_settings w dir (check_stats w dir (initial_auth w)))).
  assert (He : hasEnvApiKey a = hasEnv w) by apply hasEnvApiKey_before_env.
  unfold check_env. rewrite He. destruct (hasEnv w).
  - split; [|reflexivity]. intros _.
    unfold check_stored_api_key, check_stored_oauth. cbn. auto.
  - split; [discriminate|]. intros H. exfalso. revert H.
    pose proof (method_before_env w dir (credentialsPaths (R:=R) dir)) as Hm.
    fold a in Hm. unfold check_stored_api_key, check_stored_oauth.
    destruct (negb (authenticated a) && _).
    + cbn. discriminate.
    + destruct (negb (authenticated a) && _); [cbn; discriminate|assumption].
Qed.

Lemma X22_env_key_wins_witness :
  exists st,
    getClaudeStatus sample_machine_local = Some st
    /\ authenticated (auth st) = true /\ auth_method (auth st) = lit "api_key_env".
Proof.
  eexists. split; [reflexivity|].
  destruct (X22_env_key_wins sample_machine_local _ eq_refl) as [H _].
  destruct (H eq_refl) as (H1 & H2 & _). split; [exact H1|exact H2].
Defined.

(** X23.  The keys of the store come last: when no file and no
    directory can be read, the result is authenticated exactly when the
    key of the environment is set or one of the two stored keys is; the
    method is [api_key_env] for the key of the environment, else
    [oauth_token] for a stored OAuth token, else [api_key] for a stored
    API key, else [none]. *)
Theorem X23_stored_keys_last {R} (w : World R) st :
  getClaudeStatus w = Some st ->
  (forall p, readFile w p = None) -> (forall p, readdir w p = None) ->
  let oauth := truthy R (getApiKey w (lit "anthropic_oauth_token")) in
  let key := truthy R (getApiKey w (lit "anthropic")) in
  authenticated (auth st) = hasEnv w || oauth || key
  /\ auth_method (auth st)
     = (if hasEnv w then lit "api_key_env"
        else if oauth then lit "oauth_token"
        else if key then lit "api_key" else lit "none")
  /\ hasStoredOAuthToken (auth st) = oauth /\ hasStoredApiKey (auth st) = key
  /\ hasCredentialsFile (auth st) = false /\ hasCliAuth (auth st) = false.
Proof.
  unfold getClaudeStatus. destruct (homedir w) as [home|]; [|discriminate].
  intros [= <-] Hf Hd. cbn [auth]. unfold find_auth.
  set (oauth := truthy R (getApiKey w (lit "anthropic_oauth_token"))).
  set (key := truthy R (getApiKey w (lit "anthropic"))).
  set (dir := path_join R [home; lit ".claude"]).
  assert (E1 : check_stats w dir (initial_auth w) = initial_auth w)
    by (unfold check_stats, has_activity; now rewrite Hf).
  assert (E2 : check_settings w dir (initial_auth w) = initial_auth w)
    by (unfold check_settings; rewrite Hd; now destruct (access w _)).
  assert (E3 : check_credentials w (credentialsPaths (R:=R) dir) (initial_auth w) = initial_auth w)
    by (cbn [credentialsPaths check_credentials]; now rewrite !Hf).
  rewrite E1, E2, E3.
  unfold check_stored_api_key, check_stored_oauth, check_env, initial_auth.
  fold oauth key. cbn.
  clearbody oauth key. destruct (hasEnv w), oauth, key; cbn; repeat split.
Qed.

Lemma X23_stored_keys_last_witness :
  exists st,
    getClaudeStatus sample_machine = Some st
    /\ authenticated (auth st) = true /\ auth_method (auth st) = lit "api_key".
Proof.
  eexists. split; [reflexivity|].
  destruct (X23_stored_keys_last sample_machine _ eq_refl (fun _ => eq_refl)
              (fun _ => eq_refl)) as (H1 & H2 & _).
  split; [exact H1|exact H2].
Defined.

Lemma hasCredentialsFile_credentials {R} (w : World R) paths a :
  hasCredentialsFile (check_credentials w paths a)
  = hasCredentialsFile a || existsb (parsable w) paths.
Proof.
  revert a. induction paths as [|p paths IH]; intros a; [cbn; now rewrite orb_false_r|].
  cbn [check_credentials existsb]. unfold parsable at 1.
  destruct (readFile w p) as [content|]; [|now rewrite IH].
  destruct (JSON_parse R content) as [credentials|]; [|now rewrite IH].
  cbn [orb]. rewrite orb_true_r.
  destruct (prop R credentials (lit "oauth_token")) as [t|]; [|now rewrite IH].
  destruct (truthy R t); [reflexivity|].
  destruct (prop R credentials (lit "access_token")) as [t'|]; [|now rewrite IH].
  destruct (truthy R t'); [reflexivity|].
  destruct (prop R credentials (lit "api_key")) as [k|]; [|now rewrite IH].
  now destruct (truthy R k).
Qed.

(** X24.  [hasCredentialsFile] is set exactly when one of the two
    credentials files, [.credentials.json] and [credentials.json] in the
    [.claude] directory of the home directory, can be read and parsed,
    whatever it holds: also when it holds neither a token nor a key, and
    when looking into the parsed value throws. *)
Theorem X24_credentials_file_flag {R} (w : World R) home st :
  homedir w = Some home -> getClaudeStatus w = Some st ->
  hasCredentialsFile (auth st)
  = parsable w (path_join R [path_join R [home; lit ".claude"]; lit ".credentials.json"])
    || parsable w (path_join R [path_join R [home; lit ".claude"]; lit "credentials.json"]).
Proof.
  unfold getClaudeStatus. intros ->. intros [= <-]. cbn [auth]. unfold find_auth.
  set (dir := path_join R [home; lit ".claude"]).
  assert (E : forall a, hasCredentialsFile
                          (check_stored_api_key w (check_stored_oauth w (check_env a)))
                        = hasCredentialsFile a).
  { intros a. unfold check_stored_api_key, check_stored_oauth, check_env.
    destruct (hasEnvApiKey a); cbn;
      repeat match goal with |- context [if ?b then _ else _] => destruct b; cbn end;
      reflexivity. }
  rewrite E, hasCredentialsFile_credentials.
  cbn [credentialsPaths existsb]. rewrite orb_false_r.
  replace (hasCredentialsFile (check_settings w dir (check_stats w dir (initial_auth w))))
    with false; [reflexivity|].
  unfold check_settings, check_stats.
  destruct (access w _); destruct (has_activity w dir);
    cbn [negb hasCliAuth cli_authenticated set_method set_authenticated set_hasCliAuth
         set_hasRecentActivity initial_auth hasCredentialsFile]; try reflexivity;
    destruct (readdir w _) as [x|]; try reflexivity; now destruct (0 <? length x).
Qed.

Lemma X24_credentials_file_flag_witness :
  exists st,
    getClaudeStatus sample_machine_file = Some st
    /\ hasCredentialsFile (auth st) = true /\ authenticated (auth st) = false.
Proof.
  eexists. split; [reflexivity|]. split; [|reflexivity].
  apply (X24_credentials_file_flag sample_machine_file (lit "/home/u") _ eq_refl eq_refl).
Defined.
